(** * mayajiva core: a navigating agent with a magnetic compass

    Shallow embedding of the numerical core under
    [src/modules/mayajiva/src/core] (landscape.hpp, compass.hpp,
    ring_attractor.hpp, path_integration.hpp, bug.hpp) and of the Godot
    bindings under [src/modules/mayajiva/src/gdext]
    (landscape_resource.cpp, bug_node.cpp).

    Conventions of the embedding.
    - A C++ [double] is a real number of [R]: rounding, infinities and NaN
      are not represented.  Where a statement is about a quotient being
      defined at all, the function is given a second time with a checked
      division ([fdiv], [None] on a zero divisor) and related to the plain
      one.
    - [std::array<double, N>] and [std::vector<double>] are [list R];
      a [for] loop over [0 .. N-1] is a [map] or a [fold_left] over
      [seq 0 N], in the order of the loop.
    - The template parameter [N] of [CompassSensor], [RingAttractor] and
      [CPU4] is an explicit [nat] argument; [Bug] instantiates it with 8.
    - [std::mt19937] and the standard distributions are an interface
      ([RandomSource]); the generator state is threaded explicitly and is
      the single state shared by the agent and its components. *)

From Stdlib Require Import Reals Lra Lia List ZArith Bool.
Import ListNotations.
Local Open Scope R_scope.

(** ** <cmath> and <algorithm> on reals *)

Module Cmath.

Definition Rleb (a b : R) : bool := if Rle_dec a b then true else false.

(** Rounding toward zero: [static_cast<int>] and the quotient inside [fmod]. *)
Definition Ztrunc (x : R) : Z :=
  if Rle_dec 0 x then Int_part x else (- Int_part (- x))%Z.

(** [std::fmod x y]: [x - trunc (x / y) * y], the sign of [x]. *)
Definition fmod (x y : R) : R := x - IZR (Ztrunc (x / y)) * y.

(** [std::atan2 y x] by quadrant. *)
Definition atan2 (y x : R) : R :=
  if Rlt_dec 0 x then atan (y / x)
  else if Rlt_dec x 0 then
         if Rle_dec 0 y then atan (y / x) + PI else atan (y / x) - PI
  else if Rlt_dec 0 y then PI / 2
  else if Rlt_dec y 0 then - (PI / 2)
  else 0.

(** [std::clamp v lo hi]: [(v < lo) ? lo : (hi < v) ? hi : v]. *)
Definition clamp (v lo hi : R) : R :=
  if Rlt_dec v lo then lo else if Rlt_dec hi v then hi else v.

(** [std::max a b]: [(a < b) ? b : a]. *)
Definition fmax (a b : R) : R := if Rlt_dec a b then b else a.

(** [std::pow x y] for [0 <= x] and a positive non-integral [y]. *)
Definition cpow (x y : R) : R :=
  if Req_dec_T x 0 then 0 else Rpower x y.

(** The wrap to [-pi, pi] that the sources spell out three times:
    [d = fmod (d + pi) (2 pi); if (d < 0) d += 2 pi; d -= pi]. *)
Definition wrap_pi (d : R) : R :=
  let d1 := fmod (d + PI) (2 * PI) in
  let d2 := if Rlt_dec d1 0 then d1 + 2 * PI else d1 in
  d2 - PI.

(** Checked division: [None] stands for a quotient by zero. *)
Definition fdiv (a b : R) : option R :=
  if Req_dec_T b 0 then None else Some (a / b).

Definition obind {A B} (o : option A) (k : A -> option B) : option B :=
  match o with Some a => k a | None => None end.

(** [1 / sqrt 2], the cosine and the sine of pi/4. *)
Definition s2 : R := 1 / sqrt 2.

End Cmath.
Import Cmath.

Notation "x <-? o ;; k" := (obind o (fun x => k))
  (at level 61, o at next level, right associativity).

(** ** landscape.hpp *)

Module Landscape.

Record GaussianAnomaly := mkGaussian
  { g_px : R; g_py : R; g_strength : R; g_radius : R }.

Record DipoleAnomaly := mkDipole
  { d_px : R; d_py : R; d_strength : R; d_depth : R }.

Record FaultAnomaly := mkFault
  { f_px : R; f_py : R; f_azimuth : R; f_contrast : R; f_width : R }.

Record GradientAnomaly := mkGradient
  { gr_magnitude : R; gr_direction : R; gr_ref_x : R; gr_ref_y : R }.

(** [std::variant<GaussianAnomaly, DipoleAnomaly, FaultAnomaly, GradientAnomaly>] *)
Inductive Anomaly :=
| Gaussian (a : GaussianAnomaly)
| Dipole (a : DipoleAnomaly)
| Fault (a : FaultAnomaly)
| Gradient (a : GradientAnomaly).

Record FieldResult := mkField
  { direction : R; intensity : R; inclination : R }.

Record Vec3 := mkVec3 { vx : R; vy : R; vz : R }.

Definition zero3 : Vec3 := mkVec3 0 0 0.

Record t := mkLandscape
  { width_ : R; height_ : R; B0_ : R;
    declination_ : R; inclination_ : R;
    B_horizontal_ : R; B_vertical_ : R;
    anomalies_ : list Anomaly }.

(** The constructor. *)
Definition make (width height B0 declination inclination : R) : t :=
  {| width_ := width; height_ := height; B0_ := B0;
     declination_ := declination; inclination_ := inclination;
     B_horizontal_ := B0 * cos inclination;
     B_vertical_ := B0 * sin inclination;
     anomalies_ := [] |}.

(** [Landscape()] with every default argument. *)
Definition default : t := make 1000 1000 50 0 1.1344640137963142.

Definition add_anomaly (a : Anomaly) (l : t) : t :=
  {| width_ := width_ l; height_ := height_ l; B0_ := B0_ l;
     declination_ := declination_ l; inclination_ := inclination_ l;
     B_horizontal_ := B_horizontal_ l; B_vertical_ := B_vertical_ l;
     anomalies_ := anomalies_ l ++ [a] |}.

Definition clear_anomalies (l : t) : t :=
  {| width_ := width_ l; height_ := height_ l; B0_ := B0_ l;
     declination_ := declination_ l; inclination_ := inclination_ l;
     B_horizontal_ := B_horizontal_ l; B_vertical_ := B_vertical_ l;
     anomalies_ := [] |}.

Definition perturbation_gaussian (x y : R) (a : GaussianAnomaly) : Vec3 :=
  let dx := x - g_px a in
  let dy := y - g_py a in
  let r := sqrt (dx * dx + dy * dy) in
  if Rle_dec (3 * g_radius a) r then zero3 else
  let envelope :=
    g_strength a * exp (-0.5 * (r / g_radius a) * (r / g_radius a)) in
  if Rlt_dec r 1e-6 then zero3 else
  mkVec3 (envelope * dx / r) (envelope * dy / r) 0.

Definition perturbation_dipole (x y : R) (a : DipoleAnomaly) : Vec3 :=
  let dx := x - d_px a in
  let dy := y - d_py a in
  let rho2 := dx * dx + dy * dy in
  let R2 := rho2 + d_depth a * d_depth a in
  let R5 := cpow R2 2.5 in
  let alpha := d_strength a * cpow 5 2.5 * (d_depth a) ^ 3 / 48 in
  let dBx := alpha * 3 * d_depth a * dx / R5 in
  let dBy := alpha * 3 * d_depth a * dy / R5 in
  let dBz := alpha * (2 * d_depth a * d_depth a - rho2) / R5 in
  mkVec3 dBx dBy dBz.

Definition perturbation_fault (x y : R) (a : FaultAnomaly) : Vec3 :=
  let d_perp := (x - f_px a) * sin (f_azimuth a)
                - (y - f_py a) * cos (f_azimuth a) in
  let profile := tanh (d_perp / f_width a) in
  let dBx := (f_contrast a / 2) * profile * sin (f_azimuth a) in
  let dBy := - (f_contrast a / 2) * profile * cos (f_azimuth a) in
  mkVec3 dBx dBy 0.

Definition perturbation_gradient (x y : R) (a : GradientAnomaly) : Vec3 :=
  let s := (x - gr_ref_x a) * cos (gr_direction a)
           + (y - gr_ref_y a) * sin (gr_direction a) in
  let dBx := gr_magnitude a * s * cos (gr_direction a) in
  let dBy := gr_magnitude a * s * sin (gr_direction a) in
  mkVec3 dBx dBy 0.

(** [std::visit] over the four overloads. *)
Definition anomaly_perturbation (x y : R) (anom : Anomaly) : Vec3 :=
  match anom with
  | Gaussian a => perturbation_gaussian x y a
  | Dipole a => perturbation_dipole x y a
  | Fault a => perturbation_fault x y a
  | Gradient a => perturbation_gradient x y a
  end.

(** The loop of [magnetic_direction]: the running field [(Bx, By, Bz)]. *)
Definition add_perturbation (x y : R) (B : Vec3) (anom : Anomaly) : Vec3 :=
  let d := anomaly_perturbation x y anom in
  mkVec3 (vx B + vx d) (vy B + vy d) (vz B + vz d).

Definition field_of (B : Vec3) : FieldResult :=
  let B_h := sqrt (vx B * vx B + vy B * vy B) in
  let dir := atan2 (vy B) (vx B) in
  let local_incl := atan2 (vz B) B_h in
  mkField dir B_h local_incl.

Definition background (l : t) : Vec3 :=
  mkVec3 (B_horizontal_ l * cos (declination_ l))
         (B_horizontal_ l * sin (declination_ l))
         (B_vertical_ l).

Definition magnetic_direction (l : t) (x y : R) : FieldResult :=
  field_of (fold_left (add_perturbation x y) (anomalies_ l) (background l)).

Definition direction_deviation (l : t) (x y : R) : R :=
  wrap_pi (direction (magnetic_direction l x y) - declination_ l).

Definition in_bounds (l : t) (x y : R) : bool :=
  Rleb 0 x && Rleb x (width_ l) && Rleb 0 y && Rleb y (height_ l).

(** *** The perturbations with checked division *)

Definition perturbation_gaussian_chk (x y : R) (a : GaussianAnomaly)
  : option Vec3 :=
  let dx := x - g_px a in
  let dy := y - g_py a in
  let r := sqrt (dx * dx + dy * dy) in
  if Rle_dec (3 * g_radius a) r then Some zero3 else
  q1 <-? fdiv r (g_radius a) ;;
  q2 <-? fdiv r (g_radius a) ;;
  let envelope := g_strength a * exp (-0.5 * q1 * q2) in
  if Rlt_dec r 1e-6 then Some zero3 else
  bx <-? fdiv (envelope * dx) r ;;
  by_ <-? fdiv (envelope * dy) r ;;
  Some (mkVec3 bx by_ 0).

Definition perturbation_dipole_chk (x y : R) (a : DipoleAnomaly)
  : option Vec3 :=
  let dx := x - d_px a in
  let dy := y - d_py a in
  let rho2 := dx * dx + dy * dy in
  let R2 := rho2 + d_depth a * d_depth a in
  let R5 := cpow R2 2.5 in
  let alpha := d_strength a * cpow 5 2.5 * (d_depth a) ^ 3 / 48 in
  dBx <-? fdiv (alpha * 3 * d_depth a * dx) R5 ;;
  dBy <-? fdiv (alpha * 3 * d_depth a * dy) R5 ;;
  dBz <-? fdiv (alpha * (2 * d_depth a * d_depth a - rho2)) R5 ;;
  Some (mkVec3 dBx dBy dBz).

Definition perturbation_fault_chk (x y : R) (a : FaultAnomaly)
  : option Vec3 :=
  let d_perp := (x - f_px a) * sin (f_azimuth a)
                - (y - f_py a) * cos (f_azimuth a) in
  q <-? fdiv d_perp (f_width a) ;;
  let profile := tanh q in
  let dBx := (f_contrast a / 2) * profile * sin (f_azimuth a) in
  let dBy := - (f_contrast a / 2) * profile * cos (f_azimuth a) in
  Some (mkVec3 dBx dBy 0).

End Landscape.

(** ** <random>: the generator and the distributions the sources use *)

(** [rng] is the state of a [std::mt19937]; [normal_distribution] the state
    of one [std::normal_distribution<double>] object (its parameters and
    whatever it keeps between two calls).  Every draw returns the new
    states: nothing is drawn behind the model's back. *)
Class RandomSource := {
  rng : Type;
  mt19937 : N -> rng;
  normal_distribution : Type;
  normal_new : R -> R -> normal_distribution;
  normal_draw : normal_distribution -> rng -> R * normal_distribution * rng;
  uniform_real : R -> R -> rng -> R * rng;
  uniform_int : Z -> Z -> rng -> Z * rng
}.

(** [n] successive calls of one distribution object on the generator. *)
Fixpoint normal_draws `{RandomSource} (n : nat) (d : normal_distribution)
  (g : rng) : list R * normal_distribution * rng :=
  match n with
  | O => ([], d, g)
  | S n' =>
      let '(v, d1, g1) := normal_draw d g in
      let '(vs, d2, g2) := normal_draws n' d1 g1 in
      (v :: vs, d2, g2)
  end.

(** Arrays updated in place: [l[i] = f l[i]] (nothing out of range). *)
Fixpoint upd {A} (i : nat) (f : A -> A) (l : list A) : list A :=
  match l, i with
  | [], _ => []
  | a :: l', O => f a :: l'
  | a :: l', S i' => a :: upd i' f l'
  end.

Definition TWO_PI : R := 2 * PI.

(** ** compass.hpp *)

Module Compass.

Definition singlet_yield (alpha contrast mean_yield : R) : R :=
  let delta := contrast * mean_yield in
  mean_yield + 0.5 * delta * (1 + cos (2 * alpha)).

Record t := mkCompass
  { n_cry_ : nat; contrast_ : R; mean_yield_ : R; sigma_sensor_ : R;
    phi_ : list R; assignments_ : list nat; channel_counts_ : list nat }.

Section Channels.
Variable N_CHANNELS : nat.

Definition centres : list R :=
  map (fun c => TWO_PI * INR c / INR N_CHANNELS) (seq 0 N_CHANNELS).

(** The inner loop of [init_molecules]: the running [(best_dist, best_c)]. *)
Definition nearer (p : R) (best : R * nat) (c : nat) : R * nat :=
  let diff := wrap_pi (p - nth c centres 0) in
  let d := Rabs diff in
  if Rlt_dec d (fst best) then (d, c) else best.

Definition nearest (p : R) : nat :=
  snd (fold_left (nearer p) (seq 0 N_CHANNELS) (1e30, 0%nat)).

Definition init_molecules (n_cry : nat) : list R * list nat * list nat :=
  let phi := map (fun k => TWO_PI * INR k / INR n_cry) (seq 0 n_cry) in
  let assignments := map nearest phi in
  let counts :=
    fold_left (fun cnt best_c => upd best_c S cnt) assignments
              (repeat 0%nat N_CHANNELS) in
  (phi, assignments, counts).

(** The constructor with a borrowed generator: it draws nothing. *)
Definition make (n_cry : nat) (contrast mean_yield sigma_sensor : R) : t :=
  let '(phi, assignments, counts) := init_molecules n_cry in
  mkCompass n_cry contrast mean_yield sigma_sensor phi assignments counts.

(** The division loop at the end of [read]. *)
Definition average (counts : list nat) (sums : list R) : list R :=
  map (fun c => if (0 <? nth c counts 0)%nat
                then nth c sums 0 / INR (nth c counts 0%nat)
                else 0)
      (seq 0 N_CHANNELS).

(** The same loop with the quotient checked. *)
Fixpoint average_chk_from (cs : list nat) (counts : list nat) (sums : list R)
  : option (list R) :=
  match cs with
  | [] => Some []
  | c :: cs' =>
      v <-? (if (0 <? nth c counts 0)%nat
             then fdiv (nth c sums 0) (INR (nth c counts 0%nat))
             else Some 0) ;;
      vs <-? average_chk_from cs' counts sums ;;
      Some (v :: vs)
  end.

Definition average_chk (counts : list nat) (sums : list R) : option (list R) :=
  average_chk_from (seq 0 N_CHANNELS) counts sums.

(** [read] once the noise of every unit is given: unit [k] adds
    [singlet_yield + noise k] to the sum of its channel. *)
Definition add_yield (s : t) (heading : R) (sums : list R) (kn : nat * R)
  : list R :=
  let alpha := heading - nth (fst kn) (phi_ s) 0 in
  let y := singlet_yield alpha (contrast_ s) (mean_yield_ s) in
  upd (nth (fst kn) (assignments_ s) 0%nat) (fun v => v + (y + snd kn)) sums.

Definition read_with (s : t) (heading : R) (noise : list R) : list R :=
  average (channel_counts_ s)
          (fold_left (add_yield s heading)
                     (combine (seq 0 (n_cry_ s)) noise)
                     (repeat 0 N_CHANNELS)).

(** The units assigned to channel [c], and the mean of their yields. *)
Definition members (s : t) (c : nat) : list nat :=
  filter (fun k => (nth k (assignments_ s) 0 =? c)%nat) (seq 0 (n_cry_ s)).

Definition Rsum (l : list R) : R := fold_right Rplus 0 l.

Definition channel_mean (s : t) (heading : R) (c : nat) : R :=
  Rsum (map (fun k => singlet_yield (heading - nth k (phi_ s) 0)
                                    (contrast_ s) (mean_yield_ s))
            (members s c))
  / INR (length (members s c)).

Context `{RandomSource}.

(** One iteration of the first loop of [read]. *)
Definition read_unit (s : t) (heading : R)
  (st : list R * normal_distribution * rng) (k : nat)
  : list R * normal_distribution * rng :=
  let '(sums, noise_dist, g) := st in
  let alpha := heading - nth k (phi_ s) 0 in
  let y := singlet_yield alpha (contrast_ s) (mean_yield_ s) in
  let '(y', noise_dist', g') :=
    if Rlt_dec 0 (sigma_sensor_ s)
    then let '(nz, d', g') := normal_draw noise_dist g in (y + nz, d', g')
    else (y, noise_dist, g) in
  (upd (nth k (assignments_ s) 0%nat) (fun v => v + y') sums, noise_dist', g').

Definition read_sums (s : t) (heading : R) (g : rng) : list R * rng :=
  let noise_dist := normal_new 0 (sigma_sensor_ s) in
  let '(sums, _, g') :=
    fold_left (read_unit s heading) (seq 0 (n_cry_ s))
              (repeat 0 N_CHANNELS, noise_dist, g) in
  (sums, g').

Definition read (s : t) (heading : R) (g : rng) : list R * rng :=
  let '(sums, g') := read_sums s heading g in
  (average (channel_counts_ s) sums, g').

Definition read_chk (s : t) (heading : R) (g : rng) : option (list R) * rng :=
  let '(sums, g') := read_sums s heading g in
  (average_chk (channel_counts_ s) sums, g').

End Channels.

End Compass.

(** ** ring_attractor.hpp *)

Module Ring.

(** [std::complex<double>] as a pair; [polar a] is [exp (i a)]. *)
Definition complex : Type := R * R.
Definition polar (a : R) : complex := (cos a, sin a).
Definition cadd_scaled (z : complex) (c : R) (w : complex) : complex :=
  (fst z + c * fst w, snd z + c * snd w).
Definition cabs (z : complex) : R := sqrt (fst z * fst z + snd z * snd z).
Definition carg (z : complex) : R := atan2 (snd z) (fst z).

Record t := mkRing
  { tau_ : R; w_exc_ : R; w_inh_ : R; g_mag_ : R; g_omega_ : R;
    threshold_ : R; r_max_ : R; noise_sigma_ : R;
    theta_ : list R; W_exc_ : list (list R); r_ : list R }.

Definition set_r (a : t) (r : list R) : t :=
  mkRing (tau_ a) (w_exc_ a) (w_inh_ a) (g_mag_ a) (g_omega_ a)
         (threshold_ a) (r_max_ a) (noise_sigma_ a)
         (theta_ a) (W_exc_ a) r.

Section Units.
Variable N : nat.

Definition init_theta : list R :=
  map (fun i => 2 * PI * INR i / INR N) (seq 0 N).

Definition init_W (w_exc : R) (theta : list R) : list (list R) :=
  map (fun i =>
         map (fun j =>
                let d := nth i theta 0 - nth j theta 0 in
                w_exc * fmax 0 (cos d))
             (seq 0 N))
      (seq 0 N).

(** [(i - 1 + N) % N] and [(i + 1) % N]. *)
Definition prev_unit (i : nat) : nat := ((i + N - 1) mod N)%nat.
Definition next_unit (i : nat) : nat := ((i + 1) mod N)%nat.

(** The loop of [heading]: [z += r_[i] * exp (i theta_[i])]. *)
Definition population_vector (a : t) : complex :=
  fold_left (fun z i => cadd_scaled z (nth i (r_ a) 0)
                                    (polar (nth i (theta_ a) 0)))
            (seq 0 N) (0, 0).

Definition heading (a : t) : R :=
  let z := population_vector a in
  if Rlt_dec (cabs z) 1e-10 then 0 else
  let h := carg z in
  if Rlt_dec h 0 then h + 2 * PI else h.

(** [*std::max_element] and [*std::min_element]. *)
Definition max_element (l : list R) : R :=
  fold_left (fun m v => if Rlt_dec m v then v else m) (tl l) (hd 0 l).
Definition min_element (l : list R) : R :=
  fold_left (fun m v => if Rlt_dec v m then v else m) (tl l) (hd 0 l).

Definition bump_amplitude (a : t) : R :=
  max_element (r_ a) - min_element (r_ a).

(** The drive of unit [i] and its new rate: the last loop of [step]. *)
Definition update_rate (a : t) (dt : R) (exc : list R) (inh : R)
  (I_mag I_omega noise : list R) (i : nat) : R :=
  let drive := nth i exc 0 - inh + nth i I_mag 0 + nth i I_omega 0
               - threshold_ a + nth i noise 0 in
  let activated := clamp drive 0 (r_max_ a) in
  let dr := (- nth i (r_ a) 0 + activated) / tau_ a in
  clamp (nth i (r_ a) 0 + dr * dt) 0 (r_max_ a).

Definition excitation (a : t) : list R :=
  map (fun i =>
         fold_left (fun s j => s + nth j (nth i (W_exc_ a) []) 0
                                   * nth j (r_ a) 0)
                   (seq 0 N) 0)
      (seq 0 N).

Definition inhibition (a : t) : R :=
  let mean_r := fold_left (fun s i => s + nth i (r_ a) 0) (seq 0 N) 0 in
  w_inh_ a * (mean_r / INR N).

Definition bump_gradient (a : t) (i : nat) : R :=
  nth (prev_unit i) (r_ a) 0 - nth (next_unit i) (r_ a) 0.

Definition magnetic_input (a : t) (compass_input : option (list R)) : list R :=
  match compass_input with
  | None => repeat 0 N
  | Some ci =>
      let mean_c := fold_left (fun s i => s + nth i ci 0) (seq 0 N) 0 / INR N in
      let z_compass :=
        fold_left
          (fun z i => cadd_scaled z (nth i ci 0 - mean_c)
                                  (polar (2 * nth i (theta_ a) 0)))
          (seq 0 N) (0, 0) in
      if Rlt_dec 1e-10 (cabs z_compass) then
        let double_heading := carg z_compass in
        let double_bump := 2 * heading a in
        let error := carg (polar (double_heading - double_bump)) / 2 in
        map (fun i => g_mag_ a * error * bump_gradient a i) (seq 0 N)
      else repeat 0 N
  end.

Definition omega_input (a : t) (angular_velocity : R) : list R :=
  if Req_dec_T angular_velocity 0 then repeat 0 N
  else map (fun i => g_omega_ a * angular_velocity * bump_gradient a i)
           (seq 0 N).

(** [step] once the noise array is filled. *)
Definition step_with (a : t) (dt : R) (compass_input : option (list R))
  (angular_velocity : R) (noise : list R) : t :=
  let exc := excitation a in
  let inh := inhibition a in
  let I_mag := magnetic_input a compass_input in
  let I_omega := omega_input a angular_velocity in
  set_r a (map (update_rate a dt exc inh I_mag I_omega noise) (seq 0 N)).

(** The cosine bump of [reset] with [heading >= 0]. *)
Definition cosine_bump (a : t) (h : R) : list R :=
  map (fun i => fmax 0 (0.5 * cos (wrap_pi (nth i (theta_ a) 0 - h))))
      (seq 0 N).

Context `{RandomSource}.

Definition neural_noise (a : t) (g : rng) : list R * rng :=
  if Rlt_dec 0 (noise_sigma_ a) then
    let '(nz, _, g') := normal_draws N (normal_new 0 (noise_sigma_ a)) g in
    (nz, g')
  else (repeat 0 N, g).

Definition step (a : t) (dt : R) (compass_input : option (list R))
  (angular_velocity : R) (g : rng) : t * rng :=
  let '(noise, g') := neural_noise a g in
  (step_with a dt compass_input angular_velocity noise, g').

Definition init_bump (a : t) (g : rng) : t * rng :=
  let '(idx, g') := uniform_int 0 (Z.of_nat N - 1) g in
  (set_r a (map (fun i =>
                   let d := Z.abs (Z.of_nat i - idx) in
                   let d := Z.min d (Z.of_nat N - d) in
                   fmax 0 (0.5 - 0.15 * IZR d))
                (seq 0 N)),
   g').

Definition reset (a : t) (h : R) (g : rng) : t * rng :=
  let a0 := set_r a (repeat 0 N) in
  if Rle_dec 0 h then (set_r a0 (cosine_bump a0 h), g)
  else init_bump a0 g.

(** The constructor with a borrowed generator: [init_bump] draws from it. *)
Definition make (tau w_exc w_inh g_mag g_omega threshold r_max noise_sigma : R)
  (g : rng) : t * rng :=
  let theta := init_theta in
  let a := mkRing tau w_exc w_inh g_mag g_omega threshold r_max noise_sigma
                  theta (init_W w_exc theta) (repeat 0 N) in
  init_bump a g.

(** [n] calls [step (dt)]: no compass input, zero angular velocity. *)
Fixpoint idle_steps (n : nat) (a : t) (dt : R) (g : rng) : t * rng :=
  match n with
  | O => (a, g)
  | S n' => let '(a', g') := step a dt None 0 g in idle_steps n' a' dt g'
  end.

End Units.

(** *** Vocabulary for the statements about eight units *)

(** The estimator as [Bug] builds it by default: threshold 0, [r_max] 1,
    [w_exc] 1.5, [w_inh] 4.5, no neural noise, any time constant. *)
Definition configured (a : t) : Prop :=
  theta_ a = init_theta 8
  /\ W_exc_ a = init_W 8 1.5 (init_theta 8)
  /\ w_inh_ a = 4.5 /\ threshold_ a = 0 /\ r_max_ a = 1
  /\ noise_sigma_ a = 0 /\ 0 < tau_ a.

(** A bump centred between unit 0 and unit 1: rate [p] on both, rate [q]
    on their outer neighbours, nothing elsewhere. *)
Definition bump_0_1 (a : t) (p q : R) : Prop :=
  r_ a = [p; p; q; 0; 0; 0; 0; q] /\ 0.35 <= p <= 1 /\ 0 <= q <= p.

(** A bump that leans from unit 0 towards unit 1: the rates of units
    0, 1, 7, 2 in decreasing order, nothing on units 3 to 6. *)
Definition bump_leaning (a : t) (r0 r1 r2 r7 : R) : Prop :=
  r_ a = [r0; r1; r2; 0; 0; 0; 0; r7]
  /\ 0 <= r2 /\ r2 <= r7 /\ r7 <= r1 /\ r1 <= r0 /\ r0 <= 1.

(** The same bump, alive: unit 0 well above the decoding threshold and
    unit 1 not negligible beside it. *)
Definition leaning_rates (r : list R) : Prop :=
  exists r0 r1 r2 r7,
    r = [r0; r1; r2; 0; 0; 0; 0; r7]
    /\ 0 <= r2 /\ r2 <= r7 /\ r7 <= r1 /\ r1 <= r0 /\ r0 <= 1
    /\ 0.35 <= r0 /\ 0.16 * r0 <= r1.

(** The symmetries of the ring of eight units: the shift by one unit and
    the mirror image about unit 0. *)
Definition rot (r : list R) : list R :=
  match r with
  | [r0; r1; r2; r3; r4; r5; r6; r7] => [r7; r0; r1; r2; r3; r4; r5; r6]
  | _ => r
  end.

Definition mirror (r : list R) : list R :=
  match r with
  | [r0; r1; r2; r3; r4; r5; r6; r7] => [r0; r7; r6; r5; r4; r3; r2; r1]
  | _ => r
  end.

Fixpoint rots (j : nat) (r : list R) : list R :=
  match j with
  | O => r
  | S j' => rot (rots j' r)
  end.

(** The rates one idle step ([step (dt)] without input or noise) makes of
    the rates [r], and [n] such steps. *)
Definition idle_rates (a : t) (dt : R) (r : list R) : list R :=
  r_ (step_with 8 (set_r a r) dt None 0 (repeat 0 8)).

Fixpoint idle_rates_n (n : nat) (a : t) (dt : R) (r : list R) : list R :=
  match n with
  | O => r
  | S n' => idle_rates_n n' a dt (idle_rates a dt r)
  end.

(** A caller's use of the estimator: one [step] per entry of [inputs],
    each with its own [dt], compass input (or none) and angular
    velocity. *)
Definition steps_with_inputs `{RandomSource} (N : nat)
  (inputs : list (R * option (list R) * R)) (a : t) (g : rng) : t * rng :=
  fold_left (fun st inp =>
               let '(dt, compass_input, angular_velocity) := inp in
               step N (fst st) dt compass_input angular_velocity (snd st))
            inputs (a, g).

End Ring.

(** ** path_integration.hpp *)

Module Cpu4.

Record t := mkCpu4
  { leak_ : R; gain_ : R; phi_ : list R; memory_ : list R }.

Record HomeVector := mkHome { distance : R; home_direction : R }.

Section Units.
Variable N : nat.

Definition make (leak gain : R) : t :=
  mkCpu4 leak gain
         (map (fun i => 2 * PI * INR i / INR N) (seq 0 N))
         (repeat 0 N).

Definition update_unit (c : t) (heading speed dt : R) (i : nat) : R :=
  let cos_val := cos (heading - nth i (phi_ c) 0) in
  let drive := gain_ c * speed * fmax cos_val 0 in
  let m := if Rlt_dec 0 (leak_ c)
           then nth i (memory_ c) 0 * (1 - leak_ c * dt)
           else nth i (memory_ c) 0 in
  m + drive * dt.

Definition update (c : t) (heading speed dt : R) : t :=
  mkCpu4 (leak_ c) (gain_ c) (phi_ c)
         (map (update_unit c heading speed dt) (seq 0 N)).

Definition displacement (c : t) : R * R :=
  fold_left
    (fun d i => (fst d + nth i (memory_ c) 0 * cos (nth i (phi_ c) 0),
                 snd d + nth i (memory_ c) 0 * sin (nth i (phi_ c) 0)))
    (seq 0 N) (0, 0).

Definition home_vector (c : t) : HomeVector :=
  let '(dx, dy) := displacement c in
  let dist := sqrt (dx * dx + dy * dy) in
  let home_dir := atan2 (- dy) (- dx) in
  mkHome dist home_dir.

Definition reset (c : t) : t :=
  mkCpu4 (leak_ c) (gain_ c) (phi_ c) (repeat 0 N).

(** [n] calls of [update] with the same arguments. *)
Fixpoint updates (n : nat) (c : t) (heading speed dt : R) : t :=
  match n with
  | O => c
  | S n' => updates n' (update c heading speed dt) heading speed dt
  end.

(** A caller's use of the integrator: one [update] per leg
    [(heading, speed, dt)], in order. *)
Fixpoint walk (legs : list (R * R * R)) (c : t) : t :=
  match legs with
  | [] => c
  | (heading, speed, dt) :: rest => walk rest (update c heading speed dt)
  end.

End Units.

(** The path the legs describe: [speed * dt] along the direction
    [heading], leg after leg, from the origin. *)
Fixpoint travelled (legs : list (R * R * R)) : R * R :=
  match legs with
  | [] => (0, 0)
  | (heading, speed, dt) :: rest =>
      (speed * cos heading * dt + fst (travelled rest),
       speed * sin heading * dt + snd (travelled rest))
  end.

End Cpu4.

(** ** bug.hpp *)

Module Agent.

Record BugState := mkState
  { bs_x : R; bs_y : R; bs_heading : R;
    bs_estimated_heading : R; bs_bump_amplitude : R }.

(** [n_cry] is an [int] in the source; a negative value makes the sensor's
    constructor throw (its [resize]), so only natural numbers reach the
    code modelled here.  [seed] is an [unsigned int]. *)
Record BugParams := mkParams
  { x0 : R; y0 : R; heading0 : R; goal_heading : R;
    speed : R; kappa : R; sigma_theta : R; sigma_xy : R;
    n_cry : nat; contrast : R; mean_yield : R; sigma_sensor : R;
    ra_tau : R; ra_w_exc : R; ra_w_inh : R; ra_g_mag : R;
    ra_g_omega : R; ra_noise_sigma : R;
    cpu4_leak : R; cpu4_gain : R;
    seed : N }.

(** [BugParams{}]: the default member initialisers. *)
Definition default_params : BugParams :=
  {| x0 := 500; y0 := 100; heading0 := -1; goal_heading := 3 * PI / 4;
     speed := 1; kappa := 2; sigma_theta := 0.1; sigma_xy := 0.05;
     n_cry := 1000; contrast := 0.15; mean_yield := 0.5;
     sigma_sensor := 0.02;
     ra_tau := 0.05; ra_w_exc := 1.5; ra_w_inh := 4.5; ra_g_mag := 2;
     ra_g_omega := 0.5; ra_noise_sigma := 0.01;
     cpu4_leak := 0; cpu4_gain := 1;
     seed := 0 |}.

Section WithRandom.
Context `{RandomSource}.

Record t := mkBug
  { params_ : BugParams;
    rng_ : rng;
    x_ : R; y_ : R; heading_ : R;
    speed_ : R; goal_heading_ : R; kappa_ : R;
    sigma_theta_ : R; sigma_xy_ : R;
    compass_ : Compass.t;
    attractor_ : Ring.t;
    cpu4_ : Cpu4.t;
    history_ : list BugState }.

(** The constructor.  [entropy] is what [std::random_device{}()] returns;
    it is read only when [seed] is 0. *)
Definition make (p : BugParams) (entropy : N) : t :=
  let g0 := if (seed p =? 0)%N then mt19937 entropy else mt19937 (seed p) in
  let '(heading, g1) :=
    if Rle_dec 0 (heading0 p) then (heading0 p, g0)
    else uniform_real 0 (2 * PI) g0 in
  let compass :=
    Compass.make 8 (n_cry p) (contrast p) (mean_yield p) (sigma_sensor p) in
  let '(attractor0, g2) :=
    Ring.make 8 (ra_tau p) (ra_w_exc p) (ra_w_inh p) (ra_g_mag p)
              (ra_g_omega p) 0 1 (ra_noise_sigma p) g1 in
  let cpu4 := Cpu4.make 8 (cpu4_leak p) (cpu4_gain p) in
  let '(attractor, g3) := Ring.reset 8 attractor0 heading g2 in
  mkBug p g3 (x0 p) (y0 p) heading (speed p) (goal_heading p) (kappa p)
        (sigma_theta p) (sigma_xy p) compass attractor cpu4
        [mkState (x0 p) (y0 p) heading
                 (Ring.heading 8 attractor) (Ring.bump_amplitude attractor)].

(** [heading_ = fmod (heading_, 2 pi); if (heading_ < 0) heading_ += 2 pi]. *)
Definition wrap_heading (h : R) : R :=
  let h' := fmod h (2 * PI) in
  if Rlt_dec h' 0 then h' + 2 * PI else h'.

Definition step (dt : R) (landscape : Landscape.t) (b : t) : bool * t :=
  (* 1. Read local magnetic field *)
  let mag_dir :=
    Landscape.direction (Landscape.magnetic_direction landscape (x_ b) (y_ b)) in
  (* 2. Heading relative to local field *)
  let relative_heading := heading_ b - mag_dir in
  (* 3. Read compass sensor *)
  let '(compass_signal, g1) :=
    Compass.read 8 (compass_ b) relative_heading (rng_ b) in
  (* 4. Compute steering command *)
  let estimated_heading := Ring.heading 8 (attractor_ b) + mag_dir in
  let heading_error := goal_heading_ b - estimated_heading in
  let angular_command := kappa_ b * sin heading_error in
  (* 5. Update ring attractor *)
  let '(attractor, g2) :=
    Ring.step 8 (attractor_ b) dt (Some compass_signal) angular_command g1 in
  (* 6. Update path integrator *)
  let cpu4 := Cpu4.update 8 (cpu4_ b) (Ring.heading 8 attractor) (speed_ b) dt in
  (* 7. Steer: update heading *)
  let normal := normal_new 0 1 in
  let '(eta_theta, normal1, g3) := normal_draw normal g2 in
  let noise_theta := sigma_theta_ b * sqrt dt * eta_theta in
  let heading := wrap_heading (heading_ b + (angular_command * dt + noise_theta)) in
  (* 8. Move: update position *)
  let '(eta_x, normal2, g4) := normal_draw normal1 g3 in
  let noise_x := sigma_xy_ b * sqrt dt * eta_x in
  let '(eta_y, normal3, g5) := normal_draw normal2 g4 in
  let noise_y := sigma_xy_ b * sqrt dt * eta_y in
  let x := x_ b + (speed_ b * cos heading * dt + noise_x) in
  let y := y_ b + (speed_ b * sin heading * dt + noise_y) in
  (* 9. Record history *)
  let est_h := Ring.heading 8 attractor + mag_dir in
  (Landscape.in_bounds landscape x y,
   mkBug (params_ b) g5 x y heading (speed_ b) (goal_heading_ b) (kappa_ b)
         (sigma_theta_ b) (sigma_xy_ b) (compass_ b) attractor cpu4
         (history_ b ++ [mkState x y heading est_h
                                 (Ring.bump_amplitude attractor)])).

(** The loop of [run]: [n_steps] iterations, left at the first [false]. *)
Fixpoint run_loop (n_steps : nat) (dt : R) (landscape : Landscape.t) (b : t)
  : bool * t :=
  match n_steps with
  | O => (true, b)
  | S n =>
      let '(ok, b') := step dt landscape b in
      if ok then run_loop n dt landscape b' else (false, b')
  end.

(** [run]: [n_steps = static_cast<int> (duration / dt)]; a negative count
    runs the loop zero times.  (A quotient outside the range of [int] is
    undefined in C++ and is not singled out here.) *)
Definition run (landscape : Landscape.t) (duration dt : R) (b : t) : bool * t :=
  run_loop (Z.to_nat (Ztrunc (duration / dt))) dt landscape b.

Definition distance_from_start (b : t) : R :=
  let h0 := hd (mkState 0 0 0 0 0) (history_ b) in
  let dx := x_ b - bs_x h0 in
  let dy := y_ b - bs_y h0 in
  sqrt (dx * dx + dy * dy).

Definition mean_heading_error (b : t) : R :=
  fold_left (fun sum s => sum + Rabs (wrap_pi (bs_heading s - goal_heading_ b)))
            (history_ b) 0
  / INR (length (history_ b)).

(** *** Vocabulary for the statements *)

(** [n] calls of [step], whatever they return. *)
Fixpoint steps (n : nat) (dt : R) (landscape : Landscape.t) (b : t) : t :=
  match n with
  | O => b
  | S n' => steps n' dt landscape (snd (step dt landscape b))
  end.

(** A caller's use of the agent: a sequence of [step] and [run] calls. *)
Inductive call :=
| Step (dt : R) (landscape : Landscape.t)
| Run (landscape : Landscape.t) (duration dt : R).

Definition do_call (c : call) (b : t) : t :=
  match c with
  | Step dt l => snd (step dt l b)
  | Run l duration dt => snd (run l duration dt b)
  end.

(** The number of [step] executions inside [run_loop]. *)
Fixpoint run_loop_steps (n_steps : nat) (dt : R) (landscape : Landscape.t)
  (b : t) : nat :=
  match n_steps with
  | O => O
  | S n =>
      let '(ok, b') := step dt landscape b in
      if ok then S (run_loop_steps n dt landscape b') else 1%nat
  end.

Definition steps_of_call (c : call) (b : t) : nat :=
  match c with
  | Step _ _ => 1%nat
  | Run l duration dt =>
      run_loop_steps (Z.to_nat (Ztrunc (duration / dt))) dt l b
  end.

Fixpoint do_calls (cs : list call) (b : t) : t :=
  match cs with
  | [] => b
  | c :: cs' => do_calls cs' (do_call c b)
  end.

Fixpoint steps_taken (cs : list call) (b : t) : nat :=
  match cs with
  | [] => O
  | c :: cs' => (steps_of_call c b + steps_taken cs' (do_call c b))%nat
  end.

(** The snapshot [step] appends to the history: the state [b'] it has
    just written, in the frame of the field read at the old position. *)
Definition snapshot (l : Landscape.t) (b b' : t) : BugState :=
  mkState (x_ b') (y_ b') (heading_ b')
          (Ring.heading 8 (attractor_ b')
           + Landscape.direction
               (Landscape.magnetic_direction l (x_ b) (y_ b)))
          (Ring.bump_amplitude (attractor_ b')).

(** *** The draws of one step, in the order the specification fixes *)

Record StepNoise := mkNoise
  { compass_noise : list R;      (* one value per sensing unit, if any *)
    estimator_noise : list R;    (* one value per ring unit *)
    eta_theta : R; eta_x : R; eta_y : R }.

(** Compass per-unit noise (if any), estimator per-unit noise, heading
    noise, position-x noise, position-y noise: five groups of draws on the
    one generator, each from its own distribution object. *)
Definition draw_step_noise (b : t) (g : rng) : StepNoise * rng :=
  let '(nc, g1) :=
    if Rlt_dec 0 (Compass.sigma_sensor_ (compass_ b)) then
      let '(v, _, g') :=
        normal_draws (Compass.n_cry_ (compass_ b))
                     (normal_new 0 (Compass.sigma_sensor_ (compass_ b))) g in
      (v, g')
    else (repeat 0 (Compass.n_cry_ (compass_ b)), g) in
  let '(ne, g2) :=
    if Rlt_dec 0 (Ring.noise_sigma_ (attractor_ b)) then
      let '(v, _, g') :=
        normal_draws 8 (normal_new 0 (Ring.noise_sigma_ (attractor_ b))) g1 in
      (v, g')
    else (repeat 0 8%nat, g1) in
  let '(e_theta, normal1, g3) := normal_draw (normal_new 0 1) g2 in
  let '(e_x, normal2, g4) := normal_draw normal1 g3 in
  let '(e_y, _, g5) := normal_draw normal2 g4 in
  (mkNoise nc ne e_theta e_x e_y, g5).

(** One step as a function of the state and of the values drawn. *)
Definition step_given (dt : R) (landscape : Landscape.t) (b : t)
  (nz : StepNoise) (g' : rng) : bool * t :=
  let mag_dir :=
    Landscape.direction (Landscape.magnetic_direction landscape (x_ b) (y_ b)) in
  let compass_signal :=
    Compass.read_with 8 (compass_ b) (heading_ b - mag_dir) (compass_noise nz) in
  let angular_command :=
    kappa_ b * sin (goal_heading_ b - (Ring.heading 8 (attractor_ b) + mag_dir)) in
  let attractor :=
    Ring.step_with 8 (attractor_ b) dt (Some compass_signal) angular_command
                   (estimator_noise nz) in
  let cpu4 := Cpu4.update 8 (cpu4_ b) (Ring.heading 8 attractor) (speed_ b) dt in
  let heading :=
    wrap_heading (heading_ b + (angular_command * dt
                                + sigma_theta_ b * sqrt dt * eta_theta nz)) in
  let x := x_ b + (speed_ b * cos heading * dt
                   + sigma_xy_ b * sqrt dt * eta_x nz) in
  let y := y_ b + (speed_ b * sin heading * dt
                   + sigma_xy_ b * sqrt dt * eta_y nz) in
  (Landscape.in_bounds landscape x y,
   mkBug (params_ b) g' x y heading (speed_ b) (goal_heading_ b) (kappa_ b)
         (sigma_theta_ b) (sigma_xy_ b) (compass_ b) attractor cpu4
         (history_ b ++ [mkState x y heading
                                 (Ring.heading 8 attractor + mag_dir)
                                 (Ring.bump_amplitude attractor)])).

End WithRandom.

End Agent.

(** ** gdext: the Godot bindings *)

(** [landscape_resource.cpp] and [bug_node.cpp] wrap a [Landscape] and a
    [Bug] as a Godot resource and a Godot node.  Of the engine only what
    these two classes store is modelled: the position and the rotation of
    the node (Godot's [real_t] is a real number here, like [double]), and
    the height the physics query returns at a point, which is a parameter.
    [UtilityFunctions::print] writes to the engine's console and is left
    out. *)
Module Godot.

Record LandscapeResource := mkResource
  { B0_ : R; declination_ : R; inclination_deg_ : R;
    sim_width_ : R; sim_height_ : R;
    landscape_ : Landscape.t }.

(** [rebuild]: a new [Landscape] from the five properties. *)
Definition rebuild (r : LandscapeResource) : LandscapeResource :=
  mkResource (B0_ r) (declination_ r) (inclination_deg_ r)
             (sim_width_ r) (sim_height_ r)
             (Landscape.make (sim_width_ r) (sim_height_ r) (B0_ r)
                             (declination_ r)
                             (inclination_deg_ r * PI / 180)).

(** The constructor: the default member initialisers, then the
    landscape. *)
Definition new_resource : LandscapeResource :=
  mkResource 50 0 65 1000 1000
             (Landscape.make 1000 1000 50 0 (65 * PI / 180)).

Definition set_B0 (p_B0 : R) (r : LandscapeResource) : LandscapeResource :=
  rebuild (mkResource p_B0 (declination_ r) (inclination_deg_ r)
                      (sim_width_ r) (sim_height_ r) (landscape_ r)).

Definition set_declination (p_dec : R) (r : LandscapeResource)
  : LandscapeResource :=
  rebuild (mkResource (B0_ r) p_dec (inclination_deg_ r)
                      (sim_width_ r) (sim_height_ r) (landscape_ r)).

Definition set_inclination_deg (p_incl : R) (r : LandscapeResource)
  : LandscapeResource :=
  rebuild (mkResource (B0_ r) (declination_ r) p_incl
                      (sim_width_ r) (sim_height_ r) (landscape_ r)).

Definition set_sim_width (p_w : R) (r : LandscapeResource)
  : LandscapeResource :=
  rebuild (mkResource (B0_ r) (declination_ r) (inclination_deg_ r)
                      p_w (sim_height_ r) (landscape_ r)).

Definition set_sim_height (p_h : R) (r : LandscapeResource)
  : LandscapeResource :=
  rebuild (mkResource (B0_ r) (declination_ r) (inclination_deg_ r)
                      (sim_width_ r) p_h (landscape_ r)).

(** [get_landscape ()] returns a reference: a caller can change the
    landscape in place, for instance [get_landscape ().add_anomaly (a)]. *)
Definition through_get_landscape (f : Landscape.t -> Landscape.t)
  (r : LandscapeResource) : LandscapeResource :=
  mkResource (B0_ r) (declination_ r) (inclination_deg_ r)
             (sim_width_ r) (sim_height_ r) (f (landscape_ r)).

(** The calls that write a property of the resource. *)
Inductive property_write :=
| SetB0 (p : R)
| SetDeclination (p : R)
| SetInclinationDeg (p : R)
| SetSimWidth (p : R)
| SetSimHeight (p : R)
| Rebuild.

Definition write (w : property_write) (r : LandscapeResource)
  : LandscapeResource :=
  match w with
  | SetB0 p => set_B0 p r
  | SetDeclination p => set_declination p r
  | SetInclinationDeg p => set_inclination_deg p r
  | SetSimWidth p => set_sim_width p r
  | SetSimHeight p => set_sim_height p r
  | Rebuild => rebuild r
  end.

Record Vector3 := mkVector3 { vec_x : R; vec_y : R; vec_z : R }.

Definition SCALE_X : R := 18.87.
Definition SCALE_Y : R := 22.26.

Section Node.
Context `{RandomSource}.

(** What [query_terrain_height (gx, gz)] returns: the fallback height or
    the height of the ray hit, as the scene decides. *)
Variable query_terrain_height : R -> R -> R.

Record BugNode := mkNode
  { seed_ : Z;
    goal_heading_ : R; speed_ : R; kappa_ : R; contrast_ : R;
    sigma_theta_ : R; sigma_xy_ : R;
    steps_per_frame_ : Z;
    landscape_res_ : option LandscapeResource;
    bug_ : option Agent.t;
    running_ : bool;
    position : Vector3;
    rotation : Vector3 }.

(** The node as its constructor leaves it, at the origin of the scene. *)
Definition new_node : BugNode :=
  mkNode 42 (3 * 3.14159265358979323846 / 4) 1 2 0.15 0.1 0.05 10
         None None false (mkVector3 0 0 0) (mkVector3 0 0 0).

Definition set_landscape_resource (p_res : option LandscapeResource)
  (n : BugNode) : BugNode :=
  mkNode (seed_ n) (goal_heading_ n) (speed_ n) (kappa_ n) (contrast_ n)
         (sigma_theta_ n) (sigma_xy_ n) (steps_per_frame_ n)
         p_res (bug_ n) (running_ n) (position n) (rotation n).

Definition set_steps_per_frame (p_steps : Z) (n : BugNode) : BugNode :=
  mkNode (seed_ n) (goal_heading_ n) (speed_ n) (kappa_ n) (contrast_ n)
         (sigma_theta_ n) (sigma_xy_ n) p_steps
         (landscape_res_ n) (bug_ n) (running_ n) (position n) (rotation n).

Definition set_bug_state (n : BugNode) (bug : option Agent.t)
  (running : bool) (pos rot : Vector3) : BugNode :=
  mkNode (seed_ n) (goal_heading_ n) (speed_ n) (kappa_ n) (contrast_ n)
         (sigma_theta_ n) (sigma_xy_ n) (steps_per_frame_ n)
         (landscape_res_ n) bug running pos rot.

Definition sim_to_godot (sx sy : R) : Vector3 :=
  let gx := (sx - 500) * SCALE_X in
  let gz := - (sy - 500) * SCALE_Y in
  let gy := query_terrain_height gx gz in
  mkVector3 gx gy gz.

(** [rebuild_bug]: default parameters with the exported properties written
    over them; [static_cast<unsigned int> (seed_)] is [seed_] modulo
    2^32. *)
Definition rebuild_bug (entropy : N) (n : BugNode) : BugNode :=
  let d := Agent.default_params in
  let p :=
    Agent.mkParams
      (Agent.x0 d) (Agent.y0 d) (Agent.heading0 d) (goal_heading_ n)
      (speed_ n) (kappa_ n) (sigma_theta_ n) (sigma_xy_ n)
      (Agent.n_cry d) (contrast_ n) (Agent.mean_yield d)
      (Agent.sigma_sensor d)
      (Agent.ra_tau d) (Agent.ra_w_exc d) (Agent.ra_w_inh d)
      (Agent.ra_g_mag d) (Agent.ra_g_omega d) (Agent.ra_noise_sigma d)
      (Agent.cpu4_leak d) (Agent.cpu4_gain d)
      (Z.to_N (seed_ n mod 2 ^ 32)) in
  let bug := Agent.make p entropy in
  set_bug_state n (Some bug) false
                (sim_to_godot (Agent.x_ bug) (Agent.y_ bug)) (rotation n).

Definition _ready (entropy : N) (n : BugNode) : BugNode :=
  rebuild_bug entropy n.

(** The loop of [_physics_process]: up to [n_steps] steps, left at the
    first one that reports the bug out of bounds, with [running_] as it
    stands afterwards. *)
Fixpoint physics_loop (n_steps : nat) (dt : R) (landscape : Landscape.t)
  (bug : Agent.t) : bool * Agent.t :=
  match n_steps with
  | O => (true, bug)
  | S k =>
      let '(ok, bug') := Agent.step dt landscape bug in
      if negb ok then (false, bug') else physics_loop k dt landscape bug'
  end.

Definition _physics_process (delta : R) (n : BugNode) : BugNode :=
  if negb (running_ n) then n else
  match bug_ n, landscape_res_ n with
  | Some bug, Some res =>
      let dt := delta / IZR (steps_per_frame_ n) in
      let landscape := landscape_ res in
      let '(running, bug') :=
        physics_loop (Z.to_nat (steps_per_frame_ n)) dt landscape bug in
      let h := Agent.heading_ bug' in
      let yaw := - (h - PI / 2) in
      set_bug_state n (Some bug') running
                    (sim_to_godot (Agent.x_ bug') (Agent.y_ bug'))
                    (mkVector3 0 yaw 0)
  | _, _ => n
  end.

Definition start (entropy : N) (n : BugNode) : BugNode :=
  let n1 := match bug_ n with
            | None => rebuild_bug entropy n
            | Some _ => n
            end in
  set_bug_state n1 (bug_ n1) true (position n1) (rotation n1).

Definition stop (n : BugNode) : BugNode :=
  set_bug_state n (bug_ n) false (position n) (rotation n).

(** The setters of the seven properties [rebuild_bug] reads: each writes
    its field and nothing else. *)
Inductive node_write :=
| SetSeed (p : Z)
| SetGoalHeading (p : R)
| SetSpeed (p : R)
| SetKappa (p : R)
| SetContrast (p : R)
| SetSigmaTheta (p : R)
| SetSigmaXY (p : R).

Definition set_property (w : node_write) (n : BugNode) : BugNode :=
  match w with
  | SetSeed p =>
      mkNode p (goal_heading_ n) (speed_ n) (kappa_ n) (contrast_ n)
             (sigma_theta_ n) (sigma_xy_ n) (steps_per_frame_ n)
             (landscape_res_ n) (bug_ n) (running_ n) (position n)
             (rotation n)
  | SetGoalHeading p =>
      mkNode (seed_ n) p (speed_ n) (kappa_ n) (contrast_ n)
             (sigma_theta_ n) (sigma_xy_ n) (steps_per_frame_ n)
             (landscape_res_ n) (bug_ n) (running_ n) (position n)
             (rotation n)
  | SetSpeed p =>
      mkNode (seed_ n) (goal_heading_ n) p (kappa_ n) (contrast_ n)
             (sigma_theta_ n) (sigma_xy_ n) (steps_per_frame_ n)
             (landscape_res_ n) (bug_ n) (running_ n) (position n)
             (rotation n)
  | SetKappa p =>
      mkNode (seed_ n) (goal_heading_ n) (speed_ n) p (contrast_ n)
             (sigma_theta_ n) (sigma_xy_ n) (steps_per_frame_ n)
             (landscape_res_ n) (bug_ n) (running_ n) (position n)
             (rotation n)
  | SetContrast p =>
      mkNode (seed_ n) (goal_heading_ n) (speed_ n) (kappa_ n) p
             (sigma_theta_ n) (sigma_xy_ n) (steps_per_frame_ n)
             (landscape_res_ n) (bug_ n) (running_ n) (position n)
             (rotation n)
  | SetSigmaTheta p =>
      mkNode (seed_ n) (goal_heading_ n) (speed_ n) (kappa_ n) (contrast_ n)
             p (sigma_xy_ n) (steps_per_frame_ n)
             (landscape_res_ n) (bug_ n) (running_ n) (position n)
             (rotation n)
  | SetSigmaXY p =>
      mkNode (seed_ n) (goal_heading_ n) (speed_ n) (kappa_ n) (contrast_ n)
             (sigma_theta_ n) p (steps_per_frame_ n)
             (landscape_res_ n) (bug_ n) (running_ n) (position n)
             (rotation n)
  end.

(** A run of frames: one [_physics_process] per entry of [deltas]. *)
Fixpoint frames (deltas : list R) (n : BugNode) : BugNode :=
  match deltas with
  | [] => n
  | delta :: rest => frames rest (_physics_process delta n)
  end.

End Node.

End Godot.

(** ** A generator for examples *)

(** The generator state is the number of values drawn so far, and every
    draw returns that number: the position of a draw in the stream can be
    read off its value. *)
Definition counting : RandomSource :=
  {| rng := nat;
     mt19937 := fun _ => O;
     normal_distribution := unit;
     normal_new := fun _ _ => tt;
     normal_draw := fun d c => (INR c, d, S c);
     uniform_real := fun a _ c => (a, S c);
     uniform_int := fun a _ c => (a, S c) |}.

(** The parameters of the test "Bug records history": the defaults with
    every noise switched off and seed 1. *)
Definition quiet_params : Agent.BugParams :=
  {| Agent.x0 := 500; Agent.y0 := 100; Agent.heading0 := -1;
     Agent.goal_heading := 3 * PI / 4;
     Agent.speed := 1; Agent.kappa := 2;
     Agent.sigma_theta := 0; Agent.sigma_xy := 0;
     Agent.n_cry := 1000; Agent.contrast := 0.15; Agent.mean_yield := 0.5;
     Agent.sigma_sensor := 0;
     Agent.ra_tau := 0.05; Agent.ra_w_exc := 1.5; Agent.ra_w_inh := 4.5;
     Agent.ra_g_mag := 2; Agent.ra_g_omega := 0.5; Agent.ra_noise_sigma := 0;
     Agent.cpu4_leak := 0; Agent.cpu4_gain := 1;
     Agent.seed := 1 |}.

(** The same agent placed one unit west of the landscape. *)
Definition outside_params : Agent.BugParams :=
  {| Agent.x0 := -1; Agent.y0 := 100; Agent.heading0 := -1;
     Agent.goal_heading := 3 * PI / 4;
     Agent.speed := 0; Agent.kappa := 2;
     Agent.sigma_theta := 0; Agent.sigma_xy := 0;
     Agent.n_cry := 1000; Agent.contrast := 0.15; Agent.mean_yield := 0.5;
     Agent.sigma_sensor := 0;
     Agent.ra_tau := 0.05; Agent.ra_w_exc := 1.5; Agent.ra_w_inh := 4.5;
     Agent.ra_g_mag := 2; Agent.ra_g_omega := 0.5; Agent.ra_noise_sigma := 0;
     Agent.cpu4_leak := 0; Agent.cpu4_gain := 1;
     Agent.seed := 1 |}.

(** * Proofs *)

(** ** Facts about the numeric helpers *)

Module CmathFacts.

Lemma cosh_gt_0 : forall x, 0 < cosh x.
Proof.
  intro x. unfold cosh.
  pose proof (exp_pos x). pose proof (exp_pos (- x)). lra.
Qed.

Lemma tanh_neg : forall x, x < 0 -> tanh x < 0.
Proof.
  intros x Hx. unfold tanh.
  pose proof (cosh_gt_0 x) as Hc.
  pose proof (sinh_lt x 0 Hx) as Hs. rewrite sinh_0 in Hs.
  apply Rmult_lt_reg_r with (cosh x); [assumption|].
  unfold Rdiv. rewrite Rmult_assoc, Rinv_l by lra. lra.
Qed.

Lemma cpow_pos : forall x y, 0 < x -> 0 < cpow x y.
Proof.
  intros x y Hx. unfold cpow.
  destruct (Req_dec_T x 0); [lra|]. unfold Rpower. apply exp_pos.
Qed.

Lemma cpow_0 : forall y, cpow 0 y = 0.
Proof. intro y. unfold cpow. destruct (Req_dec_T 0 0); [reflexivity|lra]. Qed.

Lemma sqrt_sq_0 : forall a, 0 <= a -> sqrt (a * a + 0 * 0) = a.
Proof.
  intros a Ha. replace (a * a + 0 * 0) with (a * a) by ring.
  apply sqrt_square; assumption.
Qed.

Lemma atan_pos : forall x, 0 < x -> 0 < atan x.
Proof. intros x Hx. rewrite <- atan_0. apply atan_increasing; assumption. Qed.

Lemma atan2_pos_x : forall y x, 0 < x -> atan2 y x = atan (y / x).
Proof. intros y x Hx. unfold atan2. destruct (Rlt_dec 0 x); [reflexivity|lra]. Qed.

Lemma fdiv_some : forall a b, b <> 0 -> fdiv a b = Some (a / b).
Proof. intros a b Hb. unfold fdiv. destruct (Req_dec_T b 0); [contradiction|reflexivity]. Qed.

Lemma fdiv_zero : forall a, fdiv a 0 = None.
Proof. intro a. unfold fdiv. destruct (Req_dec_T 0 0); [reflexivity|lra]. Qed.

Lemma clamp_range : forall v lo hi, lo <= hi -> lo <= clamp v lo hi <= hi.
Proof.
  intros v lo hi H. unfold clamp.
  destruct (Rlt_dec v lo); [lra|]. destruct (Rlt_dec hi v); lra.
Qed.

Lemma fmax_ge_l : forall a b, a <= fmax a b.
Proof. intros a b. unfold fmax. destruct (Rlt_dec a b); lra. Qed.


End CmathFacts.
Import CmathFacts.

(** ** landscape.hpp: division guards and anomaly support *)

Module LandscapeFacts.
Import Landscape.

Lemma default_Bh_pos : 0 < B_horizontal_ default.
Proof.
  unfold default, make; cbn [B_horizontal_].
  apply Rmult_lt_0_compat; [lra|].
  pose proof PI2_3_2. apply cos_gt_0; lra.
Qed.

Lemma default_background :
  background default = mkVec3 (B_horizontal_ default) 0 (B_vertical_ default).
Proof.
  unfold background. cbn [declination_ default make].
  rewrite cos_0, sin_0. f_equal; ring.
Qed.

Lemma default_direction : forall x y,
  direction (magnetic_direction default x y) = 0.
Proof.
  intros x y. unfold magnetic_direction.
  change (anomalies_ default) with (@nil Anomaly). cbn [fold_left].
  rewrite default_background. unfold field_of; cbn [direction vx vy].
  rewrite atan2_pos_x by apply default_Bh_pos.
  unfold Rdiv. rewrite Rmult_0_l. apply atan_0.
Qed.

Lemma default_intensity : forall x y,
  intensity (magnetic_direction default x y) = B_horizontal_ default.
Proof.
  intros x y. unfold magnetic_direction.
  change (anomalies_ default) with (@nil Anomaly). cbn [fold_left].
  rewrite default_background. unfold field_of; cbn [intensity vx vy].
  apply sqrt_sq_0. pose proof default_Bh_pos; lra.
Qed.

(** The field of the default landscape with one anomaly added. *)
Lemma one_anomaly_field : forall a x y,
  magnetic_direction (add_anomaly a default) x y
  = field_of (add_perturbation x y
                (mkVec3 (B_horizontal_ default) 0 (B_vertical_ default)) a).
Proof.
  intros a x y. unfold magnetic_direction.
  change (anomalies_ (add_anomaly a default)) with [a].
  change (background (add_anomaly a default)) with (background default).
  rewrite default_background. reflexivity.
Qed.

Lemma gaussian_outside : forall x y a,
  3 * g_radius a
  <= sqrt ((x - g_px a) * (x - g_px a) + (y - g_py a) * (y - g_py a)) ->
  perturbation_gaussian x y a = zero3.
Proof.
  intros x y a Hr. unfold perturbation_gaussian.
  destruct (Rle_dec _ _); [reflexivity|contradiction].
Qed.

Lemma add_zero3 : forall x y B a,
  anomaly_perturbation x y a = zero3 -> add_perturbation x y B a = B.
Proof.
  intros x y [bx by_ bz] a Ha. unfold add_perturbation. rewrite Ha.
  cbn [vx vy vz zero3]. f_equal; ring.
Qed.

(** The dipole has no cut-off, but its perturbation decays: at squared
    horizontal distance [rho2 >= 1] each component is at most a constant
    of the anomaly divided by [rho2]. *)
Lemma frac_bound : forall K m rho2 R5,
  0 <= K -> 0 <= m -> 0 < rho2 -> 0 < R5 -> m * rho2 <= R5 ->
  K * m / R5 <= K / rho2.
Proof.
  intros K m rho2 R5 HK Hm Hrho HR5 Hle.
  apply Rmult_le_reg_r with (R5 * rho2); [nra|].
  replace (K * m / R5 * (R5 * rho2)) with (K * (m * rho2)) by (field; lra).
  replace (K / rho2 * (R5 * rho2)) with (K * R5) by (field; lra).
  apply Rmult_le_compat_l; assumption.
Qed.

Lemma cpow_2_5_lower : forall R2, 1 <= R2 -> R2 * R2 <= cpow R2 2.5.
Proof.
  intros R2 H1. unfold cpow. destruct (Req_dec_T R2 0); [lra|].
  replace (R2 * R2) with (Rpower R2 (INR 2))
    by (rewrite Rpower_pow by lra; simpl; ring).
  apply Rle_Rpower; [assumption|simpl; lra].
Qed.

Lemma dipole_decay : forall a x y,
  let rho2 := (x - d_px a) * (x - d_px a) + (y - d_py a) * (y - d_py a) in
  let alpha := d_strength a * cpow 5 2.5 * (d_depth a) ^ 3 / 48 in
  1 <= rho2 ->
  Rabs (vx (perturbation_dipole x y a)) <= Rabs (alpha * 3 * d_depth a) / rho2
  /\ Rabs (vy (perturbation_dipole x y a))
     <= Rabs (alpha * 3 * d_depth a) / rho2
  /\ Rabs (vz (perturbation_dipole x y a)) <= Rabs alpha * 2 / rho2.
Proof.
  intros a x y rho2 alpha Hrho.
  unfold perturbation_dipole. cbn [vx vy vz]. fold rho2. fold alpha.
  set (dx := x - d_px a) in *. set (dy := y - d_py a) in *.
  set (d := d_depth a) in *.
  set (R2 := rho2 + d * d).
  assert (Hdd : 0 <= d * d) by apply Rle_0_sqr.
  assert (Hxx : 0 <= dx * dx) by apply Rle_0_sqr.
  assert (Hyy : 0 <= dy * dy) by apply Rle_0_sqr.
  assert (HR2 : 1 <= R2) by (unfold R2; lra).
  pose proof (cpow_2_5_lower R2 HR2) as HR5.
  set (R5 := cpow R2 2.5) in *.
  assert (HR5pos : 0 < R5) by nra.
  assert (Hdx : Rabs dx * rho2 <= R5).
  { assert (Rabs dx <= R2).
    { pose proof (Rle_0_sqr (dx + 1)) as Hp. pose proof (Rle_0_sqr (dx - 1)) as Hm.
      unfold Rsqr in Hp, Hm.
      unfold Rabs. destruct (Rcase_abs dx); unfold R2, rho2 in *; lra. }
    apply Rle_trans with (R2 * R2); [|assumption].
    apply Rmult_le_compat; [apply Rabs_pos|lra|assumption|unfold R2; lra]. }
  assert (Hdy : Rabs dy * rho2 <= R5).
  { assert (Rabs dy <= R2).
    { pose proof (Rle_0_sqr (dy + 1)) as Hp. pose proof (Rle_0_sqr (dy - 1)) as Hm.
      unfold Rsqr in Hp, Hm.
      unfold Rabs. destruct (Rcase_abs dy); unfold R2, rho2 in *; lra. }
    apply Rle_trans with (R2 * R2); [|assumption].
    apply Rmult_le_compat; [apply Rabs_pos|lra|assumption|unfold R2; lra]. }
  assert (Hz : Rabs (2 * d * d - rho2) * rho2 <= 2 * R5).
  { assert (Rabs (2 * d * d - rho2) <= 2 * R2).
    { unfold Rabs. destruct (Rcase_abs (2 * d * d - rho2)); unfold R2; lra. }
    apply Rle_trans with (2 * R2 * R2); [|lra].
    apply Rmult_le_compat; [apply Rabs_pos|lra|assumption|unfold R2; lra]. }
  assert (Hquot : forall u, Rabs (u / R5) = Rabs u / R5).
  { intro u. unfold Rdiv. rewrite Rabs_mult.
    rewrite (Rabs_right (/ R5)); [reflexivity|].
    apply Rle_ge. left. apply Rinv_0_lt_compat. assumption. }
  rewrite !Hquot, !Rabs_mult.
  split; [|split].
  - rewrite <- !Rabs_mult.
    rewrite (Rabs_mult (alpha * 3 * d) dx).
    apply frac_bound; try lra; apply Rabs_pos.
  - rewrite <- !Rabs_mult.
    rewrite (Rabs_mult (alpha * 3 * d) dy).
    apply frac_bound; try lra; apply Rabs_pos.
  - apply Rle_trans with (Rabs alpha * 2 * (Rabs (2 * d * d - rho2) / 2) / R5).
    + right. field. lra.
    + pose proof (Rabs_pos alpha). pose proof (Rabs_pos (2 * d * d - rho2)).
      apply frac_bound; lra.
Qed.

(** C1, as amended: a Gaussian anomaly added to a landscape (whatever
    anomalies it already holds) leaves every query at distance at least
    [3 * radius] from its centre exactly as it was, so that on an
    anomaly-free landscape the query returns the background field; a
    dipole anomaly has no such support, but at squared horizontal distance
    [rho2 >= 1] from it each component of its perturbation is bounded by a
    constant of the anomaly divided by [rho2]. *)
Theorem gaussian_beyond_support_unperturbed :
  (forall (l : t) (a : GaussianAnomaly) (x y : R),
      3 * g_radius a
      <= sqrt ((x - g_px a) * (x - g_px a) + (y - g_py a) * (y - g_py a)) ->
      magnetic_direction (add_anomaly (Gaussian a) l) x y
      = magnetic_direction l x y)
  /\ (forall (a : DipoleAnomaly) (x y : R),
        let rho2 :=
          (x - d_px a) * (x - d_px a) + (y - d_py a) * (y - d_py a) in
        let alpha := d_strength a * cpow 5 2.5 * (d_depth a) ^ 3 / 48 in
        1 <= rho2 ->
        Rabs (vx (perturbation_dipole x y a))
        <= Rabs (alpha * 3 * d_depth a) / rho2
        /\ Rabs (vy (perturbation_dipole x y a))
           <= Rabs (alpha * 3 * d_depth a) / rho2
        /\ Rabs (vz (perturbation_dipole x y a)) <= Rabs alpha * 2 / rho2).
Proof.
  split.
  - intros l a x y Hr. unfold magnetic_direction.
    change (anomalies_ (add_anomaly (Gaussian a) l))
      with (anomalies_ l ++ [Gaussian a]).
    change (background (add_anomaly (Gaussian a) l)) with (background l).
    rewrite fold_left_app. cbn [fold_left].
    rewrite add_zero3; [reflexivity|].
    cbn [anomaly_perturbation]. apply gaussian_outside; assumption.
  - apply dipole_decay.
Qed.

Lemma gaussian_beyond_support_witness :
  3 * 50 <= sqrt ((1000 - 500) * (1000 - 500) + (500 - 500) * (500 - 500))
  /\ magnetic_direction
       (add_anomaly (Gaussian (mkGaussian 500 500 5 50)) default) 1000 500
     = magnetic_direction default 1000 500.
Proof.
  assert (Hr : 3 * 50
               <= sqrt ((1000 - 500) * (1000 - 500) + (500 - 500) * (500 - 500))).
  { replace ((1000 - 500) * (1000 - 500) + (500 - 500) * (500 - 500))
      with (500 * 500) by ring.
    rewrite sqrt_square; lra. }
  split; [exact Hr|].
  exact (proj1 gaussian_beyond_support_unperturbed
           default (mkGaussian 500 500 5 50) 1000 500 Hr).
Defined.

(** C1 as stated fails for the three other anomaly types, on the default
    landscape with the anomalies of the test suite: 500 length units away
    from a fault of half-width 50 the field direction is turned; 500 away
    from the reference point of a gradient the intensity is off by 5; and
    500 away from a dipole buried at depth 50 the intensity is still
    larger than the background. *)
Lemma fault_gradient_dipole_perturb_far_away :
  (direction (magnetic_direction default 500 1000) = 0
   /\ 0 < direction (magnetic_direction
                       (add_anomaly (Fault (mkFault 500 500 0 3 50)) default)
                       500 1000))
  /\ intensity (magnetic_direction
                  (add_anomaly (Gradient (mkGradient 0.01 0 500 500)) default)
                  1000 500)
     = intensity (magnetic_direction default 1000 500) + 5
  /\ intensity (magnetic_direction default 1000 500)
     < intensity (magnetic_direction
                    (add_anomaly (Dipole (mkDipole 500 500 5 50)) default)
                    1000 500).
Proof.
  pose proof default_Bh_pos as HB.
  split; [split|split].
  - apply default_direction.
  - rewrite one_anomaly_field.
    unfold field_of, add_perturbation;
      cbn [direction vx vy anomaly_perturbation].
    unfold perturbation_fault;
      cbn [vx vy f_px f_py f_azimuth f_contrast f_width].
    rewrite sin_0, cos_0.
    replace (((500 - 500) * 0 - (1000 - 500) * 1) / 50) with (-10) by lra.
    pose proof (tanh_neg (-10) ltac:(lra)) as Ht.
    rewrite atan2_pos_x by lra.
    apply atan_pos. apply Rdiv_lt_0_compat; lra.
  - rewrite one_anomaly_field, default_intensity.
    unfold field_of, add_perturbation;
      cbn [intensity vx vy anomaly_perturbation].
    unfold perturbation_gradient;
      cbn [vx vy gr_magnitude gr_direction gr_ref_x gr_ref_y].
    rewrite sin_0, cos_0.
    replace (B_horizontal_ default + 0.01 * ((1000 - 500) * 1 + (500 - 500) * 0) * 1)
      with (B_horizontal_ default + 5) by lra.
    replace (0 + 0.01 * ((1000 - 500) * 1 + (500 - 500) * 0) * 0) with 0 by lra.
    apply sqrt_sq_0. lra.
  - rewrite one_anomaly_field, default_intensity.
    unfold field_of, add_perturbation;
      cbn [intensity vx vy anomaly_perturbation].
    unfold perturbation_dipole; cbn [vx vy d_px d_py d_strength d_depth].
    set (R5 := cpow (_ + _) 2.5).
    assert (HR5 : 0 < R5) by (apply cpow_pos; lra).
    pose proof (cpow_pos 5 2.5 ltac:(lra)) as H5.
    set (dBx := _ * (1000 - 500) / R5).
    assert (Hd : 0 < dBx).
    { unfold dBx. apply Rdiv_lt_0_compat; [|assumption].
      assert (0 < 5 * cpow 5 2.5 * 50 ^ 3 / 48) by (simpl; nra). nra. }
    replace (0 + _ * (500 - 500) / R5) with 0
      by (unfold Rdiv; ring).
    rewrite sqrt_sq_0 by lra. lra.
Qed.

End LandscapeFacts.

(** ** Lists used as arrays *)

Module ArrayFacts.

Lemma length_upd {A} : forall i (f : A -> A) l, length (upd i f l) = length l.
Proof.
  intros i f l; revert i.
  induction l as [|a l IH]; intros [|i]; simpl; auto.
Qed.

Lemma nth_upd_same {A} : forall i (f : A -> A) l d,
  (i < length l)%nat -> nth i (upd i f l) d = f (nth i l d).
Proof.
  intros i f l; revert i.
  induction l as [|a l IH]; intros [|i] d Hi; simpl in *; try lia; auto.
  apply IH; lia.
Qed.

Lemma nth_upd_other {A} : forall i j (f : A -> A) l d,
  i <> j -> nth j (upd i f l) d = nth j l d.
Proof.
  intros i j f l; revert i j.
  induction l as [|a l IH]; intros [|i] [|j] d Hij; simpl; auto; try lia.
Qed.

Lemma nth_map_seq {A} : forall (f : nat -> A) n c d,
  (c < n)%nat -> nth c (map f (seq 0 n)) d = f c.
Proof.
  intros f n c d Hc.
  rewrite nth_indep with (d' := f O) by (rewrite length_map, length_seq; lia).
  rewrite map_nth, seq_nth by lia. reflexivity.
Qed.

Lemma map_nth_seq {A} : forall (l : list A) d,
  map (fun k => nth k l d) (seq 0 (length l)) = l.
Proof.
  induction l as [|a l IH]; intro d; simpl; [reflexivity|].
  f_equal. rewrite <- seq_shift, map_map. apply IH.
Qed.

Lemma list_sum_upd_S : forall c cnt,
  (c < length cnt)%nat -> list_sum (upd c S cnt) = S (list_sum cnt).
Proof.
  intros c cnt; revert c.
  induction cnt as [|a cnt IH]; intros [|c] Hc; simpl in *; try lia.
  rewrite IH by lia. lia.
Qed.

Lemma list_sum_repeat_0 : forall n, list_sum (repeat 0%nat n) = 0%nat.
Proof. induction n; simpl; auto. Qed.

End ArrayFacts.
Import ArrayFacts.

(** ** compass.hpp: the partition into channels and the noiseless read *)

Module CompassFacts.
Import Compass.

Section Channels.
Variable N : nat.

Lemma nearest_fold_lt : forall p l best,
  Forall (fun c => (c < N)%nat) l -> (snd best < N)%nat ->
  (snd (fold_left (nearer N p) l best) < N)%nat.
Proof.
  intros p l. induction l as [|c l IH]; intros best Hl Hb; simpl; [assumption|].
  inversion Hl; subst. apply IH; [assumption|].
  unfold nearer. destruct (Rlt_dec _ _); simpl; assumption.
Qed.

Lemma nearest_lt : forall p, (0 < N)%nat -> (nearest N p < N)%nat.
Proof.
  intros p HN. unfold nearest. apply nearest_fold_lt; [|simpl; lia].
  apply Forall_forall. intros c Hc. apply in_seq in Hc. lia.
Qed.

(** The counting loop: [cnt[c]] grows by the number of units sent to [c]. *)
Lemma tally_nth : forall asg cnt c,
  (c < length cnt)%nat ->
  nth c (fold_left (fun cnt best_c => upd best_c S cnt) asg cnt) 0%nat
  = (nth c cnt 0 + length (filter (fun a => a =? c) asg))%nat.
Proof.
  induction asg as [|a asg IH]; intros cnt c Hc; simpl; [lia|].
  rewrite IH by (rewrite length_upd; assumption).
  destruct (Nat.eqb_spec a c) as [->|Hne]; simpl.
  - rewrite nth_upd_same by assumption. lia.
  - rewrite nth_upd_other by assumption. lia.
Qed.

Lemma tally_sum : forall asg cnt,
  Forall (fun a => (a < length cnt)%nat) asg ->
  list_sum (fold_left (fun cnt best_c => upd best_c S cnt) asg cnt)
  = (list_sum cnt + length asg)%nat.
Proof.
  induction asg as [|a asg IH]; intros cnt Hall; simpl; [lia|].
  inversion Hall; subst.
  rewrite IH by (rewrite length_upd; assumption).
  rewrite list_sum_upd_S by assumption. lia.
Qed.

Lemma members_length : forall s c,
  length (assignments_ s) = n_cry_ s ->
  length (members s c) = length (filter (fun a => a =? c) (assignments_ s)).
Proof.
  intros s c Hlen. unfold members.
  transitivity
    (length (filter (fun a => a =? c)
               (map (fun k => nth k (assignments_ s) 0%nat)
                    (seq 0 (length (assignments_ s)))))).
  - rewrite filter_map_swap, length_map, Hlen. reflexivity.
  - rewrite map_nth_seq. reflexivity.
Qed.

(** What the constructor establishes. *)
Lemma compass_make_fields : forall n_cry contrast mean_yield sigma,
  let s := make N n_cry contrast mean_yield sigma in
  n_cry_ s = n_cry /\ contrast_ s = contrast /\ mean_yield_ s = mean_yield
  /\ sigma_sensor_ s = sigma
  /\ length (assignments_ s) = n_cry
  /\ channel_counts_ s
     = fold_left (fun cnt best_c => upd best_c S cnt) (assignments_ s)
                 (repeat 0%nat N)
  /\ ((0 < N)%nat -> Forall (fun a => (a < N)%nat) (assignments_ s)).
Proof.
  intros n_cry contrast mean_yield sigma. unfold make, init_molecules. simpl.
  repeat split.
  - rewrite !length_map, length_seq. reflexivity.
  - intro HN. apply Forall_forall. intros a Ha.
    apply in_map_iff in Ha. destruct Ha as [p [<- _]].
    apply nearest_lt; assumption.
Qed.

(** The summing loop without noise: channel [c] receives the yields of its
    members, in ascending order of the unit index. *)
Lemma sums_noiseless : forall s heading ks sums c,
  (c < length sums)%nat ->
  nth c (fold_left (add_yield s heading)
                   (combine ks (repeat 0 (length ks))) sums) 0
  = nth c sums 0
    + Rsum (map (fun k => singlet_yield (heading - nth k (phi_ s) 0)
                                        (contrast_ s) (mean_yield_ s))
                (filter (fun k => (nth k (assignments_ s) 0 =? c)%nat) ks)).
Proof.
  intros s heading ks. induction ks as [|k ks IH]; intros sums c Hc.
  - simpl. ring.
  - cbn [length repeat combine fold_left].
    rewrite IH by (unfold add_yield; rewrite length_upd; assumption).
    unfold add_yield. cbn [fst snd filter].
    destruct (Nat.eqb_spec (nth k (assignments_ s) 0%nat) c) as [->|Hne].
    + rewrite nth_upd_same by assumption.
      unfold Rsum. cbn [map fold_right]. ring.
    + rewrite nth_upd_other by assumption. reflexivity.
Qed.

Lemma nth_average : forall counts sums c,
  (c < N)%nat ->
  nth c (average N counts sums) 0
  = if (0 <? nth c counts 0)%nat
    then nth c sums 0 / INR (nth c counts 0%nat) else 0.
Proof. intros counts sums c Hc. unfold average. apply nth_map_seq; assumption. Qed.

Lemma average_chk_defined : forall counts sums,
  average_chk N counts sums = Some (average N counts sums).
Proof.
  intros counts sums. unfold average_chk, average.
  induction (seq 0 N) as [|c cs IH]; [reflexivity|].
  cbn [average_chk_from map]. rewrite IH.
  destruct (Nat.ltb_spec 0 (nth c counts 0%nat)) as [Hpos|Hz]; [|reflexivity].
  rewrite fdiv_some; [reflexivity|].
  apply not_0_INR. lia.
Qed.

Context {RS : RandomSource}.

(** The first loop of [read] draws one value per unit, in ascending order
    of the unit index, when the sensor is noisy... *)
Lemma read_loop_noisy : forall s heading ks sums d g,
  0 < sigma_sensor_ s ->
  fold_left (read_unit s heading) ks (sums, d, g)
  = let '(nz, d', g') := normal_draws (length ks) d g in
    (fold_left (add_yield s heading) (combine ks nz) sums, d', g').
Proof.
  intros s heading ks. induction ks as [|k ks IH]; intros sums d g Hs.
  - reflexivity.
  - cbn [fold_left length normal_draws]. unfold read_unit at 2.
    destruct (Rlt_dec 0 (sigma_sensor_ s)) as [_|Hn]; [|contradiction].
    destruct (normal_draw d g) as [[v d1] g1].
    rewrite IH by assumption.
    destruct (normal_draws (length ks) d1 g1) as [[vs d2] g2].
    reflexivity.
Qed.

(** ... and draws nothing otherwise. *)
Lemma read_loop_quiet : forall s heading ks sums d g,
  ~ 0 < sigma_sensor_ s ->
  fold_left (read_unit s heading) ks (sums, d, g)
  = (fold_left (add_yield s heading) (combine ks (repeat 0 (length ks))) sums,
     d, g).
Proof.
  intros s heading ks. induction ks as [|k ks IH]; intros sums d g Hs.
  - reflexivity.
  - cbn [fold_left length repeat combine]. unfold read_unit at 2.
    destruct (Rlt_dec 0 (sigma_sensor_ s)) as [Hp|_]; [contradiction|].
    rewrite IH by assumption. unfold add_yield at 3. cbn [fst snd].
    rewrite Rplus_0_r. reflexivity.
Qed.

(** [read] is [read_with] on the values drawn. *)
Lemma read_draws : forall s heading g,
  read N s heading g
  = if Rlt_dec 0 (sigma_sensor_ s) then
      let '(nz, _, g') :=
        normal_draws (n_cry_ s) (normal_new 0 (sigma_sensor_ s)) g in
      (read_with N s heading nz, g')
    else (read_with N s heading (repeat 0 (n_cry_ s)), g).
Proof.
  intros s heading g. unfold read, read_sums, read_with.
  destruct (Rlt_dec 0 (sigma_sensor_ s)) as [Hp|Hn].
  - rewrite read_loop_noisy by assumption. rewrite length_seq.
    destruct (normal_draws _ _ _) as [[nz d'] g']. reflexivity.
  - rewrite read_loop_quiet by assumption. rewrite length_seq. reflexivity.
Qed.

End Channels.

Lemma counts_are_member_counts : forall N n_cry contrast mean_yield sigma c,
  (c < N)%nat ->
  let s := make N n_cry contrast mean_yield sigma in
  nth c (channel_counts_ s) 0%nat = length (members s c).
Proof.
  intros N n_cry contrast mean_yield sigma c Hc s.
  destruct (compass_make_fields N n_cry contrast mean_yield sigma)
    as (Hn & _ & _ & _ & Hlen & Hcnt & _).
  fold s in Hn, Hlen, Hcnt.
  rewrite Hcnt, tally_nth by (rewrite repeat_length; assumption).
  rewrite nth_repeat. rewrite members_length by congruence. reflexivity.
Qed.

(** C8: with zero sensor noise, [read] returns in every channel the
    arithmetic mean of the singlet yields of the units assigned to it (and
    0 in a channel without units), without drawing from the generator;
    every unit belongs to exactly one channel, a channel's count is the
    number of its units, and the counts add up to [n_cry]. *)
Theorem noiseless_read_is_mean_over_channel_members :
  forall (RS : RandomSource) (N n_cry : nat)
         (contrast mean_yield heading : R) (g : rng),
    (0 < N)%nat ->
    let s := make N n_cry contrast mean_yield 0 in
    (forall c, (c < N)%nat ->
       nth c (fst (read N s heading g)) 0
       = match members s c with
         | [] => 0
         | _ :: _ => channel_mean s heading c
         end)
    /\ snd (read N s heading g) = g
    /\ (forall k, (k < n_cry)%nat ->
          exists! c, (c < N)%nat /\ In k (members s c))
    /\ (forall c, (c < N)%nat ->
          nth c (channel_counts_ s) 0%nat = length (members s c))
    /\ list_sum (channel_counts_ s) = n_cry.
Proof.
  intros RS N n_cry contrast mean_yield heading g HN s.
  destruct (compass_make_fields N n_cry contrast mean_yield 0)
    as (Hn & _ & _ & Hsig & Hlen & Hcnt & Hall).
  fold s in Hn, Hsig, Hlen, Hcnt, Hall. specialize (Hall HN).
  assert (Hread : read N s heading g
                  = (read_with N s heading (repeat 0 (n_cry_ s)), g)).
  { rewrite read_draws, Hsig.
    destruct (Rlt_dec 0 0) as [Hlt|_]; [lra|reflexivity]. }
  rewrite Hread. cbn [fst snd].
  split; [|split; [reflexivity|split; [|split]]].
  - intros c Hc. unfold read_with. rewrite nth_average by assumption.
    pose proof (counts_are_member_counts N n_cry contrast mean_yield 0 c Hc)
      as Hm.
    cbv zeta in Hm. fold s in Hm. rewrite Hm.
    replace (repeat 0 (n_cry_ s))
      with (repeat 0 (length (seq 0 (n_cry_ s))))
      by (rewrite length_seq; reflexivity).
    rewrite sums_noiseless by (rewrite repeat_length; assumption).
    rewrite nth_repeat, Rplus_0_l. unfold channel_mean.
    change (filter (fun k => (nth k (assignments_ s) 0 =? c)%nat)
                   (seq 0 (n_cry_ s))) with (members s c).
    destruct (members s c); reflexivity.
  - intros k Hk. exists (nth k (assignments_ s) 0%nat). split.
    + split.
      * rewrite Forall_forall in Hall. apply Hall. apply nth_In. lia.
      * unfold members. apply filter_In. split.
        -- apply in_seq. lia.
        -- apply Nat.eqb_refl.
    + intros c [_ Hin]. unfold members in Hin. apply filter_In in Hin.
      destruct Hin as [_ Heq]. apply Nat.eqb_eq in Heq. exact Heq.
  - intros c Hc.
    apply (counts_are_member_counts N n_cry contrast mean_yield 0 c Hc).
  - rewrite Hcnt, tally_sum by (rewrite repeat_length; assumption).
    rewrite list_sum_repeat_0. lia.
Qed.

Lemma noiseless_read_witness :
  (0 < 8)%nat
  /\ list_sum (channel_counts_ (make 8 1000 0.15 0.5 0)) = 1000%nat.
Proof.
  split; [lia|].
  exact (proj2 (proj2 (proj2 (proj2
           (noiseless_read_is_mean_over_channel_members
              counting 8 1000 0.15 0.5 0 O ltac:(lia)))))).
Defined.

End CompassFacts.

(** ** Which quotients are guarded *)

Module DivisionGuards.
Import Landscape Compass.

Lemma gaussian_chk_total : forall x y a,
  perturbation_gaussian_chk x y a = Some (perturbation_gaussian x y a).
Proof.
  intros x y a. unfold perturbation_gaussian_chk, perturbation_gaussian.
  cbv zeta.
  set (r := sqrt _).
  assert (Hr : 0 <= r) by apply sqrt_pos.
  destruct (Rle_dec (3 * g_radius a) r) as [|Hin]; [reflexivity|].
  rewrite !fdiv_some by lra. cbn [obind].
  destruct (Rlt_dec r 1e-6) as [|Hfar]; [reflexivity|].
  rewrite !fdiv_some by lra. reflexivity.
Qed.

Lemma gaussian_zero_at_centre : forall x y a,
  sqrt ((x - g_px a) * (x - g_px a) + (y - g_py a) * (y - g_py a)) < 1e-6 ->
  perturbation_gaussian x y a = zero3.
Proof.
  intros x y a Hr. unfold perturbation_gaussian. cbv zeta.
  destruct (Rle_dec _ _); [reflexivity|].
  destruct (Rlt_dec _ _); [reflexivity|contradiction].
Qed.

Lemma dipole_chk_defined : forall x y a,
  d_depth a <> 0 \/ x <> d_px a \/ y <> d_py a ->
  perturbation_dipole_chk x y a = Some (perturbation_dipole x y a).
Proof.
  intros x y a Hne. unfold perturbation_dipole_chk, perturbation_dipole.
  cbv zeta.
  set (R2 := _ + d_depth a * d_depth a).
  assert (HR2 : 0 < R2).
  { unfold R2.
    pose proof (Rle_0_sqr (x - d_px a)) as H1.
    pose proof (Rle_0_sqr (y - d_py a)) as H2.
    pose proof (Rle_0_sqr (d_depth a)) as H3.
    unfold Rsqr in *.
    destruct Hne as [Hd|[Hx|Hy]].
    - assert (0 < d_depth a * d_depth a) by (apply Rsqr_pos_lt; assumption). lra.
    - assert (0 < (x - d_px a) * (x - d_px a)) by (apply Rsqr_pos_lt; lra). lra.
    - assert (0 < (y - d_py a) * (y - d_py a)) by (apply Rsqr_pos_lt; lra). lra. }
  pose proof (cpow_pos R2 2.5 HR2) as HR5.
  rewrite !fdiv_some by lra. reflexivity.
Qed.

Lemma fault_chk_defined : forall x y a,
  f_width a <> 0 ->
  perturbation_fault_chk x y a = Some (perturbation_fault x y a).
Proof.
  intros x y a Hw. unfold perturbation_fault_chk, perturbation_fault.
  cbv zeta. rewrite fdiv_some by assumption. reflexivity.
Qed.

Lemma read_chk_defined : forall (RS : RandomSource) N s heading g,
  fst (read_chk N s heading g) = Some (fst (read N s heading g)).
Proof.
  intros RS N s heading g. unfold read_chk, read.
  destruct (read_sums N s heading g) as [sums g']. cbn [fst].
  apply CompassFacts.average_chk_defined.
Qed.

Lemma empty_channel_reads_0 : forall (RS : RandomSource) N s heading g c,
  (c < N)%nat -> nth c (channel_counts_ s) 0%nat = 0%nat ->
  nth c (fst (read N s heading g)) 0 = 0.
Proof.
  intros RS N s heading g c Hc Hz. unfold read.
  destruct (read_sums N s heading g) as [sums g']. cbn [fst].
  rewrite CompassFacts.nth_average by assumption. rewrite Hz. reflexivity.
Qed.

(** C7, as amended: the compass read never divides by zero and a channel
    whose count is zero reads 0; the Gaussian perturbation never divides by
    zero and is the zero vector at distances below 1e-6 from its centre;
    the dipole and fault perturbations carry no guard: their quotients are
    defined whenever the dipole is buried ([depth <> 0]) or the query is
    off its centre, and whenever the fault has a non-zero width. *)
Theorem divisions_guarded_in_read_and_gaussian :
  (forall (RS : RandomSource) (N : nat) (s : Compass.t) (heading : R) (g : rng),
      fst (read_chk N s heading g) = Some (fst (read N s heading g))
      /\ forall c, (c < N)%nat -> nth c (channel_counts_ s) 0%nat = 0%nat ->
                   nth c (fst (read N s heading g)) 0 = 0)
  /\ (forall x y a,
        perturbation_gaussian_chk x y a = Some (perturbation_gaussian x y a)
        /\ (sqrt ((x - g_px a) * (x - g_px a) + (y - g_py a) * (y - g_py a))
            < 1e-6 ->
            perturbation_gaussian x y a = zero3))
  /\ (forall x y a,
        d_depth a <> 0 \/ x <> d_px a \/ y <> d_py a ->
        perturbation_dipole_chk x y a = Some (perturbation_dipole x y a))
  /\ (forall x y a,
        f_width a <> 0 ->
        perturbation_fault_chk x y a = Some (perturbation_fault x y a)).
Proof.
  split; [|split; [|split]].
  - intros RS N s heading g. split.
    + apply read_chk_defined.
    + intros c. apply empty_channel_reads_0.
  - intros x y a. split.
    + apply gaussian_chk_total.
    + apply gaussian_zero_at_centre.
  - apply dipole_chk_defined.
  - apply fault_chk_defined.
Qed.

Lemma divisions_guarded_witness :
  perturbation_dipole_chk 500 500 (mkDipole 500 500 5 50)
  = Some (perturbation_dipole 500 500 (mkDipole 500 500 5 50))
  /\ perturbation_fault_chk 500 1000 (mkFault 500 500 0 3 50)
     = Some (perturbation_fault 500 1000 (mkFault 500 500 0 3 50)).
Proof.
  split.
  - apply (proj1 (proj2 (proj2 divisions_guarded_in_read_and_gaussian))).
    left. cbn [d_depth]. lra.
  - apply (proj2 (proj2 (proj2 divisions_guarded_in_read_and_gaussian))).
    cbn [f_width]. lra.
Defined.

(** C7 as stated fails for the dipole and the fault: a dipole of depth 0
    queried at its own position divides by zero, as does any query of a
    fault of width 0; and at horizontal distance 0 from a buried dipole the
    perturbation is not the zero vector (its vertical component is
    positive for a positive strength). *)
Lemma dipole_and_fault_quotients_unguarded :
  perturbation_dipole_chk 500 500 (mkDipole 500 500 5 0) = None
  /\ perturbation_fault_chk 0 0 (mkFault 500 500 0 3 0) = None
  /\ vx (perturbation_dipole 500 500 (mkDipole 500 500 5 50)) = 0
  /\ vy (perturbation_dipole 500 500 (mkDipole 500 500 5 50)) = 0
  /\ 0 < vz (perturbation_dipole 500 500 (mkDipole 500 500 5 50)).
Proof.
  split; [|split; [|split; [|split]]].
  - unfold perturbation_dipole_chk. cbv zeta. cbn [d_px d_py d_depth d_strength].
    replace ((500 - 500) * (500 - 500) + (500 - 500) * (500 - 500) + 0 * 0)
      with 0 by ring.
    rewrite cpow_0, fdiv_zero. reflexivity.
  - unfold perturbation_fault_chk. cbv zeta. cbn [f_width].
    rewrite fdiv_zero. reflexivity.
  - unfold perturbation_dipole. cbn [vx d_px d_py d_depth d_strength].
    unfold Rdiv. ring.
  - unfold perturbation_dipole. cbn [vy d_px d_py d_depth d_strength].
    unfold Rdiv. ring.
  - unfold perturbation_dipole. cbn [vz d_px d_py d_depth d_strength].
    set (R5 := cpow (_ + _) 2.5).
    assert (HR5 : 0 < R5) by (apply cpow_pos; lra).
    pose proof (cpow_pos 5 2.5 ltac:(lra)) as H5.
    apply Rdiv_lt_0_compat; [|assumption].
    assert (0 < 5 * cpow 5 2.5 * 50 ^ 3 / 48) by (simpl; nra). nra.
Qed.

End DivisionGuards.

(** ** The eight preferred directions *)

Module Octant.

Lemma s2_sq : s2 * s2 = 1 / 2.
Proof.
  unfold s2. pose proof sqrt2_neq_0 as Hn.
  pose proof (sqrt_def 2 ltac:(lra)) as Hd.
  field_simplify_eq; [|assumption]. lra.
Qed.

Lemma s2_pos : 0 < s2.
Proof.
  unfold s2. apply Rdiv_lt_0_compat; [lra|]. apply sqrt_lt_R0. lra.
Qed.

Lemma s2_bounds : 0.7 < s2 < 0.71.
Proof. pose proof s2_sq. pose proof s2_pos. split; nra. Qed.

Lemma angles_8 :
  map (fun i => 2 * PI * INR i / INR 8) (seq 0 8)
  = [0; PI / 4; PI / 2; 3 * (PI / 4); PI; 5 * (PI / 4); 3 * (PI / 2);
     PI + 3 * (PI / 4)].
Proof.
  cbn [seq map]. repeat (apply f_equal2; [simpl; lra|]). reflexivity.
Qed.

Lemma cos_7PI4 : cos (PI + 3 * (PI / 4)) = s2.
Proof.
  rewrite Rplus_comm, neg_cos, cos_3PI4. unfold s2, Rdiv. ring.
Qed.

Lemma sin_7PI4 : sin (PI + 3 * (PI / 4)) = - s2.
Proof.
  rewrite Rplus_comm, neg_sin, sin_3PI4. unfold s2, Rdiv. ring.
Qed.

Lemma cos_PI4' : cos (PI / 4) = s2.
Proof. apply cos_PI4. Qed.
Lemma sin_PI4' : sin (PI / 4) = s2.
Proof. apply sin_PI4. Qed.
Lemma cos_3PI4' : cos (3 * (PI / 4)) = - s2.
Proof. rewrite cos_3PI4. unfold s2, Rdiv. ring. Qed.
Lemma sin_3PI4' : sin (3 * (PI / 4)) = s2.
Proof. apply sin_3PI4. Qed.
Lemma cos_5PI4' : cos (5 * (PI / 4)) = - s2.
Proof. rewrite cos_5PI4. unfold s2, Rdiv. ring. Qed.
Lemma sin_5PI4' : sin (5 * (PI / 4)) = - s2.
Proof. rewrite sin_5PI4. unfold s2, Rdiv. ring. Qed.

Create Rewrite HintDb octant.
#[export] Hint Rewrite cos_0 sin_0 cos_PI4' sin_PI4' cos_PI2 sin_PI2
  cos_3PI4' sin_3PI4' cos_PI sin_PI cos_5PI4' sin_5PI4'
  cos_3PI2 sin_3PI2 cos_7PI4 sin_7PI4 : octant.

End Octant.
Import Octant.

(** ** ring_attractor.hpp: the rates stay clamped *)

Module RingFacts.
Import Ring.

Lemma step_is_step_with : forall (RS : RandomSource) N a dt ci av g,
  step N a dt ci av g
  = (step_with N a dt ci av (fst (neural_noise N a g)),
     snd (neural_noise N a g)).
Proof.
  intros RS N a dt ci av g. unfold step.
  destruct (neural_noise N a g) as [nz g']. reflexivity.
Qed.

Lemma step_with_rates : forall N a dt ci av nz,
  length (r_ (step_with N a dt ci av nz)) = N
  /\ (0 <= r_max_ a ->
      Forall (fun v => 0 <= v <= r_max_ a) (r_ (step_with N a dt ci av nz))).
Proof.
  intros N a dt ci av nz. unfold step_with. cbn [r_ set_r]. split.
  - rewrite length_map, length_seq. reflexivity.
  - intro Hmax. apply Forall_forall. intros v Hv.
    apply in_map_iff in Hv. destruct Hv as [i [<- _]].
    unfold update_rate. apply clamp_range. assumption.
Qed.



End RingFacts.

(** ** path_integration.hpp: the home vector after a straight walk *)

Module Cpu4Facts.
Import Cpu4.

Lemma fmax_of_nonneg : forall v, 0 <= v -> fmax v 0 = v.
Proof. intros v Hv. unfold fmax. destruct (Rlt_dec v 0); lra. Qed.

Lemma fmax_of_nonpos : forall v, v <= 0 -> fmax v 0 = 0.
Proof. intros v Hv. unfold fmax. destruct (Rlt_dec v 0); lra. Qed.

(** Without leak, [n] equal updates add [n] times the same increment. *)
Lemma updates_no_leak : forall N n c h sp dt,
  ~ 0 < leak_ c -> length (memory_ c) = N ->
  updates N n c h sp dt
  = mkCpu4 (leak_ c) (gain_ c) (phi_ c)
      (map (fun i => nth i (memory_ c) 0
                     + INR n * (gain_ c * sp
                                * fmax (cos (h - nth i (phi_ c) 0)) 0 * dt))
           (seq 0 N)).
Proof.
  intros N n. induction n as [|n IH]; intros c h sp dt Hleak Hlen.
  - cbn [updates]. destruct c as [lk gn ph mem]. cbn [leak_ gain_ phi_ memory_] in *.
    f_equal. rewrite <- (map_nth_seq mem 0) at 1. rewrite Hlen.
    apply map_ext. intro i. simpl. ring.
  - cbn [updates]. rewrite IH.
    + unfold update. cbn [leak_ gain_ phi_ memory_]. f_equal.
      apply map_ext_in. intros i Hi. apply in_seq in Hi.
      rewrite nth_map_seq by lia. unfold update_unit.
      destruct (Rlt_dec 0 (leak_ c)) as [Hl|_]; [contradiction|].
      rewrite S_INR. ring.
    + unfold update. cbn [leak_]. assumption.
    + unfold update. cbn [memory_]. rewrite length_map, length_seq. reflexivity.
Qed.

(** The rectified cosine drives of a walk with heading 0. *)
Lemma north_drives : forall i, (i < 8)%nat ->
  fmax (cos (0 - nth i (phi_ (make 8 0 1)) 0)) 0
  = nth i [1; s2; 0; 0; 0; 0; 0; s2] 0.
Proof.
  intros i Hi. unfold make. cbn [phi_]. rewrite angles_8.
  pose proof s2_pos as Hs.
  unfold Rminus. rewrite Rplus_0_l, cos_neg.
  do 8 (destruct i as [|i]; [cbn [nth]; autorewrite with octant;
                             first [apply fmax_of_nonneg; lra
                                   |apply fmax_of_nonpos; lra]|]).
  lia.
Qed.

Lemma north_walk_memory : forall n dt,
  memory_ (updates 8 n (make 8 0 1) 0 1 dt)
  = map (fun v => INR n * dt * v) [1; s2; 0; 0; 0; 0; 0; s2].
Proof.
  intros n dt. rewrite updates_no_leak.
  - cbn [memory_].
    rewrite <- (map_nth_seq [1; s2; 0; 0; 0; 0; 0; s2] 0), map_map.
    change (length [1; s2; 0; 0; 0; 0; 0; s2]) with 8%nat.
    apply map_ext_in. intros i Hi. apply in_seq in Hi.
    rewrite north_drives by lia.
    unfold make at 1 2. cbn [memory_ gain_].
    rewrite nth_repeat. ring.
  - unfold make. cbn [leak_]. lra.
  - unfold make. cbn [memory_]. apply repeat_length.
Qed.

Lemma updates_phi : forall N n c h sp dt,
  phi_ (updates N n c h sp dt) = phi_ c.
Proof.
  intros N n. induction n as [|n IH]; intros c h sp dt; cbn [updates].
  - reflexivity.
  - rewrite IH. reflexivity.
Qed.

Lemma north_walk_displacement : forall n dt,
  displacement 8 (updates 8 n (make 8 0 1) 0 1 dt) = (2 * (INR n * dt), 0).
Proof.
  intros n dt. unfold displacement.
  rewrite north_walk_memory, updates_phi.
  unfold make. cbn [phi_]. rewrite angles_8.
  cbn [seq fold_left map nth fst snd].
  autorewrite with octant.
  pose proof s2_sq as Hs.
  f_equal.
  - transitivity (INR n * dt * (1 + 2 * (s2 * s2))); [ring|].
    rewrite Hs. lra.
  - transitivity (INR n * dt * (s2 * s2 - s2 * s2)); [ring|]. ring.
Qed.

Lemma north_walk_home : forall n dt,
  0 < INR n * dt ->
  home_vector 8 (updates 8 n (make 8 0 1) 0 1 dt)
  = mkHome (2 * (INR n * dt)) PI.
Proof.
  intros n dt HT. unfold home_vector. rewrite north_walk_displacement.
  f_equal.
  - apply sqrt_sq_0. lra.
  - unfold atan2.
    destruct (Rlt_dec 0 (- (2 * (INR n * dt)))) as [Hp|_]; [lra|].
    destruct (Rlt_dec (- (2 * (INR n * dt))) 0) as [_|Hn]; [|lra].
    destruct (Rle_dec 0 (- 0)) as [_|Hn]; [|lra].
    replace (- 0 / - (2 * (INR n * dt))) with 0 by (unfold Rdiv; ring).
    rewrite atan_0. ring.
Qed.




End Cpu4Facts.

(** ** bug.hpp: one step, runs, history and reproducibility *)

Module AgentFacts.
Import Agent.

Section WithRandom.
Context {RS : RandomSource}.

(** [step] draws in the order of [draw_step_noise] and is otherwise the
    function [step_given] of the state and of the values drawn. *)
Lemma step_draws : forall dt l b,
  step dt l b
  = let '(nz, g') := draw_step_noise b (rng_ b) in step_given dt l b nz g'.
Proof.
  intros dt l b. unfold step, draw_step_noise, step_given.
  rewrite CompassFacts.read_draws.
  destruct (Rlt_dec 0 (Compass.sigma_sensor_ (compass_ b))) as [Hc|Hc].
  - destruct (normal_draws _ _ (rng_ b)) as [[nc dc] g1].
    unfold Ring.step, Ring.neural_noise.
    destruct (Rlt_dec 0 (Ring.noise_sigma_ (attractor_ b))) as [Hr|Hr].
    + destruct (normal_draws 8 _ g1) as [[ne de] g2].
      destruct (normal_draw (normal_new 0 1) g2) as [[e1 d1] g3].
      destruct (normal_draw d1 g3) as [[e2 d2] g4].
      destruct (normal_draw d2 g4) as [[e3 d3] g5].
      reflexivity.
    + destruct (normal_draw (normal_new 0 1) g1) as [[e1 d1] g3].
      destruct (normal_draw d1 g3) as [[e2 d2] g4].
      destruct (normal_draw d2 g4) as [[e3 d3] g5].
      reflexivity.
  - unfold Ring.step, Ring.neural_noise.
    destruct (Rlt_dec 0 (Ring.noise_sigma_ (attractor_ b))) as [Hr|Hr].
    + destruct (normal_draws 8 _ (rng_ b)) as [[ne de] g2].
      destruct (normal_draw (normal_new 0 1) g2) as [[e1 d1] g3].
      destruct (normal_draw d1 g3) as [[e2 d2] g4].
      destruct (normal_draw d2 g4) as [[e3 d3] g5].
      reflexivity.
    + destruct (normal_draw (normal_new 0 1) (rng_ b)) as [[e1 d1] g3].
      destruct (normal_draw d1 g3) as [[e2 d2] g4].
      destruct (normal_draw d2 g4) as [[e3 d3] g5].
      reflexivity.
Qed.

Lemma step_as_given : forall dt l b,
  step dt l b
  = step_given dt l b (fst (draw_step_noise b (rng_ b)))
                      (snd (draw_step_noise b (rng_ b))).
Proof.
  intros dt l b. rewrite step_draws.
  destruct (draw_step_noise b (rng_ b)) as [nz g']. reflexivity.
Qed.

Lemma step_history : forall dt l b,
  history_ (snd (step dt l b))
  = history_ b ++ [snapshot l b (snd (step dt l b))].
Proof. intros dt l b. rewrite step_as_given. reflexivity. Qed.

Lemma step_result : forall dt l b,
  fst (step dt l b)
  = Landscape.in_bounds l (x_ (snd (step dt l b))) (y_ (snd (step dt l b))).
Proof. intros dt l b. rewrite step_as_given. reflexivity. Qed.

Lemma step_position : forall dt l b,
  let b' := snd (step dt l b) in
  let nz := fst (draw_step_noise b (rng_ b)) in
  x_ b' = x_ b + (speed_ b * cos (heading_ b') * dt
                  + sigma_xy_ b * sqrt dt * eta_x nz)
  /\ y_ b' = y_ b + (speed_ b * sin (heading_ b') * dt
                     + sigma_xy_ b * sqrt dt * eta_y nz).
Proof. intros dt l b. cbv zeta. rewrite step_as_given. split; reflexivity. Qed.

Lemma step_keeps_motion_parameters : forall dt l b,
  let b' := snd (step dt l b) in
  speed_ b' = speed_ b /\ sigma_xy_ b' = sigma_xy_ b
  /\ sigma_theta_ b' = sigma_theta_ b /\ kappa_ b' = kappa_ b
  /\ goal_heading_ b' = goal_heading_ b /\ compass_ b' = compass_ b
  /\ params_ b' = params_ b.
Proof. intros dt l b. cbv zeta. rewrite step_as_given. repeat split. Qed.

Lemma bug_make_fields : forall p entropy,
  let b := make p entropy in
  x_ b = x0 p /\ y_ b = y0 p /\ speed_ b = speed p
  /\ sigma_xy_ b = sigma_xy p /\ params_ b = p
  /\ history_ b = [mkState (x0 p) (y0 p) (heading_ b)
                           (Ring.heading 8 (attractor_ b))
                           (Ring.bump_amplitude (attractor_ b))].
Proof.
  intros p entropy. unfold make.
  destruct (if Rle_dec 0 (heading0 p) then _ else _) as [h g1].
  destruct (Ring.make _ _ _ _ _ _ _ _ _ g1) as [a0 g2].
  destruct (Ring.reset 8 a0 h g2) as [a g3].
  cbn. repeat split.
Qed.

(** With a non-zero seed the entropy source is not consulted. *)
Lemma make_seeded : forall p e1 e2,
  seed p <> 0%N -> make p e1 = make p e2.
Proof.
  intros p e1 e2 Hs. unfold make.
  destruct (N.eqb_spec (seed p) 0) as [H0|_]; [contradiction|reflexivity].
Qed.

(** *** run *)

Lemma trunc_is_floor_as_count : forall q,
  Z.to_nat (Ztrunc q) = Z.to_nat (Int_part q).
Proof.
  intro q. unfold Ztrunc. destruct (Rle_dec 0 q) as [Hq|Hq]; [reflexivity|].
  assert (Hneg : q < 0) by lra.
  destruct (base_Int_part q) as [Hq1 _].
  destruct (base_Int_part (- q)) as [_ Hq2].
  assert (H1 : (Int_part q < 0)%Z) by (apply lt_IZR; lra).
  assert (H2 : (-1 < Int_part (- q))%Z) by (apply lt_IZR; lra).
  lia.
Qed.

Lemma run_loop_all_in_bounds : forall n dt l b,
  (forall i, (i < n)%nat -> fst (step dt l (steps i dt l b)) = true) ->
  run_loop n dt l b = (true, steps n dt l b).
Proof.
  induction n as [|n IH]; intros dt l b Hall; [reflexivity|].
  cbn [run_loop steps].
  pose proof (Hall O ltac:(lia)) as H0. cbn [steps] in H0.
  destruct (step dt l b) as [ok b'] eqn:E. cbn [fst snd] in *. subst ok.
  apply IH. intros i Hi.
  specialize (Hall (S i) ltac:(lia)). cbn [steps] in Hall.
  rewrite E in Hall. exact Hall.
Qed.

Lemma run_loop_stops : forall n dt l b k,
  (k < n)%nat ->
  (forall i, (i < k)%nat -> fst (step dt l (steps i dt l b)) = true) ->
  fst (step dt l (steps k dt l b)) = false ->
  run_loop n dt l b = (false, steps (S k) dt l b).
Proof.
  induction n as [|n IH]; intros dt l b k Hk Hbefore Hout; [lia|].
  cbn [run_loop]. destruct k as [|k].
  - cbn [steps] in *. destruct (step dt l b) as [ok b'].
    cbn [fst snd] in *. subst ok. reflexivity.
  - pose proof (Hbefore O ltac:(lia)) as H0. cbn [steps] in H0.
    change (steps (S (S k)) dt l b)
      with (steps (S k) dt l (snd (step dt l b))).
    cbn [steps] in Hout.
    destruct (step dt l b) as [ok b'] eqn:E. cbn [fst snd] in *. subst ok.
    apply IH; [lia| |exact Hout].
    intros i Hi. specialize (Hbefore (S i) ltac:(lia)).
    cbn [steps] in Hbefore. rewrite E in Hbefore. exact Hbefore.
Qed.


(** *** history *)

Lemma run_loop_history : forall n dt l b,
  exists suffix,
    history_ (snd (run_loop n dt l b)) = history_ b ++ suffix
    /\ length suffix = run_loop_steps n dt l b.
Proof.
  induction n as [|n IH]; intros dt l b; cbn [run_loop run_loop_steps].
  - exists []. rewrite app_nil_r. split; reflexivity.
  - pose proof (step_history dt l b) as Hh.
    destruct (step dt l b) as [ok b']. cbn [snd] in Hh.
    destruct ok.
    + destruct (IH dt l b') as [sfx [Hs Hl]].
      exists (snapshot l b b' :: sfx). split.
      * rewrite Hs, Hh, <- app_assoc. reflexivity.
      * cbn [length]. rewrite Hl. reflexivity.
    + exists [snapshot l b b']. split; [exact Hh|reflexivity].
Qed.

Lemma do_call_history : forall c b,
  exists suffix,
    history_ (do_call c b) = history_ b ++ suffix
    /\ length suffix = steps_of_call c b.
Proof.
  intros [dt l|l duration dt] b; cbn [do_call steps_of_call].
  - exists [snapshot l b (snd (step dt l b))]. split.
    + apply step_history.
    + reflexivity.
  - unfold run. apply run_loop_history.
Qed.

Lemma do_calls_history : forall cs b,
  exists suffix,
    history_ (do_calls cs b) = history_ b ++ suffix
    /\ length suffix = steps_taken cs b.
Proof.
  induction cs as [|c cs IH]; intro b; cbn [do_calls steps_taken].
  - exists []. rewrite app_nil_r. split; reflexivity.
  - destruct (do_call_history c b) as [s1 [H1 L1]].
    destruct (IH (do_call c b)) as [s2 [H2 L2]].
    exists (s1 ++ s2). split.
    + rewrite H2, H1, <- app_assoc. reflexivity.
    + rewrite length_app, L1, L2. reflexivity.
Qed.

(** C5: the history of a freshly constructed agent is the one snapshot of
    its initial condition; any sequence of [step] and [run] calls only
    appends to the history it finds (the earlier entries stay in place,
    unchanged), one entry per step taken, so that the length is 1 plus the
    total number of steps. *)
Theorem history_is_append_only :
  forall (p : BugParams) (entropy : N) (cs1 cs2 : list call),
    let b0 := make p entropy in
    let b1 := do_calls cs1 b0 in
    let b2 := do_calls cs2 b1 in
    history_ b0 = [mkState (x0 p) (y0 p) (heading_ b0)
                           (Ring.heading 8 (attractor_ b0))
                           (Ring.bump_amplitude (attractor_ b0))]
    /\ (exists suffix, history_ b2 = history_ b1 ++ suffix
                       /\ length suffix = steps_taken cs2 b1)
    /\ nth_error (history_ b2) 0 = nth_error (history_ b0) 0
    /\ length (history_ b2)
       = (1 + (steps_taken cs1 b0 + steps_taken cs2 b1))%nat.
Proof.
  intros p entropy cs1 cs2 b0 b1 b2.
  destruct (bug_make_fields p entropy) as (_ & _ & _ & _ & _ & H0).
  fold b0 in H0.
  destruct (do_calls_history cs1 b0) as [s1 [H1 L1]]. fold b1 in H1.
  destruct (do_calls_history cs2 b1) as [s2 [H2 L2]]. fold b2 in H2.
  split; [exact H0|]. split; [exists s2; split; assumption|]. split.
  - rewrite H2, H1, H0. reflexivity.
  - rewrite H2, H1, H0, !length_app, L1, L2. cbn [length]. lia.
Qed.

(** *** out of bounds *)

(** C10: whatever [step] returns, and so also when it returns false, the
    agent has been fully updated: the estimator and the path integrator
    are stepped, the heading and position integrations are applied, the
    snapshot of the new state is appended to the history, and the boolean
    is the bounds test of the new position; on false, the entry just
    appended lies out of bounds. *)
Theorem step_commits_state_whatever_it_returns :
  forall (dt : R) (l : Landscape.t) (b : t),
    let r := step dt l b in
    let b' := snd r in
    let nz := fst (draw_step_noise b (rng_ b)) in
    let mag_dir :=
      Landscape.direction (Landscape.magnetic_direction l (x_ b) (y_ b)) in
    let angular_command :=
      kappa_ b * sin (goal_heading_ b
                      - (Ring.heading 8 (attractor_ b) + mag_dir)) in
    attractor_ b'
    = Ring.step_with 8 (attractor_ b) dt
        (Some (Compass.read_with 8 (compass_ b) (heading_ b - mag_dir)
                                 (compass_noise nz)))
        angular_command (estimator_noise nz)
    /\ cpu4_ b'
       = Cpu4.update 8 (cpu4_ b) (Ring.heading 8 (attractor_ b')) (speed_ b) dt
    /\ heading_ b'
       = wrap_heading (heading_ b + (angular_command * dt
                                     + sigma_theta_ b * sqrt dt * eta_theta nz))
    /\ x_ b' = x_ b + (speed_ b * cos (heading_ b') * dt
                       + sigma_xy_ b * sqrt dt * eta_x nz)
    /\ y_ b' = y_ b + (speed_ b * sin (heading_ b') * dt
                       + sigma_xy_ b * sqrt dt * eta_y nz)
    /\ rng_ b' = snd (draw_step_noise b (rng_ b))
    /\ history_ b' = history_ b ++ [snapshot l b b']
    /\ fst r = Landscape.in_bounds l (x_ b') (y_ b')
    /\ (fst r = false ->
        Landscape.in_bounds l (bs_x (last (history_ b') (snapshot l b b)))
                              (bs_y (last (history_ b') (snapshot l b b)))
        = false).
Proof.
  intros dt l b r b' nz mag_dir angular_command.
  subst r b' nz mag_dir angular_command.
  rewrite step_as_given.
  repeat (split; [reflexivity|]).
  intro Hout. cbn [snd step_given history_].
  rewrite last_last. exact Hout.
Qed.

(** *** reproducibility *)

(** C2: with a non-zero seed, the agent constructed from a parameter set
    does not depend on the entropy source, so two runs through the same
    calls on the same landscapes end in the same state, trajectory
    included; and within each step the generator is consumed by the compass
    per-unit draws (if the sensor is noisy), then the estimator per-unit
    draws, then the heading, position-x and position-y draws, the step
    being otherwise a function of the state and of the values drawn. *)
Theorem seeded_runs_are_identical_and_draws_ordered :
  forall (p : BugParams),
    seed p <> 0%N ->
    (forall (e1 e2 : N) (cs : list call),
        do_calls cs (make p e1) = do_calls cs (make p e2)
        /\ history_ (do_calls cs (make p e1))
           = history_ (do_calls cs (make p e2)))
    /\ (forall (dt : R) (l : Landscape.t) (b : t),
          step dt l b
          = let '(nz, g') := draw_step_noise b (rng_ b) in
            step_given dt l b nz g').
Proof.
  intros p Hseed. split.
  - intros e1 e2 cs. rewrite (make_seeded p e1 e2 Hseed). split; reflexivity.
  - intros dt l b. apply step_draws.
Qed.

End WithRandom.

(** *** Instances *)

(** With the counting generator the values drawn in one step are their
    own positions in the stream: first the compass units, then the eight
    ring units, then heading, x and y. *)
Lemma counting_draws : forall n d c,
  @normal_draws counting n d c = (map INR (seq c n), d, (c + n)%nat).
Proof.
  induction n as [|n IH]; intros d c.
  - cbn [normal_draws seq map]. rewrite Nat.add_0_r. reflexivity.
  - cbn [normal_draws seq map]. cbn [normal_draw counting].
    rewrite IH. rewrite Nat.add_succ_r. reflexivity.
Qed.

Lemma counting_draw_positions : forall (b : @t counting) (c : nat),
  0 < Compass.sigma_sensor_ (compass_ b) ->
  0 < Ring.noise_sigma_ (attractor_ b) ->
  let n := Compass.n_cry_ (compass_ b) in
  @draw_step_noise counting b c
  = (mkNoise (map INR (seq c n)) (map INR (seq (c + n) 8))
             (INR (c + n + 8)) (INR (c + n + 9)) (INR (c + n + 10)),
     (c + n + 11)%nat).
Proof.
  intros b c Hs Hr n. subst n. unfold draw_step_noise.
  destruct (Rlt_dec 0 (Compass.sigma_sensor_ (compass_ b))); [|contradiction].
  destruct (Rlt_dec 0 (Ring.noise_sigma_ (attractor_ b))); [|contradiction].
  rewrite !counting_draws. cbn [normal_draw counting normal_new].
  repeat f_equal; lia.
Qed.

Lemma quotient_1_5 : Z.to_nat (Int_part (0.015 / 0.01)) = 1%nat.
Proof.
  rewrite <- (Int_part_spec (0.015 / 0.01) 1); [reflexivity|]. lra.
Qed.

Lemma quiet_first_step_in_bounds :
  fst (@step counting 0.01 Landscape.default (@make counting quiet_params 0))
  = true.
Proof.
  rewrite step_result.
  destruct (@step_position counting 0.01 Landscape.default
              (@make counting quiet_params 0)) as [Hx Hy].
  destruct (@bug_make_fields counting quiet_params 0)
    as (Hx0 & Hy0 & Hsp & Hsx & _).
  rewrite Hx, Hy, Hx0, Hy0, Hsp, Hsx. cbn [x0 y0 speed sigma_xy quiet_params].
  set (h := heading_ _).
  pose proof (COS_bound h) as [Hc1 Hc2]. pose proof (SIN_bound h) as [Hs1 Hs2].
  unfold Landscape.in_bounds, Landscape.default, Landscape.make, Rleb.
  cbn [Landscape.width_ Landscape.height_].
  repeat (destruct (Rle_dec _ _) as [_|Hn]; [|exfalso; apply Hn; nra]).
  reflexivity.
Qed.


Lemma seeded_runs_witness :
  seed quiet_params <> 0%N
  /\ history_ (@do_calls counting
                 [Step 0.01 Landscape.default;
                  Run Landscape.default 0.5 0.01]
                 (@make counting quiet_params 7))
     = history_ (@do_calls counting
                   [Step 0.01 Landscape.default;
                    Run Landscape.default 0.5 0.01]
                   (@make counting quiet_params 8)).
Proof.
  assert (Hs : seed quiet_params <> 0%N) by (cbn [seed quiet_params]; lia).
  split; [exact Hs|].
  exact (proj2 (proj1 (@seeded_runs_are_identical_and_draws_ordered
                         counting quiet_params Hs) 7%N 8%N _)).
Defined.

Lemma step_out_of_bounds_witness :
  fst (@step counting 0.01 Landscape.default (@make counting outside_params 0))
  = false
  /\ length (history_ (snd (@step counting 0.01 Landscape.default
                              (@make counting outside_params 0)))) = 2%nat.
Proof.
  pose proof (@step_commits_state_whatever_it_returns counting 0.01
                Landscape.default (@make counting outside_params 0)) as H.
  cbv zeta in H.
  destruct H as (_ & _ & _ & Hx & _ & _ & Hh & Hr & _).
  destruct (@bug_make_fields counting outside_params 0)
    as (Hx0 & _ & Hsp & Hsx & _ & Hh0).
  split.
  - rewrite Hr, Hx, Hx0, Hsp, Hsx. cbn [x0 speed sigma_xy outside_params].
    unfold Landscape.in_bounds, Rleb.
    destruct (Rle_dec 0 _) as [Hle|_]; [exfalso; lra|]. reflexivity.
  - rewrite Hh, Hh0. reflexivity.
Defined.

End AgentFacts.

(** ** Angles between the units and the wrap *)

Module AngleFacts.

Lemma cos_shift_Z : forall x (k : Z), cos (x + IZR k * (2 * PI)) = cos x.
Proof.
  intros x k. destruct (Z_le_gt_dec 0 k) as [Hk|Hk].
  - rewrite <- (Z2Nat.id k Hk), <- INR_IZR_INZ.
    replace (x + INR (Z.to_nat k) * (2 * PI))
      with (x + 2 * INR (Z.to_nat k) * PI) by ring.
    apply cos_period.
  - rewrite <- (cos_period (x + IZR k * (2 * PI)) (Z.to_nat (- k))).
    f_equal. rewrite INR_IZR_INZ, Z2Nat.id by lia. rewrite opp_IZR. ring.
Qed.

Lemma wrap_pi_shift : forall d, exists k : Z, wrap_pi d = d + IZR k * (2 * PI).
Proof.
  intro d. unfold wrap_pi, fmod. cbv zeta.
  set (k := Ztrunc ((d + PI) / (2 * PI))).
  destruct (Rlt_dec _ 0).
  - exists (1 - k)%Z. rewrite minus_IZR. ring.
  - exists (- k)%Z. rewrite opp_IZR. ring.
Qed.

Lemma cos_wrap_pi : forall d, cos (wrap_pi d) = cos d.
Proof.
  intro d. destruct (wrap_pi_shift d) as [k ->]. apply cos_shift_Z.
Qed.

Lemma cos_PI8_bounds : s2 <= cos (PI / 8) <= 1.
Proof.
  pose proof PI_RGT_0 as Hpi. split.
  - rewrite <- cos_PI4'. apply cos_decr_1; lra.
  - apply COS_bound.
Qed.

Lemma cos_3PI8_bounds : 0 <= cos (3 * (PI / 8)) <= cos (PI / 8).
Proof.
  pose proof PI_RGT_0 as Hpi. split.
  - apply cos_ge_0; lra.
  - apply cos_decr_1; lra.
Qed.

Lemma tan_PI8 : tan (PI / 8) = 2 * s2 - 1.
Proof.
  pose proof PI_RGT_0 as Hpi.
  assert (Hc : 0 < cos (PI / 8)) by (apply cos_gt_0; lra).
  pose proof (sin_2a (PI / 8)) as Hs2a.
  pose proof (cos_2a_cos (PI / 8)) as Hc2a.
  replace (2 * (PI / 8)) with (PI / 4) in Hs2a, Hc2a by lra.
  rewrite sin_PI4' in Hs2a. rewrite cos_PI4' in Hc2a.
  pose proof s2_sq as Hsq.
  unfold tan.
  set (c := cos (PI / 8)) in *. set (s := sin (PI / 8)) in *.
  apply Rmult_eq_reg_r with c; [|lra].
  replace (s / c * c) with s by (field; lra).
  apply Rmult_eq_reg_l with (2 * c); [|lra].
  transitivity s2; [lra|].
  transitivity ((2 * s2 - 1) * (2 * c * c)); [|ring].
  replace (2 * c * c) with (s2 + 1) by lra.
  transitivity (2 * (s2 * s2) + s2 - 1); [lra|ring].
Qed.

Lemma atan_tan_PI8 : atan (2 * s2 - 1) = PI / 8.
Proof.
  rewrite <- tan_PI8. apply atan_tan.
  pose proof PI_RGT_0. lra.
Qed.

Lemma sin_shift_Z : forall x (k : Z), sin (x + IZR k * (2 * PI)) = sin x.
Proof.
  intros x k. destruct (Z_le_gt_dec 0 k) as [Hk|Hk].
  - rewrite <- (Z2Nat.id k Hk), <- INR_IZR_INZ.
    replace (x + INR (Z.to_nat k) * (2 * PI))
      with (x + 2 * INR (Z.to_nat k) * PI) by ring.
    apply sin_period.
  - rewrite <- (sin_period (x + IZR k * (2 * PI)) (Z.to_nat (- k))).
    f_equal. rewrite INR_IZR_INZ, Z2Nat.id by lia. rewrite opp_IZR. ring.
Qed.

Lemma tan_shift_PI : forall x, cos x <> 0 -> tan (x + PI) = tan x.
Proof.
  intros x Hc. unfold tan. rewrite neg_sin, neg_cos. field. assumption.
Qed.

Ltac atan2_branches :=
  repeat match goal with
         | |- context [Rlt_dec ?a ?b] => destruct (Rlt_dec a b)
         | |- context [Rle_dec ?a ?b] => destruct (Rle_dec a b)
         end.

(** [atan2] of a vector given in polar form, for an angle in [[-pi, pi)]. *)
Lemma atan2_polar_core : forall rho beta,
  0 < rho -> - PI <= beta < PI ->
  atan2 (rho * sin beta) (rho * cos beta) = beta
  \/ atan2 (rho * sin beta) (rho * cos beta) = beta + 2 * PI.
Proof.
  intros rho beta Hrho [Hlo Hhi].
  pose proof PI_RGT_0 as Hpi.
  assert (Hquot : forall c, c <> 0 ->
                            rho * sin beta / (rho * c) = sin beta / c)
    by (intros c Hc; field; split; lra).
  destruct (Rtotal_order beta (- PI)) as [H|[H|H]]; [lra| |].
  { (* beta = -pi *)
    right. subst beta. rewrite sin_neg, cos_neg, sin_PI, cos_PI.
    rewrite Ropp_0, Rmult_0_r.
    unfold atan2. atan2_branches; try lra.
    unfold Rdiv. rewrite Rmult_0_l, atan_0. lra. }
  left.
  destruct (Rtotal_order beta (- (PI / 2))) as [H1|[H1|H1]].
  - (* third quadrant *)
    assert (Hc : cos beta < 0).
    { rewrite <- cos_neg. apply cos_lt_0; lra. }
    assert (Hs : sin beta < 0) by (apply sin_lt_0_var; lra).
    unfold atan2.
    destruct (Rlt_dec 0 (rho * cos beta)); [nra|].
    destruct (Rlt_dec (rho * cos beta) 0); [|nra].
    destruct (Rle_dec 0 (rho * sin beta)); [nra|].
    rewrite Hquot by lra.
    change (sin beta / cos beta) with (tan beta).
    rewrite <- tan_shift_PI by lra.
    rewrite atan_tan by lra. lra.
  - (* beta = -pi/2 *)
    subst beta. rewrite sin_neg, cos_neg, sin_PI2, cos_PI2.
    unfold atan2. atan2_branches; lra.
  - destruct (Rtotal_order beta (PI / 2)) as [H2|[H2|H2]].
    + (* right half plane *)
      assert (Hc : 0 < cos beta) by (apply cos_gt_0; lra).
      unfold atan2.
      destruct (Rlt_dec 0 (rho * cos beta)); [|nra].
      rewrite Hquot by lra.
      change (sin beta / cos beta) with (tan beta).
      apply atan_tan. lra.
    + (* beta = pi/2 *)
      subst beta. rewrite sin_PI2, cos_PI2.
      unfold atan2. atan2_branches; lra.
    + (* second quadrant *)
      assert (Hc : cos beta < 0) by (apply cos_lt_0; lra).
      assert (Hs : 0 < sin beta) by (apply sin_gt_0; lra).
      unfold atan2.
      destruct (Rlt_dec 0 (rho * cos beta)); [nra|].
      destruct (Rlt_dec (rho * cos beta) 0); [|nra].
      destruct (Rle_dec 0 (rho * sin beta)); [|nra].
      rewrite Hquot by lra.
      change (sin beta / cos beta) with (tan beta).
      assert (Hc' : cos (beta - PI) <> 0).
      { replace (beta - PI) with (- (PI - beta)) by ring.
        rewrite cos_neg. unfold Rminus. rewrite Rplus_comm, neg_cos.
        rewrite cos_neg. lra. }
      replace beta with ((beta - PI) + PI) at 1 by ring.
      rewrite tan_shift_PI by assumption.
      rewrite atan_tan by lra. lra.
Qed.

(** ... and for any angle, up to a multiple of 2 pi. *)
Lemma atan2_polar : forall rho alpha,
  0 < rho ->
  exists k : Z,
    atan2 (rho * sin alpha) (rho * cos alpha) = alpha + IZR k * (2 * PI).
Proof.
  intros rho alpha Hrho. pose proof PI_RGT_0 as Hpi.
  destruct (euclidian_division (alpha + PI) (2 * PI) ltac:(lra))
    as (m & r & Heq & Hr).
  rewrite Rabs_right in Hr by lra.
  set (beta := r - PI).
  assert (Halpha : alpha = beta + IZR m * (2 * PI)) by (unfold beta; lra).
  assert (Hsin : sin alpha = sin beta)
    by (rewrite Halpha; apply sin_shift_Z).
  assert (Hcos : cos alpha = cos beta)
    by (rewrite Halpha; apply cos_shift_Z).
  destruct (atan2_polar_core rho beta Hrho ltac:(unfold beta; lra))
    as [Hb | Hb].
  - exists (- m)%Z. rewrite Hsin, Hcos, Hb, opp_IZR, Halpha. ring.
  - exists (1 - m)%Z. rewrite Hsin, Hcos, Hb, minus_IZR, Halpha. ring.
Qed.

End AngleFacts.
Import AngleFacts.

(** ** ring_attractor.hpp: the bump between two units *)

Module BumpFacts.
Import Ring.

Ltac rectified_entry :=
  rewrite cos_minus; autorewrite with octant;
  unfold fmax;
  match goal with |- context [Rlt_dec ?a ?b] => destruct (Rlt_dec a b) end;
  nra.

(** The excitatory weights of eight units: a symmetric circulant matrix
    with [w] on the diagonal and [w / sqrt 2] next to it. *)
Lemma W8 : forall w,
  init_W 8 w (init_theta 8)
  = [ [w * 1; w * s2; w * 0; w * 0; w * 0; w * 0; w * 0; w * s2];
      [w * s2; w * 1; w * s2; w * 0; w * 0; w * 0; w * 0; w * 0];
      [w * 0; w * s2; w * 1; w * s2; w * 0; w * 0; w * 0; w * 0];
      [w * 0; w * 0; w * s2; w * 1; w * s2; w * 0; w * 0; w * 0];
      [w * 0; w * 0; w * 0; w * s2; w * 1; w * s2; w * 0; w * 0];
      [w * 0; w * 0; w * 0; w * 0; w * s2; w * 1; w * s2; w * 0];
      [w * 0; w * 0; w * 0; w * 0; w * 0; w * s2; w * 1; w * s2];
      [w * s2; w * 0; w * 0; w * 0; w * 0; w * 0; w * s2; w * 1] ].
Proof.
  intro w. unfold init_W, init_theta. rewrite angles_8.
  pose proof s2_sq as Hsq. pose proof s2_pos as Hpos.
  cbn [seq map nth].
  repeat (apply f_equal2; [|try reflexivity]);
    try reflexivity; rectified_entry.
Qed.

(** Two units whose drives are equal as real numbers relax alike. *)
Ltac same_drive :=
  match goal with
  | |- clamp (_ + (_ + clamp ?x 0 1) / _ * _) 0 1
       = clamp (_ + (_ + clamp ?y 0 1) / _ * _) 0 1 =>
      replace x with y by (unfold Rdiv; ring); reflexivity
  end.

(** The rate update of one unit, as a function of its rate and drive. *)
Lemma relax_up : forall r e tau dt,
  0 < tau -> 0 <= dt -> 0 <= r <= 1 -> r <= e ->
  r <= clamp (r + (- r + clamp e 0 1) / tau * dt) 0 1 <= 1.
Proof.
  intros r e tau dt Htau Hdt Hr He.
  assert (Ha : r <= clamp e 0 1 <= 1).
  { unfold clamp. destruct (Rlt_dec e 0); [lra|]. destruct (Rlt_dec 1 e); lra. }
  assert (Hd : 0 <= (- r + clamp e 0 1) / tau * dt).
  { apply Rmult_le_pos; [|assumption].
    unfold Rdiv. apply Rmult_le_pos; [lra|].
    left. apply Rinv_0_lt_compat. assumption. }
  set (v := r + (- r + clamp e 0 1) / tau * dt).
  assert (Hv : r <= v) by (unfold v; lra).
  unfold clamp.
  destruct (Rlt_dec v 0); [lra|]. destruct (Rlt_dec 1 v); lra.
Qed.

Lemma relax_down : forall r e tau dt,
  0 < tau -> 0 <= dt -> 0 <= r <= 1 -> e <= r ->
  0 <= clamp (r + (- r + clamp e 0 1) / tau * dt) 0 1 <= r.
Proof.
  intros r e tau dt Htau Hdt Hr He.
  assert (Ha : 0 <= clamp e 0 1 <= r).
  { unfold clamp. destruct (Rlt_dec e 0); [lra|]. destruct (Rlt_dec 1 e); lra. }
  assert (Hd : 0 <= (r - clamp e 0 1) / tau * dt).
  { apply Rmult_le_pos; [|assumption].
    unfold Rdiv. apply Rmult_le_pos; [lra|].
    left. apply Rinv_0_lt_compat. assumption. }
  set (v := r + (- r + clamp e 0 1) / tau * dt).
  assert (Hv : v <= r).
  { unfold v.
    replace ((- r + clamp e 0 1) / tau * dt)
      with (- ((r - clamp e 0 1) / tau * dt)) by (unfold Rdiv; ring).
    lra. }
  unfold clamp.
  destruct (Rlt_dec v 0); [lra|]. destruct (Rlt_dec 1 v); lra.
Qed.

Lemma relax_off : forall e tau dt,
  e <= 0 -> clamp (0 + (- 0 + clamp e 0 1) / tau * dt) 0 1 = 0.
Proof.
  intros e tau dt He.
  assert (Ha : clamp e 0 1 = 0).
  { unfold clamp. destruct (Rlt_dec e 0); [lra|]. destruct (Rlt_dec 1 e); lra. }
  rewrite Ha.
  replace (0 + (- 0 + 0) / tau * dt) with 0 by (unfold Rdiv; ring).
  unfold clamp. destruct (Rlt_dec 0 0); [lra|]. destruct (Rlt_dec 1 0); lra.
Qed.

(** One noise-free, input-free step keeps the bump between units 0 and 1:
    the two central rates do not decrease, the flanks do not increase. *)
Lemma idle_step_keeps_bump : forall a dt p q,
  configured a -> bump_0_1 a p q -> 0 <= dt ->
  exists p' q',
    bump_0_1 (step_with 8 a dt None 0 (repeat 0 8)) p' q'
    /\ p <= p' /\ q' <= q.
Proof.
  intros a dt p q (Hth & HW & Hinh & Hthr & Hmax & Hsig & Htau)
         (Hr & Hp & Hq) Hdt.
  pose proof s2_bounds as Hs.
  unfold bump_0_1, step_with, excitation, inhibition, magnetic_input,
    omega_input, update_rate.
  destruct (Req_dec_T 0 0) as [_|Hn]; [|lra].
  cbn [r_ set_r r_max_ tau_ threshold_ w_inh_ W_exc_].
  rewrite HW, W8, Hr, Hinh, Hthr, Hmax.
  replace (INR 8) with 8 by (simpl; lra).
  cbn [seq map fold_left nth repeat].
  eexists. eexists.
  split; [split; [|split]|split].
  - (* the shape of the new rate vector *)
    apply f_equal2; [reflexivity|].
    apply f_equal2; [same_drive|].
    apply f_equal2; [reflexivity|].
    do 4 (apply f_equal2; [apply relax_off; nra|]).
    apply f_equal2; [same_drive|reflexivity].
  - match goal with
    | |- _ <= clamp (p + (- p + clamp ?e 0 1) / _ * _) 0 1 <= _ =>
        pose proof (relax_up p e (tau_ a) dt Htau Hdt ltac:(lra) ltac:(nra))
    end. lra.
  - match goal with
    | |- _ <= clamp (q + (- q + clamp ?e 0 1) / _ * _) 0 1
         <= clamp (p + (- p + clamp ?e' 0 1) / _ * _) 0 1 =>
        pose proof (relax_down q e (tau_ a) dt Htau Hdt ltac:(lra) ltac:(nra));
        pose proof (relax_up p e' (tau_ a) dt Htau Hdt ltac:(lra) ltac:(nra))
    end. lra.
  - match goal with
    | |- _ <= clamp (p + (- p + clamp ?e 0 1) / _ * _) 0 1 =>
        pose proof (relax_up p e (tau_ a) dt Htau Hdt ltac:(lra) ltac:(nra))
    end. lra.
  - match goal with
    | |- clamp (q + (- q + clamp ?e 0 1) / _ * _) 0 1 <= _ =>
        pose proof (relax_down q e (tau_ a) dt Htau Hdt ltac:(lra) ltac:(nra))
    end. lra.
Qed.

Lemma step_with_configured : forall a dt ci av nz,
  configured a -> configured (step_with 8 a dt ci av nz).
Proof. intros a dt ci av nz H. exact H. Qed.

(** The population vector of such a bump points to pi/8. *)
Lemma heading_of_bump : forall a p q,
  configured a -> bump_0_1 a p q -> heading 8 a = PI / 8.
Proof.
  intros a p q (Hth & _) (Hr & Hp & Hq).
  pose proof s2_bounds as Hs. pose proof s2_sq as Hsq.
  pose proof PI_RGT_0 as Hpi.
  unfold heading, population_vector. rewrite Hth, Hr.
  unfold init_theta. rewrite angles_8.
  cbn [seq fold_left nth]. unfold cadd_scaled, polar. cbn [fst snd].
  autorewrite with octant.
  unfold cabs, carg. cbn [fst snd].
  set (x := 0 + p * 1 + p * s2 + q * 0 + 0 * - s2 + 0 * -1 + 0 * - s2
            + 0 * 0 + q * s2).
  set (y := 0 + p * 0 + p * s2 + q * 1 + 0 * s2 + 0 * 0 + 0 * - s2
            + 0 * -1 + q * - s2).
  assert (Hx : 0.35 <= x) by (unfold x; nra).
  assert (Hy : y = (2 * s2 - 1) * x).
  { unfold x, y.
    transitivity (p * s2 + q * (1 - s2)); [ring|].
    transitivity (p * (2 * (s2 * s2) + s2 - 1) + q * (2 * (s2 * s2) - s2));
      [rewrite Hsq; field|ring]. }
  destruct (Rlt_dec (sqrt (x * x + y * y)) 1e-10) as [Hsmall|_].
  - exfalso.
    assert (Hnn : 0 <= x * x + y * y) by nra.
    pose proof (sqrt_def _ Hnn) as Hd. pose proof (sqrt_pos (x * x + y * y)).
    nra.
  - rewrite atan2_pos_x by lra.
    replace (y / x) with (2 * s2 - 1) by (rewrite Hy; field; lra).
    rewrite atan_tan_PI8.
    destruct (Rlt_dec (PI / 8) 0); [lra|reflexivity].
Qed.

(** *** A bump seeded between a unit and the next midpoint *)

Lemma clamp_mono : forall v v', v' <= v -> clamp v' 0 1 <= clamp v 0 1.
Proof.
  intros v v' Hv. unfold clamp.
  destruct (Rlt_dec v' 0); destruct (Rlt_dec v 0);
    destruct (Rlt_dec 1 v'); destruct (Rlt_dec 1 v); lra.
Qed.

(** For [dt <= tau] the relaxation is monotone in the rate and the drive. *)
Lemma relax_mono : forall r r' e e' tau dt,
  0 < tau -> 0 <= dt <= tau -> r' <= r -> e' <= e ->
  clamp (r' + (- r' + clamp e' 0 1) / tau * dt) 0 1
  <= clamp (r + (- r + clamp e 0 1) / tau * dt) 0 1.
Proof.
  intros r r' e e' tau dt Htau Hdt Hr He.
  apply clamp_mono.
  pose proof (clamp_mono e e' He) as HA.
  set (A := clamp e 0 1) in *. set (A' := clamp e' 0 1) in *.
  assert (Hk : 0 <= dt / tau <= 1).
  { split.
    - apply Rmult_le_pos; [lra|]. left. apply Rinv_0_lt_compat. assumption.
    - apply Rmult_le_reg_r with tau; [assumption|].
      unfold Rdiv. rewrite Rmult_assoc, Rinv_l by lra. lra. }
  set (k := dt / tau) in *.
  replace ((- r' + A') / tau * dt) with ((- r' + A') * k)
    by (unfold k, Rdiv; ring).
  replace ((- r + A) / tau * dt) with ((- r + A) * k)
    by (unfold k, Rdiv; ring).
  assert (0 <= (r - r') * (1 - k)) by (apply Rmult_le_pos; lra).
  assert (0 <= (A - A') * k) by (apply Rmult_le_pos; lra).
  lra.
Qed.

(** One idle step of at most [tau] keeps a leaning bump leaning. *)
Lemma idle_step_keeps_leaning : forall a dt r0 r1 r2 r7,
  configured a -> bump_leaning a r0 r1 r2 r7 -> 0 <= dt <= tau_ a ->
  exists r0' r1' r2' r7',
    bump_leaning (step_with 8 a dt None 0 (repeat 0 8)) r0' r1' r2' r7'.
Proof.
  intros a dt r0 r1 r2 r7 (Hth & HW & Hinh & Hthr & Hmax & Hsig & Htau)
         (Hr & H2 & H27 & H71 & H10 & H0) Hdt.
  pose proof s2_bounds as Hs.
  unfold bump_leaning, step_with, excitation, inhibition, magnetic_input,
    omega_input, update_rate.
  destruct (Req_dec_T 0 0) as [_|Hn]; [|lra].
  cbn [r_ set_r r_max_ tau_ threshold_ w_inh_ W_exc_].
  rewrite HW, W8, Hr, Hinh, Hthr, Hmax.
  replace (INR 8) with 8 by (simpl; lra).
  cbn [seq map fold_left nth repeat].
  do 4 eexists.
  split; [|split; [|split; [|split; [|split]]]].
  - do 3 (apply f_equal2; [reflexivity|]).
    do 4 (apply f_equal2; [apply relax_off; nra|]).
    reflexivity.
  - apply clamp_range. lra.
  - apply relax_mono; [assumption|assumption|lra|nra].
  - apply relax_mono; [assumption|assumption|lra|nra].
  - apply relax_mono; [assumption|assumption|lra|nra].
  - apply clamp_range. lra.
Qed.

(** The population vector of a leaning bump points into [[0, pi/8]]. *)
Lemma heading_of_leaning : forall a r0 r1 r2 r7,
  configured a -> bump_leaning a r0 r1 r2 r7 ->
  0 <= heading 8 a <= PI / 8.
Proof.
  intros a r0 r1 r2 r7 (Hth & _) (Hr & H2 & H27 & H71 & H10 & H0).
  pose proof s2_bounds as Hs. pose proof s2_sq as Hsq.
  pose proof PI_RGT_0 as Hpi.
  unfold heading, population_vector. rewrite Hth, Hr.
  unfold init_theta. rewrite angles_8.
  cbn [seq fold_left nth]. unfold cadd_scaled, polar. cbn [fst snd].
  autorewrite with octant.
  unfold cabs, carg. cbn [fst snd].
  set (x := 0 + r0 * 1 + r1 * s2 + r2 * 0 + 0 * - s2 + 0 * -1 + 0 * - s2
            + 0 * 0 + r7 * s2).
  set (y := 0 + r0 * 0 + r1 * s2 + r2 * 1 + 0 * s2 + 0 * 0 + 0 * - s2
            + 0 * -1 + r7 * - s2).
  assert (Hx : r0 <= x) by (unfold x; nra).
  assert (Hy0 : 0 <= y) by (unfold y; nra).
  assert (Hyx : y <= (2 * s2 - 1) * x).
  { assert (Hd : (2 * s2 - 1) * x - y
                 = (2 * s2 - 1) * (r0 - r1) + (r7 - r2)).
    { unfold x, y.
      transitivity ((2 * s2 - 1) * r0 + (2 * (s2 * s2) - 2 * s2) * r1
                    + (2 * (s2 * s2)) * r7 - r2); [ring|].
      rewrite Hsq. field. }
    assert (0 <= (2 * s2 - 1) * (r0 - r1)) by (apply Rmult_le_pos; lra).
    lra. }
  destruct (Rlt_dec (sqrt (x * x + y * y)) 1e-10) as [_|Hbig]; [lra|].
  assert (Hxpos : 0 < x).
  { destruct (Rle_lt_dec x 0) as [Hx0|Hx0]; [|assumption].
    exfalso. apply Hbig.
    assert (x = 0) by lra.
    assert (y = 0) by nra.
    replace (x * x + y * y) with 0 by nra.
    rewrite sqrt_0. lra. }
  rewrite atan2_pos_x by assumption.
  assert (Hq0 : 0 <= y / x).
  { apply Rmult_le_pos; [lra|]. left. apply Rinv_0_lt_compat. assumption. }
  assert (Hq1 : y / x <= 2 * s2 - 1).
  { apply Rmult_le_reg_r with x; [assumption|].
    unfold Rdiv. rewrite Rmult_assoc, Rinv_l by lra. lra. }
  assert (Ha0 : 0 <= atan (y / x)).
  { destruct Hq0 as [Hlt|Heq].
    - left. apply atan_pos. assumption.
    - rewrite <- Heq, atan_0. lra. }
  assert (Ha1 : atan (y / x) <= PI / 8).
  { rewrite <- atan_tan_PI8. destruct Hq1 as [Hlt|Heq].
    - left. apply atan_increasing. assumption.
    - rewrite Heq. lra. }
  destruct (Rlt_dec (atan (y / x)) 0); lra.
Qed.

Section WithRandom.
Context {RS : RandomSource}.

Lemma make_configured : forall tau w_exc w_inh g_mag g_omega g,
  let a := fst (make 8 tau w_exc w_inh g_mag g_omega 0 1 0 g) in
  theta_ a = init_theta 8 /\ W_exc_ a = init_W 8 w_exc (init_theta 8)
  /\ w_inh_ a = w_inh /\ threshold_ a = 0 /\ r_max_ a = 1
  /\ noise_sigma_ a = 0 /\ tau_ a = tau.
Proof.
  intros tau w_exc w_inh g_mag g_omega g. unfold make, init_bump.
  destruct (uniform_int _ _ g) as [idx g']. cbn. repeat split.
Qed.

(** [reset (pi / 8)] seeds a bump between units 0 and 1. *)
Lemma reset_between_units : forall a g,
  configured a ->
  configured (fst (reset 8 a (PI / 8) g))
  /\ bump_0_1 (fst (reset 8 a (PI / 8) g))
              (0.5 * cos (PI / 8)) (0.5 * cos (3 * (PI / 8))).
Proof.
  intros a g Hconf. pose proof Hconf as (Hth & _).
  pose proof PI_RGT_0 as Hpi.
  pose proof cos_PI8_bounds as Hc1. pose proof cos_3PI8_bounds as Hc3.
  pose proof s2_bounds as Hs.
  unfold reset. destruct (Rle_dec 0 (PI / 8)) as [_|Hn]; [|lra].
  cbn [fst]. split; [exact Hconf|].
  unfold bump_0_1. cbn [r_ set_r]. split; [|lra].
  unfold cosine_bump. cbn [theta_ set_r]. rewrite Hth.
  unfold init_theta. rewrite angles_8. cbn [seq map nth].
  assert (Hneg : forall x, PI / 2 <= x <= 3 * (PI / 2) ->
                           fmax 0 (0.5 * cos x) = 0).
  { intros x [Hx1 Hx2]. pose proof (cos_le_0 x Hx1 Hx2).
    unfold fmax. destruct (Rlt_dec 0 (0.5 * cos x)); lra. }
  assert (Hpos : forall c, 0 <= c -> fmax 0 (0.5 * c) = 0.5 * c).
  { intros c Hc. unfold fmax. destruct (Rlt_dec 0 (0.5 * c)); lra. }
  rewrite !cos_wrap_pi.
  repeat apply f_equal2; try reflexivity.
  - replace (0 - PI / 8) with (- (PI / 8)) by lra. rewrite cos_neg.
    apply Hpos. lra.
  - replace (PI / 4 - PI / 8) with (PI / 8) by lra. apply Hpos. lra.
  - replace (PI / 2 - PI / 8) with (3 * (PI / 8)) by lra. apply Hpos. lra.
  - apply Hneg. lra.
  - apply Hneg. lra.
  - apply Hneg. lra.
  - apply Hneg. lra.
  - replace (PI + 3 * (PI / 4) - PI / 8)
      with (- (3 * (PI / 8)) + 2 * INR 1 * PI) by (simpl; lra).
    rewrite cos_period, cos_neg. apply Hpos. lra.
Qed.

Lemma idle_step_is_step_with : forall a dt g,
  noise_sigma_ a = 0 ->
  step 8 a dt None 0 g = (step_with 8 a dt None 0 (repeat 0 8), g).
Proof.
  intros a dt g Hsig. unfold step, neural_noise. rewrite Hsig.
  destruct (Rlt_dec 0 0) as [Hlt|_]; [lra|reflexivity].
Qed.

Lemma idle_steps_keep_bump : forall n a dt g p q,
  configured a -> bump_0_1 a p q -> 0 <= dt ->
  exists p' q',
    configured (fst (idle_steps 8 n a dt g))
    /\ bump_0_1 (fst (idle_steps 8 n a dt g)) p' q'.
Proof.
  induction n as [|n IH]; intros a dt g p q Hconf Hbump Hdt.
  - exists p, q. split; assumption.
  - cbn [idle_steps].
    rewrite idle_step_is_step_with by apply Hconf.
    destruct (idle_step_keeps_bump a dt p q Hconf Hbump Hdt)
      as (p' & q' & Hb' & _ & _).
    apply (IH _ dt g p' q');
      [apply step_with_configured; assumption|assumption|assumption].
Qed.

Lemma make_is_configured : forall tau g_mag g_omega g,
  0 < tau ->
  configured (fst (make 8 tau 1.5 4.5 g_mag g_omega 0 1 0 g)).
Proof.
  intros tau g_mag g_omega g Htau.
  destruct (make_configured tau 1.5 4.5 g_mag g_omega g)
    as (H1 & H2 & H3 & H4 & H5 & H6 & H7).
  unfold configured. rewrite H7. repeat split; assumption.
Qed.

(** [reset h] with [h] in [[0, pi/8]] seeds a leaning bump. *)
Lemma reset_leaning : forall a h g,
  configured a -> 0 <= h <= PI / 8 ->
  configured (fst (reset 8 a h g))
  /\ bump_leaning (fst (reset 8 a h g))
       (0.5 * cos (0 - h)) (0.5 * cos (PI / 4 - h))
       (0.5 * cos (PI / 2 - h)) (0.5 * cos (PI + 3 * (PI / 4) - h)).
Proof.
  intros a h g Hconf Hh. pose proof Hconf as (Hth & _).
  pose proof PI_RGT_0 as Hpi.
  unfold reset. destruct (Rle_dec 0 h) as [_|Hn]; [|lra].
  cbn [fst]. split; [exact Hconf|].
  assert (C0 : cos (PI / 4 - h) <= cos (0 - h)).
  { replace (0 - h) with (- h) by lra. rewrite cos_neg.
    apply cos_decr_1; lra. }
  assert (C7 : cos (PI + 3 * (PI / 4) - h) = cos (PI / 4 + h)).
  { replace (PI + 3 * (PI / 4) - h)
      with (- (PI / 4 + h) + 2 * INR 1 * PI) by (simpl; lra).
    rewrite cos_period, cos_neg. reflexivity. }
  assert (C1 : cos (PI / 4 + h) <= cos (PI / 4 - h))
    by (apply cos_decr_1; lra).
  assert (C2 : cos (PI / 2 - h) <= cos (PI / 4 + h))
    by (apply cos_decr_1; lra).
  assert (C3 : 0 <= cos (PI / 2 - h)) by (apply cos_ge_0; lra).
  pose proof (COS_bound (0 - h)) as [_ C4].
  unfold bump_leaning. cbn [r_ set_r].
  split; [|rewrite C7; lra].
  unfold cosine_bump. cbn [theta_ set_r]. rewrite Hth.
  unfold init_theta. rewrite angles_8. cbn [seq map nth].
  assert (Hneg : forall x, PI / 2 <= x <= 3 * (PI / 2) ->
                           fmax 0 (0.5 * cos x) = 0).
  { intros x [Hx1 Hx2]. pose proof (cos_le_0 x Hx1 Hx2).
    unfold fmax. destruct (Rlt_dec 0 (0.5 * cos x)); lra. }
  assert (Hpos : forall c, 0 <= c -> fmax 0 (0.5 * c) = 0.5 * c).
  { intros c Hc. unfold fmax. destruct (Rlt_dec 0 (0.5 * c)); lra. }
  rewrite !cos_wrap_pi.
  repeat apply f_equal2; try reflexivity.
  - apply Hpos. lra.
  - apply Hpos. lra.
  - apply Hpos. lra.
  - apply Hneg. lra.
  - apply Hneg. lra.
  - apply Hneg. lra.
  - apply Hneg. lra.
  - apply Hpos. lra.
Qed.

Lemma idle_steps_keep_leaning : forall n a dt g r0 r1 r2 r7,
  configured a -> bump_leaning a r0 r1 r2 r7 -> 0 <= dt <= tau_ a ->
  exists r0' r1' r2' r7',
    configured (fst (idle_steps 8 n a dt g))
    /\ bump_leaning (fst (idle_steps 8 n a dt g)) r0' r1' r2' r7'.
Proof.
  induction n as [|n IH]; intros a dt g r0 r1 r2 r7 Hconf Hbump Hdt.
  - exists r0, r1, r2, r7. split; assumption.
  - cbn [idle_steps].
    rewrite idle_step_is_step_with by apply Hconf.
    destruct (idle_step_keeps_leaning a dt r0 r1 r2 r7 Hconf Hbump Hdt)
      as (r0' & r1' & r2' & r7' & Hb').
    apply (IH _ dt g r0' r1' r2' r7');
      [apply step_with_configured; assumption|assumption|exact Hdt].
Qed.

Lemma bump_stays_in_sector : forall tau g_mag g_omega dt h g g' g'' n,
  0 < tau -> 0 <= dt <= tau -> 0 <= h <= PI / 8 ->
  0 <= heading 8
         (fst (idle_steps 8 n
                 (fst (reset 8 (fst (make 8 tau 1.5 4.5 g_mag g_omega 0 1 0 g))
                             h g'))
                 dt g''))
    <= PI / 8.
Proof.
  intros tau g_mag g_omega dt h g g' g'' n Htau Hdt Hh.
  pose proof (make_is_configured tau g_mag g_omega g Htau) as Hc0.
  assert (Htau0 : tau_ (fst (make 8 tau 1.5 4.5 g_mag g_omega 0 1 0 g)) = tau)
    by apply (make_configured tau 1.5 4.5 g_mag g_omega g).
  destruct (reset_leaning _ h g' Hc0 Hh) as [Hc1 Hb1].
  assert (Hdt1 : 0 <= dt
                 <= tau_ (fst (reset 8
                                 (fst (make 8 tau 1.5 4.5 g_mag g_omega 0 1 0 g))
                                 h g'))).
  { unfold reset. destruct (Rle_dec 0 h); [|lra]. cbn [fst tau_ set_r].
    rewrite Htau0. exact Hdt. }
  destruct (idle_steps_keep_leaning n _ dt g'' _ _ _ _ Hc1 Hb1 Hdt1)
    as (r0 & r1 & r2 & r7 & Hc & Hb).
  apply (heading_of_leaning _ r0 r1 r2 r7); assumption.
Qed.

Lemma bump_stable_at_PI8 : forall tau g_mag g_omega dt g g' g'' n,
  0 < tau -> 0 <= dt ->
  heading 8
    (fst (idle_steps 8 n
            (fst (reset 8 (fst (make 8 tau 1.5 4.5 g_mag g_omega 0 1 0 g))
                        (PI / 8) g'))
            dt g''))
  = PI / 8.
Proof.
  intros tau g_mag g_omega dt g g' g'' n Htau Hdt.
  pose proof (make_is_configured tau g_mag g_omega g Htau) as Hc0.
  destruct (reset_between_units _ g' Hc0) as [Hc1 Hb1].
  destruct (idle_steps_keep_bump n _ dt g'' _ _ Hc1 Hb1 Hdt)
    as (p' & q' & Hc & Hb).
  apply (heading_of_bump _ p' q'); assumption.
Qed.

(** *** Idle steps on the rate vector, and the symmetries of the ring *)

Lemma set_r_r : forall a, set_r a (r_ a) = a.
Proof. intros [? ? ? ? ? ? ? ? ? ? ?]. reflexivity. Qed.

Lemma idle_rates_set_r : forall a x dt r,
  idle_rates (set_r a x) dt r = idle_rates a dt r.
Proof. intros a x dt r. reflexivity. Qed.

Lemma idle_rates_n_set_r : forall n a x dt r,
  idle_rates_n n (set_r a x) dt r = idle_rates_n n a dt r.
Proof.
  induction n as [|n IH]; intros a x dt r; cbn [idle_rates_n]; [reflexivity|].
  rewrite IH, idle_rates_set_r. reflexivity.
Qed.

Lemma idle_step_rates : forall a dt,
  step_with 8 a dt None 0 (repeat 0 8) = set_r a (idle_rates a dt (r_ a)).
Proof.
  intros a dt. unfold idle_rates. rewrite set_r_r. reflexivity.
Qed.

Lemma idle_steps_rates : forall n a dt g,
  noise_sigma_ a = 0 ->
  fst (idle_steps 8 n a dt g) = set_r a (idle_rates_n n a dt (r_ a)).
Proof.
  induction n as [|n IH]; intros a dt g Hsig; cbn [idle_steps idle_rates_n].
  - cbn [fst]. rewrite set_r_r. reflexivity.
  - rewrite idle_step_is_step_with by assumption.
    rewrite idle_step_rates, IH by exact Hsig.
    rewrite idle_rates_n_set_r. reflexivity.
Qed.

Lemma length_8_inv : forall r : list R,
  length r = 8%nat ->
  exists r0 r1 r2 r3 r4 r5 r6 r7, r = [r0; r1; r2; r3; r4; r5; r6; r7].
Proof.
  intros r Hlen.
  do 8 (destruct r as [|? r]; [discriminate|]).
  destruct r; [|discriminate].
  do 8 eexists. reflexivity.
Qed.

Lemma length_rot : forall r, length (rot r) = length r.
Proof.
  intro r. do 8 (destruct r as [|? r]; [reflexivity|]).
  destruct r; reflexivity.
Qed.

Lemma length_mirror : forall r, length (mirror r) = length r.
Proof.
  intro r. do 8 (destruct r as [|? r]; [reflexivity|]).
  destruct r; reflexivity.
Qed.

Lemma length_rots : forall j r, length (rots j r) = length r.
Proof.
  induction j as [|j IH]; intro r; cbn [rots]; [reflexivity|].
  rewrite length_rot. apply IH.
Qed.

Lemma length_idle_rates : forall a dt r, length (idle_rates a dt r) = 8%nat.
Proof.
  intros a dt r. unfold idle_rates, step_with. cbn [r_ set_r].
  rewrite length_map, length_seq. reflexivity.
Qed.

Ltac expose_idle_rates HW Hinh Hthr Hmax :=
  unfold idle_rates, step_with, excitation, inhibition, magnetic_input,
    omega_input, update_rate;
  destruct (Req_dec_T 0 0) as [_|?]; [|lra];
  cbn [r_ set_r r_max_ tau_ threshold_ w_inh_ W_exc_];
  rewrite HW, W8, Hinh, Hthr, Hmax;
  replace (INR 8) with 8 by (simpl; lra);
  cbn [seq map fold_left nth repeat rot mirror].

(** The idle step commutes with the shift and with the mirror image. *)
Lemma idle_rates_rot : forall a dt r,
  configured a -> length r = 8%nat ->
  idle_rates a dt (rot r) = rot (idle_rates a dt r).
Proof.
  intros a dt r (Hth & HW & Hinh & Hthr & Hmax & Hsig & Htau) Hlen.
  destruct (length_8_inv r Hlen)
    as (r0 & r1 & r2 & r3 & r4 & r5 & r6 & r7 & ->).
  cbn [rot]. expose_idle_rates HW Hinh Hthr Hmax.
  repeat (apply f_equal2; [same_drive|]). reflexivity.
Qed.

Lemma idle_rates_mirror : forall a dt r,
  configured a -> length r = 8%nat ->
  idle_rates a dt (mirror r) = mirror (idle_rates a dt r).
Proof.
  intros a dt r (Hth & HW & Hinh & Hthr & Hmax & Hsig & Htau) Hlen.
  destruct (length_8_inv r Hlen)
    as (r0 & r1 & r2 & r3 & r4 & r5 & r6 & r7 & ->).
  cbn [mirror]. expose_idle_rates HW Hinh Hthr Hmax.
  repeat (apply f_equal2; [same_drive|]). reflexivity.
Qed.

Lemma idle_rates_rots : forall j a dt r,
  configured a -> length r = 8%nat ->
  idle_rates a dt (rots j r) = rots j (idle_rates a dt r).
Proof.
  induction j as [|j IH]; intros a dt r Hconf Hlen; cbn [rots]; [reflexivity|].
  rewrite idle_rates_rot by (try rewrite length_rots; assumption).
  rewrite IH by assumption. reflexivity.
Qed.

Lemma idle_rates_n_rots : forall n j a dt r,
  configured a -> length r = 8%nat ->
  idle_rates_n n a dt (rots j r) = rots j (idle_rates_n n a dt r).
Proof.
  induction n as [|n IH]; intros j a dt r Hconf Hlen; cbn [idle_rates_n];
    [reflexivity|].
  rewrite idle_rates_rots by assumption.
  apply IH; [assumption|apply length_idle_rates].
Qed.

Lemma idle_rates_n_mirror : forall n a dt r,
  configured a -> length r = 8%nat ->
  idle_rates_n n a dt (mirror r) = mirror (idle_rates_n n a dt r).
Proof.
  induction n as [|n IH]; intros a dt r Hconf Hlen; cbn [idle_rates_n];
    [reflexivity|].
  rewrite idle_rates_mirror by assumption.
  apply IH; [assumption|apply length_idle_rates].
Qed.

(** For [dt <= tau] a unit keeps its share [c] of another unit's rate
    when its own drive is at least [c]. *)
Lemma relax_ratio : forall r r' e e' tau dt c,
  0 < tau -> 0 <= dt <= tau -> 0 <= r <= 1 -> 0 <= r' <= 1 ->
  0 <= c <= 1 -> c * r <= r' -> c <= e' ->
  c * clamp (r + (- r + clamp e 0 1) / tau * dt) 0 1
  <= clamp (r' + (- r' + clamp e' 0 1) / tau * dt) 0 1.
Proof.
  intros r r' e e' tau dt c Htau Hdt Hr Hr' Hc Hrr He'.
  pose proof (clamp_range e 0 1 ltac:(lra)) as HA.
  assert (HA' : c <= clamp e' 0 1 <= 1).
  { unfold clamp. destruct (Rlt_dec e' 0); [lra|].
    destruct (Rlt_dec 1 e'); lra. }
  set (A := clamp e 0 1) in *. set (A' := clamp e' 0 1) in *.
  assert (Hk : 0 <= dt / tau <= 1).
  { split.
    - apply Rmult_le_pos; [lra|]. left. apply Rinv_0_lt_compat. assumption.
    - apply Rmult_le_reg_r with tau; [assumption|].
      unfold Rdiv. rewrite Rmult_assoc, Rinv_l by lra. lra. }
  set (k := dt / tau) in *.
  replace ((- r + A) / tau * dt) with ((- r + A) * k)
    by (unfold k, Rdiv; ring).
  replace ((- r' + A') / tau * dt) with ((- r' + A') * k)
    by (unfold k, Rdiv; ring).
  assert (P1 : 0 <= r * (1 - k)) by (apply Rmult_le_pos; lra).
  assert (P2 : 0 <= A * k) by (apply Rmult_le_pos; lra).
  assert (P3 : 0 <= (1 - r) * (1 - k)) by (apply Rmult_le_pos; lra).
  assert (P4 : 0 <= (1 - A) * k) by (apply Rmult_le_pos; lra).
  assert (Q1 : 0 <= r' * (1 - k)) by (apply Rmult_le_pos; lra).
  assert (Q2 : 0 <= A' * k) by (apply Rmult_le_pos; lra).
  assert (Q3 : 0 <= (1 - r') * (1 - k)) by (apply Rmult_le_pos; lra).
  assert (Q4 : 0 <= (1 - A') * k) by (apply Rmult_le_pos; lra).
  assert (S1 : 0 <= (r' - c * r) * (1 - k)) by (apply Rmult_le_pos; lra).
  assert (S2 : 0 <= (A' - c) * k) by (apply Rmult_le_pos; lra).
  assert (S3 : 0 <= c * ((1 - A) * k)) by (apply Rmult_le_pos; lra).
  unfold clamp.
  destruct (Rlt_dec (r + (- r + A) * k) 0); [lra|].
  destruct (Rlt_dec 1 (r + (- r + A) * k)); [lra|].
  destruct (Rlt_dec (r' + (- r' + A') * k) 0); [lra|].
  destruct (Rlt_dec 1 (r' + (- r' + A') * k)); lra.
Qed.

(** An idle step of at most [tau] keeps a living, leaning bump so. *)
Lemma idle_rates_leaning : forall a dt r,
  configured a -> 0 <= dt <= tau_ a ->
  leaning_rates r -> leaning_rates (idle_rates a dt r).
Proof.
  intros a dt r (Hth & HW & Hinh & Hthr & Hmax & Hsig & Htau) Hdt
         (r0 & r1 & r2 & r7 & -> & H2 & H27 & H71 & H10 & H0 & Hlow & Hshare).
  pose proof s2_bounds as Hs.
  unfold leaning_rates. expose_idle_rates HW Hinh Hthr Hmax.
  do 4 eexists.
  split; [|split; [|split; [|split; [|split; [|split; [|split]]]]]].
  - do 3 (apply f_equal2; [reflexivity|]).
    do 4 (apply f_equal2; [apply relax_off; nra|]).
    reflexivity.
  - apply clamp_range. lra.
  - apply relax_mono; [assumption|assumption|lra|nra].
  - apply relax_mono; [assumption|assumption|lra|nra].
  - apply relax_mono; [assumption|assumption|lra|nra].
  - apply clamp_range. lra.
  - match goal with
    | |- _ <= clamp (r0 + (- r0 + clamp ?e 0 1) / _ * _) 0 1 =>
        pose proof (relax_up r0 e (tau_ a) dt Htau ltac:(lra)
                             ltac:(lra) ltac:(nra))
    end. lra.
  - apply relax_ratio; try assumption; try lra; nra.
Qed.

Lemma idle_rates_n_leaning : forall n a dt r,
  configured a -> 0 <= dt <= tau_ a ->
  leaning_rates r -> leaning_rates (idle_rates_n n a dt r).
Proof.
  induction n as [|n IH]; intros a dt r Hconf Hdt Hr; cbn [idle_rates_n];
    [assumption|].
  apply IH; [assumption|assumption|].
  apply idle_rates_leaning; assumption.
Qed.

(** *** The population vector under the symmetries *)

Ltac expose_population_vector Hth :=
  unfold population_vector; cbn [theta_ r_ set_r]; rewrite Hth;
  unfold init_theta; rewrite angles_8;
  cbn [seq fold_left nth rot mirror]; unfold cadd_scaled, polar;
  cbn [fst snd]; autorewrite with octant.

(** Shifting the rates by one unit turns the population vector by pi/4. *)
Lemma population_vector_rot : forall a r,
  theta_ a = init_theta 8 -> length r = 8%nat ->
  population_vector 8 (set_r a (rot r))
  = (s2 * fst (population_vector 8 (set_r a r))
     - s2 * snd (population_vector 8 (set_r a r)),
     s2 * fst (population_vector 8 (set_r a r))
     + s2 * snd (population_vector 8 (set_r a r))).
Proof.
  intros a r Hth Hlen.
  destruct (length_8_inv r Hlen)
    as (r0 & r1 & r2 & r3 & r4 & r5 & r6 & r7 & ->).
  pose proof s2_sq as Hsq.
  cbn [rot]. expose_population_vector Hth.
  f_equal.
  - apply Rminus_diag_uniq.
    match goal with
    | |- ?l - ?r = 0 =>
        transitivity ((1 - 2 * (s2 * s2)) * (r7 - r3)); [ring|]
    end.
    rewrite Hsq. field.
  - apply Rminus_diag_uniq.
    match goal with
    | |- ?l - ?r = 0 =>
        transitivity ((1 - 2 * (s2 * s2)) * (r1 - r5)); [ring|]
    end.
    rewrite Hsq. field.
Qed.

(** Mirroring the rates about unit 0 conjugates the population vector. *)
Lemma population_vector_mirror : forall a r,
  theta_ a = init_theta 8 -> length r = 8%nat ->
  population_vector 8 (set_r a (mirror r))
  = (fst (population_vector 8 (set_r a r)),
     - snd (population_vector 8 (set_r a r))).
Proof.
  intros a r Hth Hlen.
  destruct (length_8_inv r Hlen)
    as (r0 & r1 & r2 & r3 & r4 & r5 & r6 & r7 & ->).
  cbn [mirror]. expose_population_vector Hth.
  f_equal; ring.
Qed.

Lemma population_vector_rots : forall j a r rho alpha,
  theta_ a = init_theta 8 -> length r = 8%nat ->
  population_vector 8 (set_r a r) = (rho * cos alpha, rho * sin alpha) ->
  population_vector 8 (set_r a (rots j r))
  = (rho * cos (alpha + INR j * (PI / 4)),
     rho * sin (alpha + INR j * (PI / 4))).
Proof.
  induction j as [|j IH]; intros a r rho alpha Hth Hlen Hz.
  - cbn [rots]. rewrite Hz. simpl INR.
    replace (alpha + 0 * (PI / 4)) with alpha by ring. reflexivity.
  - cbn [rots].
    rewrite population_vector_rot by (try rewrite length_rots; assumption).
    rewrite (IH a r rho alpha Hth Hlen Hz). cbn [fst snd].
    rewrite S_INR.
    replace (alpha + (INR j + 1) * (PI / 4))
      with ((alpha + INR j * (PI / 4)) + PI / 4) by ring.
    rewrite (cos_plus (alpha + INR j * (PI / 4)) (PI / 4)).
    rewrite (sin_plus (alpha + INR j * (PI / 4)) (PI / 4)).
    rewrite cos_PI4', sin_PI4'.
    f_equal; ring.
Qed.

(** A vector of the right half plane in polar form. *)
Lemma polar_of_right_half : forall x y,
  0 < x ->
  x = sqrt (x * x + y * y) * cos (atan (y / x))
  /\ y = sqrt (x * x + y * y) * sin (atan (y / x)).
Proof.
  intros x y Hx.
  set (u := y / x).
  assert (Hy : y = x * u) by (unfold u; field; lra).
  assert (H1 : 0 < 1 + u²) by (pose proof (Rle_0_sqr u); lra).
  assert (Hs : 0 < sqrt (1 + u²)) by (apply sqrt_lt_R0; assumption).
  assert (Hrho : sqrt (x * x + y * y) = x * sqrt (1 + u²)).
  { replace (x * x + y * y) with ((x * x) * (1 + u²))
      by (rewrite Hy; unfold Rsqr; ring).
    rewrite sqrt_mult by nra. rewrite sqrt_square by lra. reflexivity. }
  rewrite Hrho, cos_atan, sin_atan. split.
  - field. lra.
  - rewrite Hy at 1. field. lra.
Qed.

(** A living, leaning bump in polar form. *)
Lemma leaning_population_vector : forall a r,
  theta_ a = init_theta 8 -> leaning_rates r ->
  exists rho phi,
    population_vector 8 (set_r a r) = (rho * cos phi, rho * sin phi)
    /\ 0.35 <= rho /\ 0 <= phi <= PI / 8.
Proof.
  intros a r Hth
         (r0 & r1 & r2 & r7 & -> & H2 & H27 & H71 & H10 & H0 & Hlow & Hshare).
  pose proof s2_bounds as Hs. pose proof s2_sq as Hsq.
  expose_population_vector Hth.
  set (x := 0 + r0 * 1 + r1 * s2 + r2 * 0 + 0 * - s2 + 0 * -1 + 0 * - s2
            + 0 * 0 + r7 * s2).
  set (y := 0 + r0 * 0 + r1 * s2 + r2 * 1 + 0 * s2 + 0 * 0 + 0 * - s2
            + 0 * -1 + r7 * - s2).
  assert (Hx : r0 <= x) by (unfold x; nra).
  assert (Hy0 : 0 <= y) by (unfold y; nra).
  assert (Hyx : y <= (2 * s2 - 1) * x).
  { assert (Hd : (2 * s2 - 1) * x - y
                 = (2 * s2 - 1) * (r0 - r1) + (r7 - r2)).
    { unfold x, y.
      transitivity ((2 * s2 - 1) * r0 + (2 * (s2 * s2) - 2 * s2) * r1
                    + (2 * (s2 * s2)) * r7 - r2); [ring|].
      rewrite Hsq. field. }
    assert (0 <= (2 * s2 - 1) * (r0 - r1)) by (apply Rmult_le_pos; lra).
    lra. }
  assert (Hxpos : 0 < x) by lra.
  destruct (polar_of_right_half x y Hxpos) as [Px Py].
  exists (sqrt (x * x + y * y)), (atan (y / x)).
  split; [|split].
  - rewrite <- Px, <- Py. reflexivity.
  - apply Rle_trans with x; [lra|].
    rewrite <- (sqrt_square x) at 1 by lra.
    apply sqrt_le_1; nra.
  - assert (Hq0 : 0 <= y / x).
    { apply Rmult_le_pos; [lra|]. left. apply Rinv_0_lt_compat. assumption. }
    assert (Hq1 : y / x <= 2 * s2 - 1).
    { apply Rmult_le_reg_r with x; [assumption|].
      unfold Rdiv. rewrite Rmult_assoc, Rinv_l by lra. lra. }
    split.
    + destruct Hq0 as [Hlt|Heq].
      * left. apply atan_pos. assumption.
      * rewrite <- Heq, atan_0. lra.
    + rewrite <- atan_tan_PI8. destruct Hq1 as [Hlt|Heq].
      * left. apply atan_increasing. assumption.
      * rewrite Heq. lra.
Qed.

(** Decoding a population vector given in polar form. *)
Lemma heading_of_polar : forall a rho alpha,
  population_vector 8 a = (rho * cos alpha, rho * sin alpha) ->
  1e-10 <= rho ->
  exists k : Z, heading 8 a = alpha + IZR k * (2 * PI).
Proof.
  intros a rho alpha Hz Hrho.
  unfold heading. rewrite Hz. unfold cabs, carg. cbn [fst snd].
  replace (rho * cos alpha * (rho * cos alpha)
           + rho * sin alpha * (rho * sin alpha))
    with (rho * rho).
  2:{ pose proof (sin2_cos2 alpha) as H. unfold Rsqr in H.
      transitivity (rho * rho * (sin alpha * sin alpha
                                 + cos alpha * cos alpha)); [|ring].
      rewrite H. ring. }
  rewrite sqrt_square by lra.
  destruct (Rlt_dec rho 1e-10) as [Hsmall|_]; [lra|].
  destruct (atan2_polar rho alpha ltac:(lra)) as [k Hk].
  rewrite Hk.
  destruct (Rlt_dec (alpha + IZR k * (2 * PI)) 0).
  - exists (k + 1)%Z. rewrite plus_IZR. ring.
  - exists k. reflexivity.
Qed.

(** *** The cosine bump under the symmetries *)

Ltac cos_equal :=
  match goal with
  | |- cos ?A = cos ?B =>
      first
        [ f_equal; lra
        | rewrite <- (cos_period A 1); f_equal; simpl; lra
        | rewrite <- (cos_period B 1); f_equal; simpl; lra
        | rewrite <- (cos_neg A);
          first [ f_equal; lra
                | rewrite <- (cos_period (- A) 1); f_equal; simpl; lra
                | rewrite <- (cos_period B 1); f_equal; simpl; lra ] ]
  end.

Ltac expose_cosine_bump Hth :=
  unfold cosine_bump; rewrite Hth; unfold init_theta; rewrite angles_8;
  cbn [seq map nth rot mirror]; rewrite !cos_wrap_pi.

Lemma cosine_bump_rot : forall a h,
  theta_ a = init_theta 8 ->
  cosine_bump 8 a (h + PI / 4) = rot (cosine_bump 8 a h).
Proof.
  intros a h Hth. expose_cosine_bump Hth.
  repeat (apply f_equal2; [do 2 apply f_equal; cos_equal|]). reflexivity.
Qed.

Lemma cosine_bump_mirror : forall a h,
  theta_ a = init_theta 8 ->
  cosine_bump 8 a (- h) = mirror (cosine_bump 8 a h).
Proof.
  intros a h Hth. expose_cosine_bump Hth.
  repeat (apply f_equal2; [do 2 apply f_equal; cos_equal|]). reflexivity.
Qed.

Lemma length_cosine_bump : forall a h, length (cosine_bump 8 a h) = 8%nat.
Proof.
  intros a h. unfold cosine_bump. rewrite length_map, length_seq. reflexivity.
Qed.

Lemma cosine_bump_rots : forall j a h,
  theta_ a = init_theta 8 ->
  cosine_bump 8 a (h + INR j * (PI / 4)) = rots j (cosine_bump 8 a h).
Proof.
  induction j as [|j IH]; intros a h Hth; cbn [rots].
  - simpl INR. replace (h + 0 * (PI / 4)) with h by ring. reflexivity.
  - rewrite S_INR.
    replace (h + (INR j + 1) * (PI / 4))
      with ((h + INR j * (PI / 4)) + PI / 4) by ring.
    rewrite cosine_bump_rot by assumption. rewrite IH by assumption.
    reflexivity.
Qed.

(** Seeded between unit 0 and the midpoint, the bump is alive and leans. *)
Lemma cosine_bump_leaning : forall a h,
  theta_ a = init_theta 8 -> 0 <= h <= PI / 8 ->
  leaning_rates (cosine_bump 8 a h).
Proof.
  intros a h Hth Hh.
  pose proof PI_RGT_0 as Hpi. pose proof s2_bounds as Hs.
  assert (C0 : cos (PI / 4 - h) <= cos (0 - h)).
  { replace (0 - h) with (- h) by lra. rewrite cos_neg.
    apply cos_decr_1; lra. }
  assert (C7 : cos (PI + 3 * (PI / 4) - h) = cos (PI / 4 + h)).
  { replace (PI + 3 * (PI / 4) - h)
      with (- (PI / 4 + h) + 2 * INR 1 * PI) by (simpl; lra).
    rewrite cos_period, cos_neg. reflexivity. }
  assert (C1 : cos (PI / 4 + h) <= cos (PI / 4 - h))
    by (apply cos_decr_1; lra).
  assert (C2 : cos (PI / 2 - h) <= cos (PI / 4 + h))
    by (apply cos_decr_1; lra).
  assert (C3 : 0 <= cos (PI / 2 - h)) by (apply cos_ge_0; lra).
  pose proof (COS_bound (0 - h)) as [_ C4].
  assert (C5 : s2 <= cos (0 - h)).
  { replace (0 - h) with (- h) by lra. rewrite cos_neg, <- cos_PI4'.
    apply cos_decr_1; lra. }
  assert (C6 : s2 <= cos (PI / 4 - h)).
  { rewrite <- cos_PI4'. apply cos_decr_1; lra. }
  exists (0.5 * cos (0 - h)), (0.5 * cos (PI / 4 - h)),
         (0.5 * cos (PI / 2 - h)), (0.5 * cos (PI + 3 * (PI / 4) - h)).
  split; [|rewrite C7; lra].
  expose_cosine_bump Hth.
  assert (Hneg : forall x, PI / 2 <= x <= 3 * (PI / 2) ->
                           fmax 0 (0.5 * cos x) = 0).
  { intros x [Hx1 Hx2]. pose proof (cos_le_0 x Hx1 Hx2).
    unfold fmax. destruct (Rlt_dec 0 (0.5 * cos x)); lra. }
  assert (Hpos : forall c, 0 <= c -> fmax 0 (0.5 * c) = 0.5 * c).
  { intros c Hc. unfold fmax. destruct (Rlt_dec 0 (0.5 * c)); lra. }
  repeat apply f_equal2; try reflexivity.
  - apply Hpos. lra.
  - apply Hpos. lra.
  - apply Hpos. lra.
  - apply Hneg. lra.
  - apply Hneg. lra.
  - apply Hneg. lra.
  - apply Hneg. lra.
  - apply Hpos. lra.
Qed.

(** Every heading lies within pi/8 of a unit's preferred direction. *)
Lemma nearest_unit : forall h,
  0 <= h ->
  exists (j : nat) (h0 : R),
    0 <= h0 <= PI / 8
    /\ (h = h0 + INR j * (PI / 4) \/ h = - h0 + INR j * (PI / 4)).
Proof.
  intros h Hh. pose proof PI_RGT_0 as Hpi.
  set (u := h / (PI / 4)).
  assert (Hu : h = u * (PI / 4)) by (unfold u; field; lra).
  assert (Hu0 : 0 <= u).
  { unfold u. apply Rmult_le_pos; [lra|].
    left. apply Rinv_0_lt_compat. lra. }
  destruct (base_Int_part (u + / 2)) as [Hm1 Hm2].
  set (m := Int_part (u + / 2)) in *.
  assert (Hm0 : (0 <= m)%Z).
  { apply le_IZR. apply Rnot_lt_le. intro Hneg.
    assert (IZR m <= -1).
    { apply IZR_le. assert (m < 0)%Z by (apply lt_IZR; lra). lia. }
    lra. }
  exists (Z.to_nat m).
  assert (Hj : INR (Z.to_nat m) = IZR m)
    by (rewrite INR_IZR_INZ, Z2Nat.id by assumption; reflexivity).
  rewrite Hj.
  destruct (Rle_lt_dec (IZR m) u) as [Hle|Hlt].
  - exists ((u - IZR m) * (PI / 4)). split; [split; nra|].
    left. rewrite Hu. ring.
  - exists ((IZR m - u) * (PI / 4)). split; [split; nra|].
    right. rewrite Hu. ring.
Qed.

Lemma leaning_rates_length : forall r, leaning_rates r -> length r = 8%nat.
Proof. intros r (r0 & r1 & r2 & r7 & -> & _). reflexivity. Qed.

Lemma cosine_bump_theta : forall a b h,
  theta_ a = theta_ b -> cosine_bump 8 a h = cosine_bump 8 b h.
Proof. intros a b h Hth. unfold cosine_bump. rewrite Hth. reflexivity. Qed.

(** The rates after [n] idle steps from a bump seeded at [h], as the image
    under a shift (and a mirror) of a living, leaning bump; and the heading
    decoded from them. *)
Lemma heading_after_idle_rates : forall n a dt h,
  configured a -> 0 <= dt <= tau_ a -> 0 <= h ->
  exists k : Z,
    Rabs (heading 8 (set_r a (idle_rates_n n a dt (cosine_bump 8 a h)))
          - h + IZR k * (2 * PI))
    <= PI / 8.
Proof.
  intros n a dt h Hconf Hdt Hh. pose proof Hconf as (Hth & _).
  destruct (nearest_unit h Hh) as (j & h0 & Hh0 & Hcase).
  pose proof (cosine_bump_leaning a h0 Hth Hh0) as HC.
  pose proof (idle_rates_n_leaning n a dt _ Hconf Hdt HC) as HL.
  set (L := idle_rates_n n a dt (cosine_bump 8 a h0)) in *.
  destruct (leaning_population_vector a L Hth HL)
    as (rho & phi & Hz & Hrho & Hphi).
  pose proof (leaning_rates_length L HL) as HlenL.
  destruct Hcase as [Hplus|Hminus].
  - (* h = h0 + j * pi/4 *)
    assert (Hrates : idle_rates_n n a dt (cosine_bump 8 a h) = rots j L).
    { rewrite Hplus, cosine_bump_rots by assumption.
      rewrite idle_rates_n_rots
        by (try apply length_cosine_bump; assumption).
      reflexivity. }
    rewrite Hrates.
    pose proof (population_vector_rots j a L rho phi Hth HlenL Hz) as Hzj.
    destruct (heading_of_polar _ rho _ Hzj ltac:(lra)) as [k Hk].
    exists (- k)%Z. rewrite Hk, opp_IZR.
    replace (phi + INR j * (PI / 4) + IZR k * (2 * PI) - h
             + - IZR k * (2 * PI))
      with (phi - h0) by (rewrite Hplus; ring).
    apply Rabs_le. lra.
  - (* h = - h0 + j * pi/4 *)
    assert (Hrates : idle_rates_n n a dt (cosine_bump 8 a h)
                     = rots j (mirror L)).
    { rewrite Hminus, cosine_bump_rots by assumption.
      rewrite cosine_bump_mirror by assumption.
      rewrite idle_rates_n_rots
        by (try (rewrite length_mirror; apply length_cosine_bump);
            assumption).
      rewrite idle_rates_n_mirror
        by (try apply length_cosine_bump; assumption).
      reflexivity. }
    rewrite Hrates.
    assert (Hzm : population_vector 8 (set_r a (mirror L))
                  = (rho * cos (- phi), rho * sin (- phi))).
    { rewrite population_vector_mirror by assumption.
      rewrite Hz. cbn [fst snd]. rewrite cos_neg, sin_neg.
      f_equal. ring. }
    pose proof (population_vector_rots j a (mirror L) rho (- phi) Hth
                  ltac:(rewrite length_mirror; exact HlenL) Hzm) as Hzj.
    destruct (heading_of_polar _ rho _ Hzj ltac:(lra)) as [k Hk].
    exists (- k)%Z. rewrite Hk, opp_IZR.
    replace (- phi + INR j * (PI / 4) + IZR k * (2 * PI) - h
             + - IZR k * (2 * PI))
      with (h0 - phi) by (rewrite Hminus; ring).
    apply Rabs_le. lra.
Qed.

Lemma bump_stays_near_seed : forall tau g_mag g_omega dt h g g' g'' n,
  0 < tau -> 0 <= dt <= tau -> 0 <= h ->
  exists k : Z,
    Rabs (heading 8
            (fst (idle_steps 8 n
                    (fst (reset 8
                            (fst (make 8 tau 1.5 4.5 g_mag g_omega 0 1 0 g))
                            h g'))
                    dt g''))
          - h + IZR k * (2 * PI))
    <= PI / 8.
Proof.
  intros tau g_mag g_omega dt h g g' g'' n Htau Hdt Hh.
  pose proof (make_is_configured tau g_mag g_omega g Htau) as Hc0.
  assert (Htau0 : tau_ (fst (make 8 tau 1.5 4.5 g_mag g_omega 0 1 0 g)) = tau)
    by apply (make_configured tau 1.5 4.5 g_mag g_omega g).
  set (a0 := fst (make 8 tau 1.5 4.5 g_mag g_omega 0 1 0 g)) in *.
  unfold reset. destruct (Rle_dec 0 h) as [_|Hn]; [|lra]. cbn [fst].
  set (a1 := set_r (set_r a0 (repeat 0 8))
                   (cosine_bump 8 (set_r a0 (repeat 0 8)) h)).
  assert (Hc1 : configured a1) by exact Hc0.
  rewrite idle_steps_rates by apply Hc1.
  assert (Hr1 : r_ a1 = cosine_bump 8 a1 h) by reflexivity.
  rewrite Hr1.
  apply heading_after_idle_rates; [exact Hc1| |exact Hh].
  change (tau_ a1) with (tau_ a0). rewrite Htau0. exact Hdt.
Qed.


End WithRandom.


(** *** Without excitation the bump dies *)

Lemma relax_dead : forall r e,
  e <= 0 -> clamp (r + (- r + clamp e 0 1) / 0.05 * 0.05) 0 1 = 0.
Proof.
  intros r e He.
  assert (Ha : clamp e 0 1 = 0).
  { unfold clamp. destruct (Rlt_dec e 0); [lra|]. destruct (Rlt_dec 1 e); lra. }
  rewrite Ha.
  replace (r + (- r + 0) / 0.05 * 0.05) with 0 by lra.
  unfold clamp. destruct (Rlt_dec 0 0); [lra|]. destruct (Rlt_dec 1 0); lra.
Qed.

Lemma step_without_excitation : forall a r0 r1 r2 r3 r4 r5 r6 r7,
  W_exc_ a = init_W 8 0 (init_theta 8) ->
  w_inh_ a = 4.5 -> threshold_ a = 0 -> r_max_ a = 1 -> tau_ a = 0.05 ->
  r_ a = [r0; r1; r2; r3; r4; r5; r6; r7] ->
  0 <= r0 -> 0 <= r1 -> 0 <= r2 -> 0 <= r3 ->
  0 <= r4 -> 0 <= r5 -> 0 <= r6 -> 0 <= r7 ->
  r_ (step_with 8 a 0.05 None 0 (repeat 0 8)) = repeat 0 8.
Proof.
  intros a r0 r1 r2 r3 r4 r5 r6 r7 HW Hinh Hthr Hmax Htau Hr
         H0 H1 H2 H3 H4 H5 H6 H7.
  unfold step_with, excitation, inhibition, magnetic_input,
    omega_input, update_rate.
  destruct (Req_dec_T 0 0) as [_|Hn]; [|lra].
  cbn [r_ set_r r_max_ tau_ threshold_ w_inh_ W_exc_].
  rewrite HW, W8, Hr, Hinh, Hthr, Hmax, Htau.
  replace (INR 8) with 8 by (simpl; lra).
  cbn [seq map fold_left nth repeat].
  repeat (apply f_equal2; [apply relax_dead; lra|]). reflexivity.
Qed.

Lemma heading_of_silence : forall a,
  r_ a = repeat 0 8 -> heading 8 a = 0.
Proof.
  intros a Hr. unfold heading, population_vector. rewrite Hr.
  cbn [seq fold_left nth repeat]. unfold cadd_scaled, cabs. cbn [fst snd].
  match goal with
  | |- context [sqrt ?e] => replace e with 0 by ring
  end.
  rewrite sqrt_0.
  destruct (Rlt_dec 0 1e-10) as [_|Hn]; [reflexivity|lra].
Qed.


End BumpFacts.

(** ** Ranges of the angle helpers *)

Module RangeFacts.

(** Rounding toward zero leaves a remainder of the sign of the argument. *)
Lemma trunc_remainder : forall q,
  (0 <= q -> 0 <= q - IZR (Ztrunc q) < 1)
  /\ (q < 0 -> -1 < q - IZR (Ztrunc q) <= 0).
Proof.
  intro q. unfold Ztrunc. destruct (Rle_dec 0 q) as [Hq|Hq].
  - split; [intros _|lra].
    destruct (base_Int_part q) as [H1 H2]. lra.
  - split; [lra|intros _].
    destruct (base_Int_part (- q)) as [H1 H2].
    rewrite opp_IZR. lra.
Qed.

Lemma fmod_range : forall x y,
  0 < y ->
  (0 <= x -> 0 <= fmod x y < y) /\ (x < 0 -> - y < fmod x y <= 0).
Proof.
  intros x y Hy. unfold fmod.
  set (q := x / y).
  assert (Hx : x = q * y) by (unfold q; field; lra).
  replace (x - IZR (Ztrunc q) * y) with ((q - IZR (Ztrunc q)) * y)
    by (rewrite Rmult_minus_distr_r, <- Hx; reflexivity).
  destruct (trunc_remainder q) as [Hpos Hneg].
  split; intro Hsign.
  - assert (Hq : 0 <= q).
    { unfold q. apply Rmult_le_pos; [assumption|].
      left. apply Rinv_0_lt_compat. assumption. }
    specialize (Hpos Hq). nra.
  - assert (Hq : q < 0).
    { unfold q. unfold Rdiv.
      assert (0 < / y) by (apply Rinv_0_lt_compat; assumption). nra. }
    specialize (Hneg Hq). nra.
Qed.

Lemma wrap_heading_range : forall h, 0 <= Agent.wrap_heading h < 2 * PI.
Proof.
  intro h. pose proof PI_RGT_0 as Hpi. unfold Agent.wrap_heading. cbv zeta.
  destruct (fmod_range h (2 * PI) ltac:(lra)) as [Hpos Hneg].
  destruct (Rle_dec 0 h) as [Hh|Hh].
  - specialize (Hpos Hh). destruct (Rlt_dec _ 0); lra.
  - specialize (Hneg ltac:(lra)). destruct (Rlt_dec _ 0); lra.
Qed.

Lemma wrap_pi_range : forall d, - PI <= wrap_pi d < PI.
Proof.
  intro d. pose proof PI_RGT_0 as Hpi. unfold wrap_pi. cbv zeta.
  destruct (fmod_range (d + PI) (2 * PI) ltac:(lra)) as [Hpos Hneg].
  destruct (Rle_dec 0 (d + PI)) as [Hh|Hh].
  - specialize (Hpos Hh). destruct (Rlt_dec _ 0); lra.
  - specialize (Hneg ltac:(lra)). destruct (Rlt_dec _ 0); lra.
Qed.

Lemma atan_nonpos : forall x, x <= 0 -> atan x <= 0.
Proof.
  intros x [Hx| ->]; [|rewrite atan_0; lra].
  pose proof (atan_increasing x 0 Hx) as H. rewrite atan_0 in H. lra.
Qed.

Lemma atan2_range : forall y x, - PI < atan2 y x <= PI.
Proof.
  intros y x. pose proof PI_RGT_0 as Hpi. unfold atan2.
  pose proof (atan_bound (y / x)) as Hb.
  destruct (Rlt_dec 0 x) as [Hx|Hx]; [lra|].
  destruct (Rlt_dec x 0) as [Hx'|Hx'].
  - assert (Hinv : / x < 0) by (apply Rinv_lt_0_compat; assumption).
    destruct (Rle_dec 0 y) as [Hy|Hy].
    + assert (Hq : y / x <= 0) by (unfold Rdiv; nra).
      pose proof (atan_nonpos _ Hq). lra.
    + assert (Hq : 0 < y / x) by (unfold Rdiv; nra).
      pose proof (atan_increasing 0 _ Hq) as H. rewrite atan_0 in H. lra.
  - destruct (Rlt_dec 0 y); [lra|]. destruct (Rlt_dec y 0); lra.
Qed.

(** [atan2] recovers the angle of a vector given in polar form. *)
Lemma atan2_polar_exact : forall rho alpha,
  0 < rho -> - PI < alpha <= PI ->
  atan2 (rho * sin alpha) (rho * cos alpha) = alpha.
Proof.
  intros rho alpha Hrho Ha. pose proof PI_RGT_0 as Hpi.
  destruct (atan2_polar rho alpha Hrho) as [k Hk].
  pose proof (atan2_range (rho * sin alpha) (rho * cos alpha)) as Hr.
  rewrite Hk in Hr |- *.
  assert (Hk0 : k = 0%Z).
  { assert (H1 : (-1 < k)%Z) by (apply lt_IZR; nra).
    assert (H2 : (k < 1)%Z) by (apply lt_IZR; nra).
    lia. }
  rewrite Hk0. simpl. ring.
Qed.

End RangeFacts.
Import RangeFacts.

(** ** landscape.hpp: the field queries and the four perturbations *)

Module FieldFacts.
Import Landscape.

Lemma wrap_pi_0 : wrap_pi 0 = 0.
Proof.
  pose proof PI_RGT_0 as Hpi.
  destruct (wrap_pi_shift 0) as [k Hk].
  pose proof (wrap_pi_range 0) as Hr. rewrite Hk in Hr |- *.
  assert (Hk0 : k = 0%Z).
  { assert (H1 : (-1 < k)%Z) by (apply lt_IZR; nra).
    assert (H2 : (k < 1)%Z) by (apply lt_IZR; nra).
    lia. }
  rewrite Hk0. simpl. ring.
Qed.

Lemma anomalies_after_adds : forall anoms l,
  clear_anomalies (fold_left (fun l a => add_anomaly a l) anoms l)
  = clear_anomalies l.
Proof.
  induction anoms as [|a anoms IH]; intro l; [reflexivity|].
  cbn [fold_left]. rewrite IH. reflexivity.
Qed.

Lemma sqrt_polar : forall rho alpha,
  0 <= rho ->
  sqrt (rho * cos alpha * (rho * cos alpha)
        + rho * sin alpha * (rho * sin alpha)) = rho.
Proof.
  intros rho alpha Hrho.
  pose proof (sin2_cos2 alpha) as Hsc. unfold Rsqr in Hsc.
  replace (rho * cos alpha * (rho * cos alpha)
           + rho * sin alpha * (rho * sin alpha))
    with (rho * rho * (sin alpha * sin alpha + cos alpha * cos alpha))
    by ring.
  rewrite Hsc, Rmult_1_r. apply sqrt_square. assumption.
Qed.

(** X1: [direction_deviation] always returns a value in [[-pi, pi)], equal
    to the local field direction minus the declination up to a whole
    number of turns. *)
Theorem direction_deviation_wrapped : forall (l : t) (x y : R),
  - PI <= direction_deviation l x y < PI
  /\ exists k : Z,
       direction_deviation l x y
       = direction (magnetic_direction l x y) - declination_ l
         + IZR k * (2 * PI).
Proof.
  intros l x y. unfold direction_deviation. split.
  - apply wrap_pi_range.
  - apply wrap_pi_shift.
Qed.

(** The field of a landscape as its constructor leaves it. *)
Lemma uniform_field : forall w h B0 decl incl x y,
  0 < B0 -> - (PI / 2) < incl < PI / 2 -> - PI < decl <= PI ->
  magnetic_direction (make w h B0 decl incl) x y
  = mkField decl (B0 * cos incl) incl.
Proof.
  intros w h B0 decl incl x y HB0 Hincl Hdecl.
  assert (Hcos : 0 < cos incl) by (apply cos_gt_0; lra).
  assert (HBh : 0 < B0 * cos incl) by nra.
  unfold magnetic_direction, make, background, field_of.
  cbn [anomalies_ B_horizontal_ B_vertical_ declination_ fold_left vx vy vz].
  rewrite sqrt_polar by lra.
  rewrite (atan2_polar_exact (B0 * cos incl) decl HBh Hdecl).
  rewrite (atan2_polar_exact B0 incl HB0)
    by (pose proof PI_RGT_0; lra).
  reflexivity.
Qed.

(** X2: a landscape without anomalies, also one whose anomalies were added
    and then cleared, returns the background field at every point: the
    declination as direction, [B0 * cos inclination] as intensity, the
    inclination itself as local dip, and a direction deviation of 0; for a
    positive [B0], an inclination strictly between -pi/2 and pi/2 and a
    declination in [(-pi, pi]]. *)
Theorem cleared_landscape_returns_background :
  forall (w h B0 decl incl : R) (anoms : list Anomaly) (x y : R),
    0 < B0 -> - (PI / 2) < incl < PI / 2 -> - PI < decl <= PI ->
    let l := clear_anomalies
               (fold_left (fun l a => add_anomaly a l) anoms
                          (make w h B0 decl incl)) in
    magnetic_direction l x y = mkField decl (B0 * cos incl) incl
    /\ direction_deviation l x y = 0.
Proof.
  intros w h B0 decl incl anoms x y HB0 Hincl Hdecl l.
  assert (Hl : l = make w h B0 decl incl).
  { unfold l. rewrite anomalies_after_adds. reflexivity. }
  assert (Hmd : magnetic_direction l x y = mkField decl (B0 * cos incl) incl).
  { rewrite Hl. apply uniform_field; assumption. }
  split; [exact Hmd|].
  unfold direction_deviation. rewrite Hmd. cbn [direction].
  rewrite Hl. cbn [make declination_].
  replace (decl - decl) with 0 by ring. apply wrap_pi_0.
Qed.

Lemma cleared_landscape_witness :
  0 < 50 /\ - (PI / 2) < 1 < PI / 2 /\ - PI < 0 <= PI
  /\ magnetic_direction
       (clear_anomalies
          (fold_left (fun l a => add_anomaly a l)
                     [Gaussian (mkGaussian 500 500 5 50)]
                     (make 1000 1000 50 0 1)))
       500 500
     = mkField 0 (50 * cos 1) 1.
Proof.
  pose proof PI_RGT_0 as Hpi. pose proof PI2_3_2 as Hpi2.
  assert (H1 : 0 < 50) by lra.
  assert (H2 : - (PI / 2) < 1 < PI / 2) by lra.
  assert (H3 : - PI < 0 <= PI) by lra.
  split; [exact H1|]. split; [exact H2|]. split; [exact H3|].
  exact (proj1 (cleared_landscape_returns_background
                  1000 1000 50 0 1 [Gaussian (mkGaussian 500 500 5 50)]
                  500 500 H1 H2 H3)).
Defined.


Lemma tanh_bound : forall x, -1 < tanh x < 1.
Proof.
  intro x. unfold tanh, sinh, cosh.
  pose proof (exp_pos x) as Ha. pose proof (exp_pos (- x)) as Hb.
  set (a := exp x) in *. set (b := exp (- x)) in *.
  replace ((a - b) / 2 / ((a + b) / 2)) with ((a - b) / (a + b))
    by (field; lra).
  assert (Hs : 0 < / (a + b)) by (apply Rinv_0_lt_compat; lra).
  split.
  - apply Rmult_lt_reg_r with (a + b); [lra|].
    unfold Rdiv. rewrite Rmult_assoc, Rinv_l by lra. lra.
  - apply Rmult_lt_reg_r with (a + b); [lra|].
    unfold Rdiv. rewrite Rmult_assoc, Rinv_l by lra. lra.
Qed.

Lemma tanh_odd : forall x, tanh (- x) = - tanh x.
Proof.
  intro x. unfold tanh, sinh, cosh. rewrite Ropp_involutive.
  pose proof (exp_pos x). pose proof (exp_pos (- x)).
  field. lra.
Qed.

Lemma tanh_at_0 : tanh 0 = 0.
Proof.
  unfold tanh. rewrite sinh_0. unfold Rdiv. ring.
Qed.

(** X3: the perturbation of a Gaussian anomaly is horizontal, points along
    the line through the centre of the anomaly, and is never stronger than
    the strength of the anomaly, at any point and for any radius. *)
Theorem gaussian_perturbation_bounded :
  forall (x y : R) (a : GaussianAnomaly),
    let p := perturbation_gaussian x y a in
    vx p * vx p + vy p * vy p <= g_strength a * g_strength a
    /\ vz p = 0
    /\ vx p * (y - g_py a) = vy p * (x - g_px a).
Proof.
  intros x y a p. unfold p, perturbation_gaussian. cbv zeta.
  set (dx := x - g_px a). set (dy := y - g_py a).
  set (r := sqrt (dx * dx + dy * dy)).
  pose proof (Rle_0_sqr (g_strength a)) as Hs2. unfold Rsqr in Hs2.
  destruct (Rle_dec (3 * g_radius a) r) as [Hfar|Hnear].
  { cbn [zero3 vx vy vz]. repeat split; try ring. lra. }
  destruct (Rlt_dec r 1e-6) as [Hc|Hc].
  { cbn [zero3 vx vy vz]. repeat split; try ring. lra. }
  cbn [vx vy vz].
  set (e := exp (-0.5 * (r / g_radius a) * (r / g_radius a))).
  assert (Hr : 0 < r) by lra.
  assert (Hrr : r * r = dx * dx + dy * dy).
  { unfold r. apply sqrt_sqrt.
    pose proof (Rle_0_sqr dx). pose proof (Rle_0_sqr dy).
    unfold Rsqr in *. lra. }
  assert (He : 0 < e <= 1).
  { split; [apply exp_pos|].
    unfold e. rewrite <- exp_0.
    set (q := r / g_radius a).
    pose proof (Rle_0_sqr q) as Hq. unfold Rsqr in Hq.
    destruct (Req_dec (-0.5 * q * q) 0) as [-> | Hne]; [lra|].
    left. apply exp_increasing. lra. }
  split; [|split].
  - replace (g_strength a * e * dx / r * (g_strength a * e * dx / r)
             + g_strength a * e * dy / r * (g_strength a * e * dy / r))
      with ((g_strength a * e) * (g_strength a * e)
            * (dx * dx + dy * dy) / (r * r)) by (field; lra).
    rewrite <- Hrr.
    replace ((g_strength a * e) * (g_strength a * e) * (r * r) / (r * r))
      with ((g_strength a * g_strength a) * (e * e)) by (field; lra).
    assert (Hee : e * e <= 1) by nra. nra.
  - reflexivity.
  - field. lra.
Qed.



(** X5: the perturbation of a gradient anomaly depends only on the
    coordinate [t] of the point along the gradient direction, measured
    from the reference point: it is [magnitude * t] times the unit vector
    of that direction, whatever the coordinate [u] across it (so it
    vanishes on the line through the reference point across the
    direction, and grows without bound away from it). *)
Theorem gradient_perturbation_is_linear_ramp :
  forall (a : GradientAnomaly) (t u : R),
    perturbation_gradient
      (gr_ref_x a + t * cos (gr_direction a) - u * sin (gr_direction a))
      (gr_ref_y a + t * sin (gr_direction a) + u * cos (gr_direction a)) a
    = mkVec3 (gr_magnitude a * t * cos (gr_direction a))
             (gr_magnitude a * t * sin (gr_direction a)) 0.
Proof.
  intros a t u. unfold perturbation_gradient. cbv zeta.
  pose proof (sin2_cos2 (gr_direction a)) as Hsc. unfold Rsqr in Hsc.
  set (s := sin (gr_direction a)) in *. set (c := cos (gr_direction a)) in *.
  replace ((gr_ref_x a + t * c - u * s - gr_ref_x a) * c
           + (gr_ref_y a + t * s + u * c - gr_ref_y a) * s)
    with (t * (s * s + c * c)) by ring.
  rewrite Hsc, Rmult_1_r. reflexivity.
Qed.

Lemma cpow_2_5_sq : forall x, 0 < x -> cpow x 2.5 * cpow x 2.5 = x ^ 5.
Proof.
  intros x Hx. unfold cpow. destruct (Req_dec_T x 0); [lra|].
  rewrite <- Rpower_plus.
  replace (2.5 + 2.5) with (INR 5) by (simpl; lra).
  apply Rpower_pow. assumption.
Qed.

(** Five terms, arithmetic against geometric mean:
    [256 (u + v)^5 - 3125 u v^4 = (4u - v)^2 (16u^3 + 88u^2v + 203uv^2 + 256v^3)]. *)
Lemma dipole_polynomial : forall u v,
  0 <= u -> 0 <= v -> 3125 * u * v ^ 4 <= 256 * (u + v) ^ 5.
Proof.
  intros u v Hu Hv.
  assert (Hid : 256 * (u + v) ^ 5 - 3125 * u * v ^ 4
                = (4 * u - v) * (4 * u - v)
                  * (16 * u ^ 3 + 88 * u ^ 2 * v + 203 * u * v ^ 2
                     + 256 * v ^ 3)) by ring.
  assert (Hq : 0 <= 16 * u ^ 3 + 88 * u ^ 2 * v + 203 * u * v ^ 2
                    + 256 * v ^ 3).
  { assert (0 <= u ^ 3) by (apply pow_le; assumption).
    assert (0 <= u ^ 2) by (apply pow_le; assumption).
    assert (0 <= v ^ 3) by (apply pow_le; assumption).
    assert (0 <= v ^ 2) by (apply pow_le; assumption).
    assert (0 <= u ^ 2 * v) by (apply Rmult_le_pos; assumption).
    assert (0 <= u * v ^ 2) by (apply Rmult_le_pos; assumption).
    lra. }
  pose proof (Rle_0_sqr (4 * u - v)) as Hsq. unfold Rsqr in Hsq.
  pose proof (Rmult_le_pos _ _ Hsq Hq). lra.
Qed.

Lemma dipole_horizontal_bound : forall a x y,
  0 < d_depth a ->
  let p := perturbation_dipole x y a in
  vx p * vx p + vy p * vy p <= d_strength a * d_strength a.
Proof.
  intros a x y Hd p. unfold p, perturbation_dipole. cbv zeta. cbn [vx vy].
  set (dx := x - d_px a). set (dy := y - d_py a).
  set (d := d_depth a) in *. set (s := d_strength a).
  set (u := dx * dx + dy * dy).
  assert (Hu : 0 <= u).
  { unfold u. pose proof (Rle_0_sqr dx). pose proof (Rle_0_sqr dy).
    unfold Rsqr in *. lra. }
  assert (Hv : 0 < d * d) by nra.
  assert (HR2 : 0 < u + d * d) by lra.
  pose proof (cpow_2_5_sq 5 ltac:(lra)) as HK.
  pose proof (cpow_2_5_sq (u + d * d) HR2) as HR5.
  pose proof (cpow_pos 5 2.5 ltac:(lra)) as HKpos.
  pose proof (cpow_pos (u + d * d) 2.5 HR2) as HR5pos.
  set (K := cpow 5 2.5) in *. set (R5 := cpow (u + d * d) 2.5) in *.
  apply Rmult_le_reg_r with (256 * (R5 * R5)); [nra|].
  replace ((s * K * d ^ 3 / 48 * 3 * d * dx / R5
            * (s * K * d ^ 3 / 48 * 3 * d * dx / R5)
            + s * K * d ^ 3 / 48 * 3 * d * dy / R5
              * (s * K * d ^ 3 / 48 * 3 * d * dy / R5))
           * (256 * (R5 * R5)))
    with (s * s * ((K * K) * u * (d * d) ^ 4))
    by (unfold u; field; lra).
  rewrite HK, HR5.
  replace (5 ^ 5) with 3125 by (simpl; ring).
  pose proof (dipole_polynomial u (d * d) Hu ltac:(lra)) as Hp.
  pose proof (Rle_0_sqr s) as Hs. unfold Rsqr in Hs.
  apply Rmult_le_compat_l; assumption.
Qed.

Lemma dipole_peak_value : forall a,
  0 < d_depth a ->
  let p := perturbation_dipole (d_px a + d_depth a / 2) (d_py a) a in
  vx p = d_strength a /\ vy p = 0.
Proof.
  intros a Hd p. unfold p, perturbation_dipole. cbv zeta. cbn [vx vy].
  set (d := d_depth a) in *. set (s := d_strength a).
  replace (d_px a + d / 2 - d_px a) with (d / 2) by ring.
  replace (d_py a - d_py a) with 0 by ring.
  assert (Hh : 0 < d / 2) by lra.
  replace (d / 2 * (d / 2) + 0 * 0 + d * d) with (5 * ((d / 2) * (d / 2)))
    by field.
  pose proof (cpow_pos 5 2.5 ltac:(lra)) as HKpos.
  assert (HR5 : cpow (5 * (d / 2 * (d / 2))) 2.5
                = cpow 5 2.5 * (d / 2) ^ 5).
  { unfold cpow.
    destruct (Req_dec_T (5 * (d / 2 * (d / 2))) 0) as [H0|_]; [nra|].
    destruct (Req_dec_T 5 0) as [H0|_]; [lra|].
    rewrite <- Rpower_mult_distr by nra.
    rewrite <- Rpower_mult_distr by lra.
    rewrite <- Rpower_plus.
    replace (2.5 + 2.5) with (INR 5) by (simpl; lra).
    rewrite Rpower_pow by lra. reflexivity. }
  rewrite HR5. set (K := cpow 5 2.5) in *.
  split; field; lra.
Qed.

(** X6: the dipole anomaly is normalised as its comment says: for a
    positive burial depth its horizontal perturbation is nowhere stronger
    than [strength], and it equals [strength] at horizontal distance
    [depth / 2] from the dipole (here at the point [depth / 2] east of
    it, where it points east). *)
Theorem dipole_peak_horizontal_anomaly_is_strength :
  forall (a : DipoleAnomaly),
    0 < d_depth a ->
    (forall x y : R,
        vx (perturbation_dipole x y a) * vx (perturbation_dipole x y a)
        + vy (perturbation_dipole x y a) * vy (perturbation_dipole x y a)
        <= d_strength a * d_strength a)
    /\ vx (perturbation_dipole (d_px a + d_depth a / 2) (d_py a) a)
       = d_strength a
    /\ vy (perturbation_dipole (d_px a + d_depth a / 2) (d_py a) a) = 0.
Proof.
  intros a Hd. split.
  - intros x y. apply (dipole_horizontal_bound a x y Hd).
  - apply (dipole_peak_value a Hd).
Qed.

Lemma dipole_peak_witness :
  vx (perturbation_dipole (500 + 50 / 2) 500 (mkDipole 500 500 5 50)) = 5.
Proof.
  assert (Hd : 0 < d_depth (mkDipole 500 500 5 50)) by (cbn; lra).
  exact (proj1 (proj2 (dipole_peak_horizontal_anomaly_is_strength
                         (mkDipole 500 500 5 50) Hd))).
Defined.
End FieldFacts.

(** ** compass.hpp: what a reading depends on *)

Module SensorFacts.
Import Compass.

Lemma fold_left_pointwise {A B} : forall (f g : A -> B -> A) l a,
  (forall a b, f a b = g a b) -> fold_left f l a = fold_left g l a.
Proof.
  intros f g l. induction l as [|b l IH]; intros a Hfg; [reflexivity|].
  cbn [fold_left]. rewrite Hfg. apply IH. assumption.
Qed.

Lemma singlet_yield_half_turn : forall alpha contrast mean_yield,
  singlet_yield (alpha + PI) contrast mean_yield
  = singlet_yield alpha contrast mean_yield.
Proof.
  intros alpha contrast mean_yield. unfold singlet_yield. cbv zeta.
  replace (2 * (alpha + PI)) with (2 * alpha + 2 * PI) by ring.
  rewrite cos_plus, cos_2PI, sin_2PI. f_equal. ring.
Qed.

Lemma singlet_yield_range : forall alpha contrast mean_yield,
  0 <= contrast * mean_yield ->
  mean_yield <= singlet_yield alpha contrast mean_yield
             <= mean_yield + contrast * mean_yield.
Proof.
  intros alpha contrast mean_yield Hd. unfold singlet_yield. cbv zeta.
  pose proof (COS_bound (2 * alpha)) as [Hlo Hhi]. split; nra.
Qed.

Lemma read_with_half_turn : forall N s heading nz,
  read_with N s (heading + PI) nz = read_with N s heading nz.
Proof.
  intros N s heading nz. unfold read_with. f_equal.
  apply fold_left_pointwise. intros sums kn. unfold add_yield.
  replace (heading + PI - nth (fst kn) (phi_ s) 0)
    with (heading - nth (fst kn) (phi_ s) 0 + PI) by ring.
  rewrite singlet_yield_half_turn. reflexivity.
Qed.

(** X7: the compass cannot tell a heading from the opposite one: [read] at
    [heading + pi] returns the same channel values as [read] at [heading]
    and leaves the generator in the same state, for every sensor, noisy or
    not. *)
Theorem read_is_blind_to_half_turns :
  forall (RS : RandomSource) (N : nat) (s : t) (heading : R) (g : rng),
    read N s (heading + PI) g = read N s heading g.
Proof.
  intros RS N s heading g. rewrite !CompassFacts.read_draws.
  destruct (Rlt_dec 0 (sigma_sensor_ s)).
  - destruct (normal_draws _ _ _) as [[nz d] g'].
    rewrite read_with_half_turn. reflexivity.
  - rewrite read_with_half_turn. reflexivity.
Qed.


Lemma Rsum_bounds : forall (f : nat -> R) lo hi l,
  (forall k, lo <= f k <= hi) ->
  INR (length l) * lo <= Rsum (map f l) <= INR (length l) * hi.
Proof.
  intros f lo hi l Hf. unfold Rsum.
  induction l as [|k l IH].
  - cbn. lra.
  - cbn [map fold_right length]. rewrite S_INR.
    specialize (Hf k). lra.
Qed.

(** The reading of one channel of a noiseless sensor. *)
Lemma quiet_channel :
  forall (RS : RandomSource) N n_cry contrast mean_yield heading g c,
    (c < N)%nat ->
    let s := make N n_cry contrast mean_yield 0 in
    nth c (fst (read N s heading g)) 0
    = match members s c with
      | [] => 0
      | _ :: _ => channel_mean s heading c
      end.
Proof.
  intros RS N n_cry contrast mean_yield heading g c Hc s.
  destruct (CompassFacts.compass_make_fields N n_cry contrast mean_yield 0)
    as (_ & _ & _ & Hsig & _).
  fold s in Hsig.
  rewrite CompassFacts.read_draws, Hsig.
  destruct (Rlt_dec 0 0) as [Hlt|_]; [lra|]. cbn [fst].
  unfold read_with. rewrite CompassFacts.nth_average by assumption.
  pose proof (CompassFacts.counts_are_member_counts
                N n_cry contrast mean_yield 0 c Hc) as Hm.
  cbv zeta in Hm. fold s in Hm. rewrite Hm.
  replace (repeat 0 (n_cry_ s))
    with (repeat 0 (length (seq 0 (n_cry_ s))))
    by (rewrite length_seq; reflexivity).
  rewrite CompassFacts.sums_noiseless by (rewrite repeat_length; assumption).
  rewrite nth_repeat, Rplus_0_l. unfold channel_mean.
  change (filter (fun k => (nth k (assignments_ s) 0 =? c)%nat)
                 (seq 0 (n_cry_ s))) with (members s c).
  destruct (members s c); reflexivity.
Qed.

(** X8: every channel value a noiseless sensor returns lies between the
    mean yield and the mean yield plus [contrast * mean_yield] (the range
    of the singlet yield, when that product is not negative), except for
    a channel without molecules, which reads 0. *)
Theorem quiet_readings_within_yield_range :
  forall (RS : RandomSource) (N n_cry : nat)
         (contrast mean_yield heading : R) (g : rng) (c : nat),
    (c < N)%nat -> 0 <= contrast * mean_yield ->
    let s := make N n_cry contrast mean_yield 0 in
    let v := nth c (fst (read N s heading g)) 0 in
    match members s c with
    | [] => v = 0
    | _ :: _ => mean_yield <= v <= mean_yield + contrast * mean_yield
    end.
Proof.
  intros RS N n_cry contrast mean_yield heading g c Hc Hd s v.
  pose proof (quiet_channel RS N n_cry contrast mean_yield heading g c Hc)
    as Hv.
  cbv zeta in Hv. fold s in Hv. fold v in Hv.
  assert (Hfields : contrast_ s = contrast /\ mean_yield_ s = mean_yield).
  { destruct (CompassFacts.compass_make_fields N n_cry contrast mean_yield 0)
      as (_ & H1 & H2 & _). split; assumption. }
  destruct Hfields as [Hcon Hmean].
  revert Hv. unfold channel_mean. rewrite Hcon, Hmean.
  destruct (members s c) as [|k ks]; intro Hv; [exact Hv|].
  rewrite Hv.
  pose proof (Rsum_bounds
                (fun k => singlet_yield (heading - nth k (phi_ s) 0)
                                        contrast mean_yield)
                mean_yield (mean_yield + contrast * mean_yield) (k :: ks)
                (fun k => singlet_yield_range _ contrast mean_yield Hd))
    as [Hlo Hhi].
  assert (Hn : 0 < INR (length (k :: ks))).
  { apply lt_0_INR. cbn. lia. }
  set (n := INR (length (k :: ks))) in *.
  set (S := Rsum _) in *.
  split.
  - apply Rmult_le_reg_r with n; [assumption|].
    unfold Rdiv. rewrite Rmult_assoc, Rinv_l by lra. lra.
  - apply Rmult_le_reg_r with n; [assumption|].
    unfold Rdiv. rewrite Rmult_assoc, Rinv_l by lra. lra.
Qed.

Lemma quiet_readings_witness :
  match members (make 8 1000 0.15 0.5 0) 3 with
  | [] => nth 3 (fst (@read 8 counting (make 8 1000 0.15 0.5 0) 1 O)) 0 = 0
  | _ :: _ =>
      0.5 <= nth 3 (fst (@read 8 counting (make 8 1000 0.15 0.5 0) 1 O)) 0
          <= 0.5 + 0.15 * 0.5
  end.
Proof.
  assert (Hc : (3 < 8)%nat) by lia.
  assert (Hd : 0 <= 0.15 * 0.5) by lra.
  exact (quiet_readings_within_yield_range
           counting 8 1000 0.15 0.5 1 O 3%nat Hc Hd).
Defined.

(** The inner loop of [init_molecules] keeps the smallest distance met so
    far, with the first channel that attains it. *)
Lemma nearer_fold : forall N p l best,
  let r := fold_left (nearer N p) l best in
  fst r <= fst best
  /\ (forall c, In c l ->
        fst r <= Rabs (wrap_pi (p - nth c (centres N) 0)))
  /\ (r = best
      \/ (In (snd r) l
          /\ fst r = Rabs (wrap_pi (p - nth (snd r) (centres N) 0)))).
Proof.
  intros N p l. induction l as [|c l IH]; intros best r.
  - unfold r. cbn. split; [lra|]. split; [intros c []|left; reflexivity].
  - unfold r. cbn [fold_left].
    destruct (IH (nearer N p best c)) as (H1 & H2 & H3).
    set (r' := fold_left (nearer N p) l (nearer N p best c)) in *.
    assert (Hstep : fst (nearer N p best c) <= fst best
                    /\ fst (nearer N p best c)
                       <= Rabs (wrap_pi (p - nth c (centres N) 0))).
    { unfold nearer. cbv zeta.
      destruct (Rlt_dec _ (fst best)); cbn [fst]; lra. }
    split; [lra|]. split.
    + intros c' [<-|Hin]; [lra|]. apply H2. assumption.
    + destruct H3 as [H3|[H3 H4]].
      * rewrite H3. unfold nearer. cbv zeta.
        destruct (Rlt_dec _ (fst best)); [|left; reflexivity].
        right. cbn [fst snd]. split; [left; reflexivity|reflexivity].
      * right. split; [right; assumption|assumption].
Qed.

(** X9: [init_molecules] assigns every molecule to a channel whose centre
    is nearest to the orientation of the molecule, the angular distance
    being the absolute value of their difference wrapped to [[-pi, pi)]:
    no channel is nearer than the assigned one. *)
Theorem molecules_go_to_a_nearest_channel :
  forall (N n_cry : nat) (contrast mean_yield sigma_sensor : R) (k c : nat),
    (k < n_cry)%nat -> (c < N)%nat ->
    let s := make N n_cry contrast mean_yield sigma_sensor in
    Rabs (wrap_pi (nth k (phi_ s) 0
                   - nth (nth k (assignments_ s) 0%nat) (centres N) 0))
    <= Rabs (wrap_pi (nth k (phi_ s) 0 - nth c (centres N) 0)).
Proof.
  intros N n_cry contrast mean_yield sigma_sensor k c Hk Hc s.
  unfold s, make, init_molecules. cbn [phi_ assignments_].
  set (phi := map (fun k => TWO_PI * INR k / INR n_cry) (seq 0 n_cry)).
  assert (Hlen : length phi = n_cry)
    by (unfold phi; rewrite length_map, length_seq; reflexivity).
  rewrite (nth_indep (map (nearest N) phi) 0%nat (nearest N 0))
    by (rewrite length_map; lia).
  rewrite map_nth. set (p := nth k phi 0).
  unfold nearest.
  destruct (nearer_fold N p (seq 0 N) (1e30, 0%nat)) as (_ & H2 & H3).
  set (r := fold_left (nearer N p) (seq 0 N) (1e30, 0%nat)) in *.
  assert (Hin : In c (seq 0 N)) by (apply in_seq; lia).
  destruct H3 as [H3|[_ H4]].
  - exfalso. specialize (H2 c Hin). rewrite H3 in H2. cbn [fst] in H2.
    pose proof (wrap_pi_range (p - nth c (centres N) 0)) as Hw.
    pose proof PI_4 as Hpi4.
    assert (Rabs (wrap_pi (p - nth c (centres N) 0)) <= PI).
    { unfold Rabs. destruct (Rcase_abs _); lra. }
    lra.
  - rewrite <- H4. apply H2. assumption.
Qed.

Lemma nearest_channel_witness :
  Rabs (wrap_pi (nth 1 (phi_ (make 8 1000 0.15 0.5 0.02)) 0
                 - nth (nth 1 (assignments_ (make 8 1000 0.15 0.5 0.02)) 0%nat)
                       (centres 8) 0))
  <= Rabs (wrap_pi (nth 1 (phi_ (make 8 1000 0.15 0.5 0.02)) 0
                    - nth 5 (centres 8) 0)).
Proof.
  assert (Hk : (1 < 1000)%nat) by lia.
  assert (Hc : (5 < 8)%nat) by lia.
  exact (molecules_go_to_a_nearest_channel 8 1000 0.15 0.5 0.02 1 5 Hk Hc).
Defined.

End SensorFacts.

(** ** ring_attractor.hpp: decoding, connectivity, and what a step can do *)

Module EstimatorFacts.
Import Ring.

Lemma heading_range : forall N a, 0 <= heading N a < 2 * PI.
Proof.
  intros N a. pose proof PI_RGT_0 as Hpi. unfold heading. cbv zeta.
  destruct (Rlt_dec _ 1e-10); [lra|].
  pose proof (atan2_range (snd (population_vector N a))
                          (fst (population_vector N a))) as Hr.
  unfold carg. destruct (Rlt_dec _ 0); lra.
Qed.

(** X10: [heading] decodes into [[0, 2 pi)], for any number of units and
    any state, the degenerate states (population vector shorter than
    1e-10, decoded as 0) included. *)
Theorem heading_is_in_first_turn : forall (N : nat) (a : t),
  0 <= heading N a < 2 * PI.
Proof. exact heading_range. Qed.

(** [*std::max_element] and [*std::min_element] of a non-empty range. *)
Lemma fold_max_spec : forall l m,
  let r := fold_left (fun m v => if Rlt_dec m v then v else m) l m in
  (r = m \/ In r l) /\ m <= r /\ (forall v, In v l -> v <= r).
Proof.
  induction l as [|x l IH]; intros m r.
  - unfold r. cbn. split; [left; reflexivity|]. split; [lra|intros v []].
  - unfold r. cbn [fold_left].
    destruct (IH (if Rlt_dec m x then x else m)) as (H1 & H2 & H3).
    set (r' := fold_left _ l _) in *.
    destruct (Rlt_dec m x) as [Hlt|Hge].
    + split; [|split].
      * right. destruct H1 as [->|Hin]; [left; reflexivity|right; assumption].
      * lra.
      * intros v [<-|Hin]; [assumption|apply H3; assumption].
    + split; [|split].
      * destruct H1 as [->|Hin]; [left; reflexivity|right; right; assumption].
      * assumption.
      * intros v [<-|Hin]; [lra|apply H3; assumption].
Qed.

Lemma fold_min_spec : forall l m,
  let r := fold_left (fun m v => if Rlt_dec v m then v else m) l m in
  (r = m \/ In r l) /\ r <= m /\ (forall v, In v l -> r <= v).
Proof.
  induction l as [|x l IH]; intros m r.
  - unfold r. cbn. split; [left; reflexivity|]. split; [lra|intros v []].
  - unfold r. cbn [fold_left].
    destruct (IH (if Rlt_dec x m then x else m)) as (H1 & H2 & H3).
    set (r' := fold_left _ l _) in *.
    destruct (Rlt_dec x m) as [Hlt|Hge].
    + split; [|split].
      * right. destruct H1 as [->|Hin]; [left; reflexivity|right; assumption].
      * lra.
      * intros v [<-|Hin]; [assumption|apply H3; assumption].
    + split; [|split].
      * destruct H1 as [->|Hin]; [left; reflexivity|right; right; assumption].
      * assumption.
      * intros v [<-|Hin]; [lra|apply H3; assumption].
Qed.

Lemma max_element_spec : forall l,
  l <> [] ->
  In (max_element l) l /\ (forall v, In v l -> v <= max_element l).
Proof.
  intros [|x l] Hne; [contradiction|]. unfold max_element. cbn [hd tl].
  destruct (fold_max_spec l x) as (H1 & H2 & H3). split.
  - destruct H1 as [->|Hin]; [left; reflexivity|right; assumption].
  - intros v [<-|Hin]; [assumption|apply H3; assumption].
Qed.

Lemma min_element_spec : forall l,
  l <> [] ->
  In (min_element l) l /\ (forall v, In v l -> min_element l <= v).
Proof.
  intros [|x l] Hne; [contradiction|]. unfold min_element. cbn [hd tl].
  destruct (fold_min_spec l x) as (H1 & H2 & H3). split.
  - destruct H1 as [->|Hin]; [left; reflexivity|right; assumption].
  - intros v [<-|Hin]; [assumption|apply H3; assumption].
Qed.



(** X12: the excitatory weights [init_connectivity] computes are
    symmetric, equal to [w_exc] on the diagonal, and, for a non-negative
    [w_exc], between 0 and [w_exc] everywhere. *)
Theorem connectivity_is_symmetric :
  forall (N : nat) (w_exc : R) (i j : nat),
    (i < N)%nat -> (j < N)%nat ->
    let W := init_W N w_exc (init_theta N) in
    nth j (nth i W []) 0 = nth i (nth j W []) 0
    /\ nth i (nth i W []) 0 = w_exc
    /\ (0 <= w_exc -> 0 <= nth j (nth i W []) 0 <= w_exc).
Proof.
  intros N w_exc i j Hi Hj W.
  assert (Hentry : forall p q, (p < N)%nat -> (q < N)%nat ->
            nth q (nth p W []) 0
            = w_exc * fmax 0 (cos (nth p (init_theta N) 0
                                   - nth q (init_theta N) 0))).
  { intros p q Hp Hq. unfold W, init_W.
    rewrite (ArrayFacts.nth_map_seq _ N p []) by assumption.
    rewrite (ArrayFacts.nth_map_seq _ N q 0) by assumption.
    reflexivity. }
  rewrite !Hentry by assumption.
  split; [|split].
  - f_equal. f_equal. rewrite <- cos_neg. f_equal. ring.
  - replace (nth i (init_theta N) 0 - nth i (init_theta N) 0) with 0 by ring.
    rewrite cos_0. unfold fmax. destruct (Rlt_dec 0 1); lra.
  - intro Hw.
    pose proof (COS_bound (nth i (init_theta N) 0 - nth j (init_theta N) 0))
      as [_ Hc].
    unfold fmax. destruct (Rlt_dec 0 _); nra.
Qed.

Lemma connectivity_witness :
  nth 1 (nth 1 (init_W 8 1.5 (init_theta 8)) []) 0 = 1.5.
Proof.
  assert (H1 : (1 < 8)%nat) by lia.
  exact (proj1 (proj2 (connectivity_is_symmetric 8 1.5 1 1 H1 H1))).
Defined.


(** *** A ring without activity *)

Lemma nth_all_zero : forall (l : list R) i,
  (forall v, In v l -> v = 0) -> nth i l 0 = 0.
Proof.
  intros l i Hall. destruct (nth_in_or_default i l 0) as [Hin| ->].
  - apply Hall. assumption.
  - reflexivity.
Qed.

Lemma nth_zeros : forall n i, nth i (repeat 0 n) 0 = 0.
Proof.
  intros n i. apply nth_all_zero. intros v Hv.
  apply repeat_spec in Hv. assumption.
Qed.

Lemma map_zero : forall (f : nat -> R) n,
  (forall i, f i = 0) -> map f (seq 0 n) = repeat 0 n.
Proof.
  intros f n Hf. generalize 0%nat.
  induction n as [|n IH]; intro k; [reflexivity|].
  cbn [seq map repeat]. rewrite Hf, IH. reflexivity.
Qed.

Lemma fold_sum_zero : forall (f : nat -> R) l s0,
  (forall j, f j = 0) -> fold_left (fun s j => s + f j) l s0 = s0.
Proof.
  intros f l. induction l as [|j l IH]; intros s0 Hf; [reflexivity|].
  cbn [fold_left]. rewrite Hf, Rplus_0_r. apply IH. assumption.
Qed.

Lemma silent_population_vector : forall N a,
  r_ a = repeat 0 N -> population_vector N a = (0, 0).
Proof.
  intros N a Hr. unfold population_vector. rewrite Hr.
  generalize (seq 0 N). intro l.
  induction l as [|i l IH]; [reflexivity|].
  cbn [fold_left]. rewrite nth_zeros. unfold cadd_scaled at 2. cbn [fst snd].
  replace (0 + 0 * fst (polar (nth i (theta_ a) 0))) with 0 by ring.
  replace (0 + 0 * snd (polar (nth i (theta_ a) 0))) with 0 by ring.
  exact IH.
Qed.

Lemma silent_heading : forall N a,
  r_ a = repeat 0 N -> heading N a = 0.
Proof.
  intros N a Hr. unfold heading. rewrite (silent_population_vector N a Hr).
  unfold cabs. cbn [fst snd].
  replace (0 * 0 + 0 * 0) with 0 by ring. rewrite sqrt_0.
  destruct (Rlt_dec 0 1e-10); [reflexivity|lra].
Qed.

Lemma silent_step_with : forall N a dt ci av,
  0 <= threshold_ a -> 0 <= r_max_ a -> r_ a = repeat 0 N ->
  r_ (step_with N a dt ci av (repeat 0 N)) = repeat 0 N.
Proof.
  intros N a dt ci av Hthr Hmax Hr. unfold step_with. cbn [r_ set_r].
  apply map_zero. intro i. unfold update_rate.
  assert (Hgrad : forall k, bump_gradient N a k = 0).
  { intro k. unfold bump_gradient. rewrite Hr, !nth_zeros. ring. }
  assert (Hexc : nth i (excitation N a) 0 = 0).
  { apply nth_all_zero. intros v Hv. unfold excitation in Hv.
    apply in_map_iff in Hv. destruct Hv as [k [<- _]].
    apply (fold_sum_zero
             (fun j => nth j (nth k (W_exc_ a) []) 0 * nth j (r_ a) 0)).
    intro j. rewrite Hr, nth_zeros. ring. }
  assert (Hinh : inhibition N a = 0).
  { unfold inhibition.
    rewrite (fold_sum_zero (fun i => nth i (r_ a) 0))
      by (intro j; rewrite Hr; apply nth_zeros).
    unfold Rdiv. ring. }
  assert (Hmag : nth i (magnetic_input N a ci) 0 = 0).
  { apply nth_all_zero. intros v Hv. unfold magnetic_input in Hv.
    destruct ci as [ci|]; [|apply repeat_spec in Hv; assumption].
    cbv zeta in Hv. destruct (Rlt_dec 1e-10 _).
    - apply in_map_iff in Hv. destruct Hv as [k [<- _]].
      rewrite Hgrad. ring.
    - apply repeat_spec in Hv. assumption. }
  assert (Hom : nth i (omega_input N a av) 0 = 0).
  { apply nth_all_zero. intros v Hv. unfold omega_input in Hv.
    destruct (Req_dec_T av 0); [apply repeat_spec in Hv; assumption|].
    apply in_map_iff in Hv. destruct Hv as [k [<- _]].
    rewrite Hgrad. ring. }
  rewrite Hexc, Hinh, Hmag, Hom, Hr, !nth_zeros.
  assert (Hact : clamp (0 - 0 + 0 + 0 - threshold_ a + 0) 0 (r_max_ a) = 0).
  { unfold clamp. destruct (Rlt_dec _ 0); [reflexivity|].
    destruct (Rlt_dec (r_max_ a) _); lra. }
  rewrite Hact.
  replace (0 + (- 0 + 0) / tau_ a * dt) with 0 by (unfold Rdiv; ring).
  unfold clamp. destruct (Rlt_dec 0 0); [lra|].
  destruct (Rlt_dec (r_max_ a) 0); lra.
Qed.

(** X13: a ring without activity cannot be started by its inputs: when the
    neural noise is off, the threshold is not negative (and [tau] is not
    zero), a state with every rate at 0 stays so through any sequence of
    [step] calls, whatever compass inputs and angular velocities they are
    given; [heading] keeps returning 0 and nothing is drawn from the
    generator. *)
Theorem silent_ring_stays_silent :
  forall (RS : RandomSource) (N : nat)
         (inputs : list (R * option (list R) * R)) (a : t) (g : rng),
    tau_ a <> 0 -> 0 <= threshold_ a -> 0 <= r_max_ a ->
    noise_sigma_ a <= 0 -> r_ a = repeat 0 N ->
    let st := steps_with_inputs N inputs a g in
    r_ (fst st) = repeat 0 N /\ heading N (fst st) = 0 /\ snd st = g.
Proof.
  intros RS N inputs a g _. unfold steps_with_inputs. cbv zeta.
  revert a. induction inputs as [|[[dt ci] av] inputs IH];
    intros a Hthr Hmax Hsig Hr.
  - cbn [fold_left fst snd].
    split; [assumption|]. split; [apply silent_heading; assumption|reflexivity].
  - cbn [fold_left fst snd].
    rewrite RingFacts.step_is_step_with.
    assert (Hnz : neural_noise N a g = (repeat 0 N, g)).
    { unfold neural_noise. destruct (Rlt_dec 0 (noise_sigma_ a)); [lra|].
      reflexivity. }
    rewrite Hnz. cbn [fst snd].
    apply IH; try assumption.
    apply silent_step_with; assumption.
Qed.

Lemma silent_ring_witness :
  heading 8
    (fst (@steps_with_inputs counting 8
            [(0.01, Some [1; 2; 3; 4; 5; 6; 7; 8], 3)]
            (mkRing 0.05 1.5 4.5 2 0.5 0 1 0 (init_theta 8)
                    (init_W 8 1.5 (init_theta 8)) (repeat 0 8))
            O)) = 0.
Proof.
  set (a := mkRing 0.05 1.5 4.5 2 0.5 0 1 0 (init_theta 8)
                   (init_W 8 1.5 (init_theta 8)) (repeat 0 8)).
  assert (H1 : tau_ a <> 0) by (cbn; lra).
  assert (H2 : 0 <= threshold_ a) by (cbn; lra).
  assert (H3 : 0 <= r_max_ a) by (cbn; lra).
  assert (H4 : noise_sigma_ a <= 0) by (cbn; lra).
  exact (proj1 (proj2 (silent_ring_stays_silent
                         counting 8
                         [(0.01, Some [1; 2; 3; 4; 5; 6; 7; 8], 3)]
                         a O H1 H2 H3 H4 eq_refl))).
Defined.

(** *** The compass drive and the rate update *)

Lemma nth_constant : forall (c : R) n i, (i < n)%nat -> nth i (repeat c n) 0 = c.
Proof.
  intros c n i Hi.
  rewrite (nth_indep _ 0 c) by (rewrite repeat_length; assumption).
  apply nth_repeat.
Qed.

Lemma fold_sum_const : forall (f : nat -> R) c l s0,
  (forall i, In i l -> f i = c) ->
  fold_left (fun s i => s + f i) l s0 = s0 + INR (length l) * c.
Proof.
  intros f c l. induction l as [|i l IH]; intros s0 Hf.
  - cbn. ring.
  - cbn [fold_left length]. rewrite IH by (intros k Hk; apply Hf; right; assumption).
    rewrite (Hf i) by (left; reflexivity). rewrite S_INR. ring.
Qed.

Lemma fold_polar_zero : forall (coef angle : nat -> R) l,
  (forall i, In i l -> coef i = 0) ->
  fold_left (fun z i => cadd_scaled z (coef i) (polar (angle i))) l (0, 0)
  = (0, 0).
Proof.
  intros coef angle l. induction l as [|i l IH]; intro Hc; [reflexivity|].
  cbn [fold_left]. rewrite (Hc i) by (left; reflexivity).
  unfold cadd_scaled at 2. cbn [fst snd].
  replace (0 + 0 * fst (polar (angle i))) with 0 by ring.
  replace (0 + 0 * snd (polar (angle i))) with 0 by ring.
  apply IH. intros k Hk. apply Hc. right. assumption.
Qed.

(** X14: the compass can only push a bump that has a slope: the magnetic
    drive of unit [i] is at most [|g_mag| * pi/2] times the difference
    between the rates of its two neighbours in absolute value (the
    heading error it is built from lies in [(-pi/2, pi/2]]); and a compass
    input with the same value in every channel gives no drive at all. *)
Theorem magnetic_drive_is_bounded_by_bump_slope :
  forall (N : nat) (a : t) (compass_input : option (list R)) (i : nat),
    (i < N)%nat ->
    Rabs (nth i (magnetic_input N a compass_input) 0)
    <= Rabs (g_mag_ a) * (PI / 2) * Rabs (bump_gradient N a i)
    /\ (forall c : R, magnetic_input N a (Some (repeat c N)) = repeat 0 N).
Proof.
  intros N a ci i Hi. pose proof PI_RGT_0 as Hpi. split.
  - assert (Hnn : 0 <= Rabs (g_mag_ a) * (PI / 2) * Rabs (bump_gradient N a i)).
    { apply Rmult_le_pos; [apply Rmult_le_pos; [apply Rabs_pos|lra]
                          |apply Rabs_pos]. }
    unfold magnetic_input.
    destruct ci as [ci|]; [|rewrite nth_zeros, Rabs_R0; assumption].
    cbv zeta. destruct (Rlt_dec 1e-10 _);
      [|rewrite nth_zeros, Rabs_R0; assumption].
    rewrite (ArrayFacts.nth_map_seq _ N i 0) by assumption.
    rewrite !Rabs_mult.
    apply Rmult_le_compat_r; [apply Rabs_pos|].
    apply Rmult_le_compat_l; [apply Rabs_pos|].
    match goal with
    | |- Rabs (carg ?z / 2) <= _ =>
        pose proof (atan2_range (snd z) (fst z)) as Hr;
        fold (carg z) in Hr; set (e := carg z) in *
    end.
    unfold Rabs. destruct (Rcase_abs (e / 2)); lra.
  - intro c. unfold magnetic_input. cbv zeta.
    assert (Hmean : fold_left (fun s k => s + nth k (repeat c N) 0) (seq 0 N) 0
                    / INR N = c).
    { rewrite (fold_sum_const (fun k => nth k (repeat c N) 0) c).
      - rewrite length_seq. field. apply not_0_INR. lia.
      - intros k Hk. apply in_seq in Hk. apply nth_constant. lia. }
    rewrite Hmean.
    rewrite (fold_polar_zero (fun k => nth k (repeat c N) 0 - c)
                             (fun k => 2 * nth k (theta_ a) 0)).
    + unfold cabs. cbn [fst snd].
      replace (0 * 0 + 0 * 0) with 0 by ring. rewrite sqrt_0.
      destruct (Rlt_dec 1e-10 0); [lra|reflexivity].
    + intros k Hk. apply in_seq in Hk. rewrite nth_constant by lia. ring.
Qed.

Lemma magnetic_drive_witness :
  magnetic_input 8
    (mkRing 0.05 1.5 4.5 2 0.5 0 1 0 (init_theta 8)
            (init_W 8 1.5 (init_theta 8)) (repeat 0.5 8))
    (Some (repeat 0.5 8))
  = repeat 0 8.
Proof.
  assert (Hi : (0 < 8)%nat) by lia.
  exact (proj2 (magnetic_drive_is_bounded_by_bump_slope
                  8 (mkRing 0.05 1.5 4.5 2 0.5 0 1 0 (init_theta 8)
                            (init_W 8 1.5 (init_theta 8)) (repeat 0.5 8))
                  None 0 Hi) 0.5).
Defined.



(** *** The bumps [reset] makes *)

Lemma heading_of_polar_exact : forall a rho alpha,
  population_vector 8 a = (rho * cos alpha, rho * sin alpha) ->
  1e-10 <= rho -> 0 <= alpha < 2 * PI ->
  heading 8 a = alpha.
Proof.
  intros a rho alpha Hz Hrho Ha. pose proof PI_RGT_0 as Hpi.
  destruct (BumpFacts.heading_of_polar a rho alpha Hz Hrho) as [k Hk].
  pose proof (heading_range 8 a) as Hr.
  rewrite Hk in Hr |- *.
  assert (Hk0 : k = 0%Z).
  { assert (H1 : (-1 < k)%Z) by (apply lt_IZR; nra).
    assert (H2 : (k < 1)%Z) by (apply lt_IZR; nra).
    lia. }
  rewrite Hk0. simpl. ring.
Qed.

Lemma In_rot : forall (v : R) r, length r = 8%nat -> In v (rot r) <-> In v r.
Proof.
  intros v r Hlen.
  destruct (BumpFacts.length_8_inv r Hlen)
    as (r0 & r1 & r2 & r3 & r4 & r5 & r6 & r7 & ->).
  cbn [rot In]. tauto.
Qed.

Lemma In_rots : forall (v : R) j r,
  length r = 8%nat -> In v (rots j r) <-> In v r.
Proof.
  intros v j r Hlen. induction j as [|j IH]; cbn [rots]; [tauto|].
  rewrite In_rot by (rewrite BumpFacts.length_rots; assumption). exact IH.
Qed.

(** The rates [init_bump] writes when the generator hands it unit [j]:
    the triangular bump around unit 0, shifted [j] times. *)
Lemma init_bump_rates : forall j,
  (j < 8)%nat ->
  map (fun i =>
         fmax 0 (0.5 - 0.15
                       * IZR (Z.min (Z.abs (Z.of_nat i - Z.of_nat j))
                                    (Z.of_nat 8
                                     - Z.abs (Z.of_nat i - Z.of_nat j)))))
      (seq 0 8)
  = rots j [0.5; 0.35; 0.2; 0.05; 0; 0.05; 0.2; 0.35].
Proof.
  intros j Hj.
  do 8 (destruct j as [|j];
        [cbn [seq map rots rot]; cbv zeta;
         repeat (apply f_equal2;
                 [match goal with
                  | |- fmax 0 (0.5 - 0.15 * IZR ?z) = _ =>
                      let z' := eval vm_compute in z in
                      change z with z'
                  end;
                  unfold fmax; destruct (Rlt_dec _ _); lra|]);
         reflexivity|]).
  lia.
Qed.

Lemma triangular_population_vector : forall a,
  theta_ a = init_theta 8 ->
  population_vector 8 (set_r a [0.5; 0.35; 0.2; 0.05; 0; 0.05; 0.2; 0.35])
  = ((0.5 + 0.6 * s2) * cos 0, (0.5 + 0.6 * s2) * sin 0).
Proof.
  intros a Hth. unfold population_vector. cbn [r_ theta_ set_r].
  rewrite Hth. unfold init_theta. rewrite angles_8.
  cbn [seq fold_left nth]. unfold cadd_scaled, polar. cbn [fst snd].
  autorewrite with octant. f_equal; lra.
Qed.

Lemma spread_of_bump : forall l : list R,
  (forall v, In v l -> 0 <= v <= 0.5) -> In 0.5 l -> In 0 l ->
  max_element l - min_element l = 0.5.
Proof.
  intros l Hall Hhi Hlo.
  assert (Hne : l <> []) by (intro He; rewrite He in Hhi; contradiction).
  destruct (max_element_spec l Hne) as [H1 H2].
  destruct (min_element_spec l Hne) as [H3 H4].
  pose proof (Hall _ H1). pose proof (Hall _ H3).
  pose proof (H2 _ Hhi). pose proof (H4 _ Hlo). lra.
Qed.



(** X17: [reset] with a heading [h >= 0] draws nothing from the
    generator, keeps the parameters and the connectivity, and writes [N]
    rates between 0 and 0.5; the state it leaves depends on [h] only up
    to whole turns ([h + 2 pi] gives the same rates). *)
Theorem reset_to_heading_is_deterministic_and_periodic :
  forall (RS : RandomSource) (N : nat) (a : t) (h : R) (g : rng),
    0 <= h ->
    let st := reset N a h g in
    snd st = g
    /\ length (r_ (fst st)) = N
    /\ Forall (fun v => 0 <= v <= 0.5) (r_ (fst st))
    /\ theta_ (fst st) = theta_ a /\ W_exc_ (fst st) = W_exc_ a
    /\ fst (reset N a (h + 2 * PI) g) = fst st.
Proof.
  intros RS N a h g Hh st. pose proof PI_RGT_0 as Hpi.
  unfold st, reset. cbv zeta.
  destruct (Rle_dec 0 h) as [_|Hn]; [|lra].
  destruct (Rle_dec 0 (h + 2 * PI)) as [_|Hn]; [|lra].
  cbn [fst snd r_ set_r theta_ W_exc_].
  split; [reflexivity|]. split; [|split; [|split; [|split]]].
  - unfold cosine_bump. rewrite length_map, length_seq. reflexivity.
  - apply Forall_forall. intros v Hv. unfold cosine_bump in Hv.
    apply in_map_iff in Hv. destruct Hv as [i [<- _]].
    match goal with |- context [cos ?x] => pose proof (COS_bound x) as [_ Hc] end.
    unfold fmax. destruct (Rlt_dec 0 _); lra.
  - reflexivity.
  - reflexivity.
  - f_equal. unfold cosine_bump. apply map_ext. intro i.
    rewrite !cos_wrap_pi. cbn [theta_ set_r]. f_equal. f_equal.
    replace (nth i (theta_ a) 0 - (h + 2 * PI))
      with (nth i (theta_ a) 0 - h - 2 * PI) by ring.
    rewrite <- (cos_period (nth i (theta_ a) 0 - h - 2 * PI) 1).
    f_equal. simpl. ring.
Qed.

Lemma reset_to_heading_witness :
  snd (@reset 8 counting
         (mkRing 0.05 1.5 4.5 2 0.5 0 1 0.01 (init_theta 8)
                 (init_W 8 1.5 (init_theta 8)) (repeat 0 8))
         1 O) = O.
Proof.
  assert (Hh : 0 <= 1) by lra.
  exact (proj1 (reset_to_heading_is_deterministic_and_periodic
                  counting 8
                  (mkRing 0.05 1.5 4.5 2 0.5 0 1 0.01 (init_theta 8)
                          (init_W 8 1.5 (init_theta 8)) (repeat 0 8))
                  1 O Hh)).
Defined.

Lemma fold_left_pointwise_in {A B} : forall (f g : A -> B -> A) l a,
  (forall a b, In b l -> f a b = g a b) -> fold_left f l a = fold_left g l a.
Proof.
  intros f g l. induction l as [|b l IH]; intros a Hfg; [reflexivity|].
  cbn [fold_left]. rewrite Hfg by (left; reflexivity).
  apply IH. intros a' b' Hin. apply Hfg. right. assumption.
Qed.

Lemma fold_sum_shift : forall (f : nat -> R) l s0 d,
  fold_left (fun s i => s + f i) l (s0 + d)
  = fold_left (fun s i => s + f i) l s0 + d.
Proof.
  intros f l. induction l as [|i l IH]; intros s0 d; [reflexivity|].
  cbn [fold_left].
  replace (s0 + d + f i) with (s0 + f i + d) by ring. apply IH.
Qed.

Lemma fold_sum_offset : forall (f : nat -> R) c l s0,
  fold_left (fun s i => s + (f i + c)) l s0
  = fold_left (fun s i => s + f i) l s0 + INR (length l) * c.
Proof.
  intros f c l. induction l as [|i l IH]; intro s0.
  - cbn. ring.
  - cbn [fold_left length]. rewrite IH, S_INR.
    replace (s0 + (f i + c)) with (s0 + f i + c) by ring.
    rewrite fold_sum_shift. ring.
Qed.

(** X30: the estimator reads the compass only through the deviations of
    the channels from their mean: adding one and the same offset to all
    [N] channels of a compass input leaves the magnetic drive of every
    unit unchanged. *)
Theorem magnetic_drive_ignores_common_offset :
  forall (N : nat) (a : t) (compass_input : list R) (c : R),
    (0 < N)%nat -> length compass_input = N ->
    magnetic_input N a (Some (map (fun v => v + c) compass_input))
    = magnetic_input N a (Some compass_input).
Proof.
  intros N a ci c HN Hlen.
  assert (Hnth : forall i, In i (seq 0 N) ->
            nth i (map (fun v => v + c) ci) 0 = nth i ci 0 + c).
  { intros i Hi. apply in_seq in Hi.
    rewrite (nth_indep _ 0 (0 + c)) by (rewrite length_map; lia).
    apply (map_nth (fun v => v + c)). }
  unfold magnetic_input. cbv zeta.
  assert (Hmean :
            fold_left (fun s i => s + nth i (map (fun v => v + c) ci) 0)
                      (seq 0 N) 0 / INR N
            = fold_left (fun s i => s + nth i ci 0) (seq 0 N) 0 / INR N + c).
  { rewrite (fold_left_pointwise_in
               (fun s i => s + nth i (map (fun v => v + c) ci) 0)
               (fun s i => s + (nth i ci 0 + c)))
      by (intros s i Hi; rewrite Hnth by assumption; reflexivity).
    rewrite (fold_sum_offset (fun i => nth i ci 0)), length_seq.
    field. apply not_0_INR. lia. }
  rewrite Hmean.
  set (mean_c := fold_left (fun s i => s + nth i ci 0) (seq 0 N) 0 / INR N).
  rewrite (fold_left_pointwise_in
             (fun z i =>
                cadd_scaled z (nth i (map (fun v => v + c) ci) 0 - (mean_c + c))
                            (polar (2 * nth i (theta_ a) 0)))
             (fun z i =>
                cadd_scaled z (nth i ci 0 - mean_c)
                            (polar (2 * nth i (theta_ a) 0)))).
  - reflexivity.
  - intros z i Hi. rewrite Hnth by assumption.
    replace (nth i ci 0 + c - (mean_c + c)) with (nth i ci 0 - mean_c) by ring.
    reflexivity.
Qed.

Lemma magnetic_offset_witness :
  magnetic_input 8
    (mkRing 0.05 1.5 4.5 2 0.5 0 1 0 (init_theta 8)
            (init_W 8 1.5 (init_theta 8)) (repeat 0.5 8))
    (Some (map (fun v => v + 0.5) [1; 2; 3; 4; 5; 6; 7; 8]))
  = magnetic_input 8
      (mkRing 0.05 1.5 4.5 2 0.5 0 1 0 (init_theta 8)
              (init_W 8 1.5 (init_theta 8)) (repeat 0.5 8))
      (Some [1; 2; 3; 4; 5; 6; 7; 8]).
Proof.
  assert (HN : (0 < 8)%nat) by lia.
  exact (magnetic_drive_ignores_common_offset
           8 (mkRing 0.05 1.5 4.5 2 0.5 0 1 0 (init_theta 8)
                     (init_W 8 1.5 (init_theta 8)) (repeat 0.5 8))
           [1; 2; 3; 4; 5; 6; 7; 8] 0.5 HN eq_refl).
Defined.
End EstimatorFacts.

(** ** path_integration.hpp: what the memory adds up to *)

Module IntegratorFacts.
Import Cpu4.

Lemma rectified_pair : forall x y, y = - x -> fmax x 0 - fmax y 0 = x.
Proof.
  intros x y ->. unfold fmax.
  destruct (Rlt_dec x 0); destruct (Rlt_dec (- x) 0); lra.
Qed.

Lemma update_keeps_shape : forall N c h sp dt,
  leak_ (update N c h sp dt) = leak_ c
  /\ gain_ (update N c h sp dt) = gain_ c
  /\ phi_ (update N c h sp dt) = phi_ c
  /\ length (memory_ (update N c h sp dt)) = N.
Proof.
  intros N c h sp dt. unfold update. cbn [leak_ gain_ phi_ memory_].
  rewrite length_map, length_seq. repeat split; reflexivity.
Qed.

(** One update without leak moves the decoded displacement by twice the
    gain times the step made. *)
Lemma update_displacement : forall c h sp dt,
  phi_ c = map (fun i => 2 * PI * INR i / INR 8) (seq 0 8) ->
  length (memory_ c) = 8%nat -> leak_ c <= 0 ->
  displacement 8 (update 8 c h sp dt)
  = (fst (displacement 8 c) + 2 * gain_ c * (sp * cos h * dt),
     snd (displacement 8 c) + 2 * gain_ c * (sp * sin h * dt)).
Proof.
  intros c h sp dt Hphi Hlen Hleak.
  destruct (BumpFacts.length_8_inv _ Hlen)
    as (m0 & m1 & m2 & m3 & m4 & m5 & m6 & m7 & Hm).
  unfold displacement, update, update_unit. cbn [phi_ memory_ leak_ gain_].
  destruct (Rlt_dec 0 (leak_ c)) as [Hl|_]; [lra|].
  rewrite Hphi, Hm, angles_8.
  cbn [seq map fold_left nth fst snd].
  rewrite !cos_minus. autorewrite with octant.
  pose proof s2_sq as Hs.
  set (ch := cos h). set (sh := sin h).
  pose proof (rectified_pair (ch * 1 + sh * 0) (ch * -1 + sh * 0) ltac:(ring))
    as P0.
  pose proof (rectified_pair (ch * s2 + sh * s2) (ch * - s2 + sh * - s2)
                ltac:(ring)) as P1.
  pose proof (rectified_pair (ch * 0 + sh * 1) (ch * 0 + sh * -1) ltac:(ring))
    as P2.
  pose proof (rectified_pair (ch * - s2 + sh * s2) (ch * s2 + sh * - s2)
                ltac:(ring)) as P3.
  set (A0 := fmax (ch * 1 + sh * 0) 0) in *.
  set (B0 := fmax (ch * -1 + sh * 0) 0) in *.
  set (A1 := fmax (ch * s2 + sh * s2) 0) in *.
  set (B1 := fmax (ch * - s2 + sh * - s2) 0) in *.
  set (A2 := fmax (ch * 0 + sh * 1) 0) in *.
  set (B2 := fmax (ch * 0 + sh * -1) 0) in *.
  set (A3 := fmax (ch * - s2 + sh * s2) 0) in *.
  set (B3 := fmax (ch * s2 + sh * - s2) 0) in *.
  f_equal.
  - transitivity
      (m0 + m1 * s2 - m3 * s2 - m4 - m5 * s2 + m7 * s2
       + gain_ c * sp * dt
         * ((A0 - B0) + s2 * (A1 - B1) - s2 * (A3 - B3))); [ring|].
    rewrite P0, P1, P3.
    transitivity
      (m0 + m1 * s2 - m3 * s2 - m4 - m5 * s2 + m7 * s2
       + gain_ c * sp * dt * (ch + 2 * (s2 * s2) * ch)); [ring|].
    rewrite Hs. field.
  - transitivity
      (m1 * s2 + m2 + m3 * s2 - m5 * s2 - m6 - m7 * s2
       + gain_ c * sp * dt
         * ((A2 - B2) + s2 * (A1 - B1) + s2 * (A3 - B3))); [ring|].
    rewrite P1, P2, P3.
    transitivity
      (m1 * s2 + m2 + m3 * s2 - m5 * s2 - m6 - m7 * s2
       + gain_ c * sp * dt * (sh + 2 * (s2 * s2) * sh)); [ring|].
    rewrite Hs. field.
Qed.


Lemma walk_displacement : forall legs c,
  phi_ c = map (fun i => 2 * PI * INR i / INR 8) (seq 0 8) ->
  length (memory_ c) = 8%nat -> leak_ c <= 0 ->
  displacement 8 (walk 8 legs c)
  = (fst (displacement 8 c) + 2 * gain_ c * fst (travelled legs),
     snd (displacement 8 c) + 2 * gain_ c * snd (travelled legs)).
Proof.
  induction legs as [|[[h sp] dt] legs IH]; intros c Hphi Hlen Hleak.
  - cbn [walk travelled fst snd].
    destruct (displacement 8 c) as [dx dy]. cbn [fst snd]. f_equal; ring.
  - cbn [walk travelled fst snd].
    destruct (update_keeps_shape 8 c h sp dt) as (Hl & Hg & Hp & Hn).
    rewrite IH by (rewrite ?Hl, ?Hp; assumption).
    rewrite update_displacement by assumption. cbn [fst snd].
    rewrite Hg. f_equal; ring.
Qed.

Lemma zero_memory_displacement : forall N (phi : list R) l,
  fold_left
    (fun d i => (fst d + nth i (repeat 0 N) 0 * cos (nth i phi 0),
                 snd d + nth i (repeat 0 N) 0 * sin (nth i phi 0)))
    l (0, 0)
  = (0, 0).
Proof.
  intros N phi l. induction l as [|i l IH]; [reflexivity|].
  cbn [fold_left fst snd]. rewrite EstimatorFacts.nth_zeros.
  replace (0 + 0 * cos (nth i phi 0)) with 0 by ring.
  replace (0 + 0 * sin (nth i phi 0)) with 0 by ring.
  exact IH.
Qed.

Lemma fresh_displacement : forall N leak gain,
  displacement N (make N leak gain) = (0, 0).
Proof.
  intros N leak gain. unfold displacement, make. cbn [memory_ phi_].
  apply zero_memory_displacement.
Qed.

(** X18: with eight units and no leak, path integration is exact up to a
    factor: after any sequence of updates (any headings, speeds and time
    steps) the decoded displacement is [2 * gain] times the path actually
    travelled (the sum of [speed * dt] along each heading), and the home
    distance is [2 * |gain|] times the length of that path's resultant;
    in particular a walk that comes back to its start decodes as zero
    displacement. *)
Theorem path_integration_is_exact_up_to_twice_gain :
  forall (leak gain : R) (legs : list (R * R * R)),
    leak <= 0 ->
    let c := walk 8 legs (make 8 leak gain) in
    let X := fst (travelled legs) in
    let Y := snd (travelled legs) in
    displacement 8 c = (2 * gain * X, 2 * gain * Y)
    /\ distance (home_vector 8 c) = 2 * Rabs gain * sqrt (X * X + Y * Y).
Proof.
  intros leak gain legs Hleak c X Y.
  assert (Hd : displacement 8 c = (2 * gain * X, 2 * gain * Y)).
  { unfold c. rewrite walk_displacement.
    - rewrite fresh_displacement. cbn [fst snd make gain_].
      unfold X, Y. f_equal; ring.
    - reflexivity.
    - unfold make. cbn [memory_]. apply repeat_length.
    - unfold make. cbn [leak_]. assumption. }
  split; [exact Hd|].
  unfold home_vector. rewrite Hd. cbn [distance].
  replace (2 * gain * X * (2 * gain * X) + 2 * gain * Y * (2 * gain * Y))
    with ((2 * Rabs gain) * (2 * Rabs gain) * (X * X + Y * Y)).
  - assert (Hxy : 0 <= X * X + Y * Y).
    { pose proof (Rle_0_sqr X). pose proof (Rle_0_sqr Y).
      unfold Rsqr in *. lra. }
    pose proof (Rabs_pos gain) as Hg.
    rewrite sqrt_mult by nra.
    rewrite sqrt_square by lra. reflexivity.
  - transitivity (4 * (Rabs gain * Rabs gain) * (X * X + Y * Y)); [ring|].
    replace (Rabs gain * Rabs gain) with (gain * gain); [ring|].
    unfold Rabs. destruct (Rcase_abs gain); ring.
Qed.

Lemma path_integration_witness :
  displacement 8 (walk 8 [(0, 1, 0.5); (PI, 1, 0.5)] (make 8 0 1))
  = (2 * 1 * fst (travelled [(0, 1, 0.5); (PI, 1, 0.5)]),
     2 * 1 * snd (travelled [(0, 1, 0.5); (PI, 1, 0.5)])).
Proof.
  assert (Hleak : 0 <= 0) by lra.
  exact (proj1 (path_integration_is_exact_up_to_twice_gain
                  0 1 [(0, 1, 0.5); (PI, 1, 0.5)] Hleak)).
Defined.

(** X19: a leaky integrator saturates: with a leak [0 < leak], time steps
    with [0 <= dt] and [leak * dt <= 1], and drives [gain * speed] between
    0 and [D], every memory entry stays between 0 and [D / leak], however
    long the walk and for any number of units. *)
Theorem leaky_memory_is_bounded :
  forall (N : nat) (leak gain D : R) (legs : list (R * R * R)),
    0 < leak -> 0 <= D ->
    Forall (fun leg => let '(h, sp, dt) := leg in
                       0 <= dt /\ leak * dt <= 1 /\ 0 <= gain * sp <= D)
           legs ->
    Forall (fun m => 0 <= m <= D / leak)
           (memory_ (walk N legs (make N leak gain))).
Proof.
  intros N leak gain D legs Hleak HD Hlegs.
  assert (Hinv : forall c,
            leak_ c = leak -> gain_ c = gain ->
            (forall i, 0 <= nth i (memory_ c) 0 <= D / leak) ->
            forall i, 0 <= nth i (memory_ (walk N legs c)) 0 <= D / leak).
  { induction Hlegs as [|[[h sp] dt] legs (Hdt & Hldt & Hsp) Hlegs IH];
      intros c Hl Hg Hmem; [exact Hmem|].
    cbn [walk]. apply IH.
    - unfold update. cbn [leak_]. assumption.
    - unfold update. cbn [gain_]. assumption.
    - intro i. unfold update. cbn [memory_].
      destruct (nth_in_or_default i
                  (map (update_unit c h sp dt) (seq 0 N)) 0) as [Hin|Hdef].
      + apply in_map_iff in Hin. destruct Hin as [k [Hk _]].
        rewrite <- Hk. unfold update_unit. rewrite Hl, Hg.
        destruct (Rlt_dec 0 leak) as [_|Hn]; [|lra].
        specialize (Hmem k).
        set (m := nth k (memory_ c) 0) in *.
        pose proof (COS_bound (h - nth k (phi_ c) 0)) as [_ Hc].
        assert (Hf : 0 <= fmax (cos (h - nth k (phi_ c) 0)) 0 <= 1).
        { unfold fmax. destruct (Rlt_dec _ 0); lra. }
        set (f := fmax _ 0) in *.
        assert (Hdrive : 0 <= gain * sp * f <= D) by nra.
        set (drive := gain * sp * f) in *.
        assert (HDl : D / leak * leak = D) by (field; lra).
        set (q := D / leak) in *.
        split; [nra|].
        assert (m * (1 - leak * dt) <= q * (1 - leak * dt)) by nra.
        nra.
      + rewrite Hdef. specialize (Hmem 0%nat).
        lra. }
  apply Forall_forall. intros m Hm.
  apply (In_nth _ _ 0) in Hm. destruct Hm as [i [_ <-]].
  apply Hinv; [reflexivity|reflexivity|].
  intro i'. unfold make. cbn [memory_]. rewrite EstimatorFacts.nth_zeros.
  split; [lra|].
  unfold Rdiv. apply Rmult_le_pos; [assumption|].
  left. apply Rinv_0_lt_compat. assumption.
Qed.

Lemma leaky_memory_witness :
  Forall (fun m => 0 <= m <= 1 / 0.1)
         (memory_ (walk 8 [(0, 1, 0.01); (1, 1, 0.01)] (make 8 0.1 1))).
Proof.
  assert (Hleak : 0 < 0.1) by lra.
  assert (HD : 0 <= 1) by lra.
  assert (Hlegs : Forall (fun leg : R * R * R =>
                            let '(h, sp, dt) := leg in
                            0 <= dt /\ 0.1 * dt <= 1 /\ 0 <= 1 * sp <= 1)
                         [(0, 1, 0.01); (1, 1, 0.01)]).
  { repeat constructor; lra. }
  exact (leaky_memory_is_bounded 8 0.1 1 1 _ Hleak HD Hlegs).
Defined.

(** X20: [reset] gives back the integrator as it was constructed, whatever
    updates came before: the memory is all zero again, the leak, the gain
    and the preferred directions are untouched, and the decoded distance
    from home is 0. *)
Theorem reset_restores_the_fresh_integrator :
  forall (N : nat) (leak gain : R) (legs : list (R * R * R)),
    reset N (walk N legs (make N leak gain)) = make N leak gain
    /\ distance (home_vector N (reset N (walk N legs (make N leak gain)))) = 0.
Proof.
  intros N leak gain legs.
  assert (Hshape : forall c,
            leak_ (walk N legs c) = leak_ c
            /\ gain_ (walk N legs c) = gain_ c
            /\ phi_ (walk N legs c) = phi_ c).
  { induction legs as [|[[h sp] dt] legs IH]; intro c.
    - repeat split; reflexivity.
    - cbn [walk]. destruct (IH (update N c h sp dt)) as (H1 & H2 & H3).
      rewrite H1, H2, H3. repeat split; reflexivity. }
  assert (Hreset : reset N (walk N legs (make N leak gain)) = make N leak gain).
  { unfold reset. destruct (Hshape (make N leak gain)) as (-> & -> & ->).
    reflexivity. }
  split; [exact Hreset|].
  rewrite Hreset. unfold home_vector. rewrite fresh_displacement.
  cbn [distance]. replace (0 * 0 + 0 * 0) with 0 by ring. apply sqrt_0.
Qed.
End IntegratorFacts.

(** ** bug.hpp: headings, distances and the start of the trajectory *)

Module BugFacts.
Import Agent.

Lemma wrap_heading_shift : forall h,
  exists k : Z, wrap_heading h = h + IZR k * (2 * PI).
Proof.
  intro h. unfold wrap_heading, fmod. cbv zeta.
  set (k := Ztrunc (h / (2 * PI))).
  destruct (Rlt_dec _ 0).
  - exists (1 - k)%Z. rewrite minus_IZR. ring.
  - exists (- k)%Z. rewrite opp_IZR. ring.
Qed.

Lemma sum_of_errors_bounds : forall (goal : R) (hist : list BugState) (s0 : R),
  s0 <= fold_left (fun sum s => sum + Rabs (wrap_pi (bs_heading s - goal)))
                  hist s0
     <= s0 + INR (length hist) * PI.
Proof.
  intros goal hist. induction hist as [|s hist IH]; intro s0.
  - cbn. lra.
  - cbn [fold_left length]. rewrite S_INR.
    specialize (IH (s0 + Rabs (wrap_pi (bs_heading s - goal)))).
    pose proof (wrap_pi_range (bs_heading s - goal)) as Hw.
    assert (0 <= Rabs (wrap_pi (bs_heading s - goal)) <= PI).
    { unfold Rabs. destruct (Rcase_abs _); lra. }
    lra.
Qed.

Section WithRandom.
Context {RS : RandomSource}.

Lemma history_starts_at_x0_y0 : forall p entropy cs,
  exists h0 rest,
    history_ (do_calls cs (make p entropy)) = h0 :: rest
    /\ bs_x h0 = x0 p /\ bs_y h0 = y0 p.
Proof.
  intros p entropy cs.
  destruct (AgentFacts.do_calls_history cs (make p entropy)) as [sfx [Hs _]].
  destruct (AgentFacts.bug_make_fields p entropy)
    as (_ & _ & _ & _ & _ & Hh).
  rewrite Hh in Hs. cbn [app] in Hs.
  eexists. eexists. split; [exact Hs|]. split; reflexivity.
Qed.

(** X21: every step (of a time step that is not negative) leaves the
    heading of the agent in [[0, 2 pi)]; it is the old heading plus the
    steering term [angular_command * dt] and the heading noise, up to a
    whole number of turns. *)
Theorem step_wraps_heading_into_first_turn :
  forall (dt : R) (l : Landscape.t) (b : t),
    0 <= dt ->
    let b' := snd (step dt l b) in
    let nz := fst (draw_step_noise b (rng_ b)) in
    let mag_dir :=
      Landscape.direction (Landscape.magnetic_direction l (x_ b) (y_ b)) in
    let angular_command :=
      kappa_ b * sin (goal_heading_ b
                      - (Ring.heading 8 (attractor_ b) + mag_dir)) in
    0 <= heading_ b' < 2 * PI
    /\ exists k : Z,
         heading_ b'
         = heading_ b + (angular_command * dt
                         + sigma_theta_ b * sqrt dt * eta_theta nz)
           + IZR k * (2 * PI).
Proof.
  intros dt l b _. cbv zeta. rewrite AgentFacts.step_as_given.
  unfold step_given. cbn [snd heading_]. split.
  - apply wrap_heading_range.
  - apply wrap_heading_shift.
Qed.

(** X22: [mean_heading_error] of an agent, at any point of its life (after
    its construction and any sequence of [step] calls with [dt >= 0] and
    [run] calls with [dt > 0]), lies between 0 and pi. *)
Theorem mean_heading_error_is_between_0_and_pi :
  forall (p : BugParams) (entropy : N) (cs : list call),
    Forall (fun c => match c with
                     | Step dt _ => 0 <= dt
                     | Run _ _ dt => 0 < dt
                     end) cs ->
    0 <= mean_heading_error (do_calls cs (make p entropy)) <= PI.
Proof.
  intros p entropy cs _. pose proof PI_RGT_0 as Hpi.
  destruct (history_starts_at_x0_y0 p entropy cs) as (h0 & rest & Hh & _).
  unfold mean_heading_error.
  set (b := do_calls cs (make p entropy)) in *.
  pose proof (sum_of_errors_bounds (goal_heading_ b) (history_ b) 0)
    as [Hlo Hhi].
  set (S := fold_left _ (history_ b) 0) in *.
  assert (Hn : 0 < INR (length (history_ b))).
  { rewrite Hh. apply lt_0_INR. cbn. lia. }
  set (n := INR (length (history_ b))) in *.
  split.
  - apply Rmult_le_reg_r with n; [assumption|].
    unfold Rdiv. rewrite Rmult_assoc, Rinv_l by lra. lra.
  - apply Rmult_le_reg_r with n; [assumption|].
    unfold Rdiv. rewrite Rmult_assoc, Rinv_l by lra. lra.
Qed.

(** X23: [distance_from_start] is the distance between the current
    position and the point [(x0, y0)] the agent was constructed at,
    whatever calls came in between; it is 0 right after construction. *)
Theorem distance_from_start_is_measured_from_x0_y0 :
  forall (p : BugParams) (entropy : N) (cs : list call),
    let b := do_calls cs (make p entropy) in
    distance_from_start b
    = sqrt ((x_ b - x0 p) * (x_ b - x0 p) + (y_ b - y0 p) * (y_ b - y0 p))
    /\ distance_from_start (make p entropy) = 0.
Proof.
  intros p entropy cs b. split.
  - destruct (history_starts_at_x0_y0 p entropy cs)
      as (h0 & rest & Hh & Hx & Hy).
    unfold distance_from_start. fold b in Hh. rewrite Hh.
    cbn [hd]. rewrite Hx, Hy. reflexivity.
  - destruct (AgentFacts.bug_make_fields p entropy)
      as (Hx & Hy & _ & _ & _ & Hh).
    unfold distance_from_start. rewrite Hh. cbn [hd bs_x bs_y].
    rewrite Hx, Hy.
    replace ((x0 p - x0 p) * (x0 p - x0 p) + (y0 p - y0 p) * (y0 p - y0 p))
      with 0 by ring.
    apply sqrt_0.
Qed.

End WithRandom.

Lemma triangle_inequality : forall a b c d,
  sqrt ((a + c) * (a + c) + (b + d) * (b + d))
  <= sqrt (a * a + b * b) + sqrt (c * c + d * d).
Proof.
  intros a b c d.
  assert (H1 : 0 <= a * a + b * b).
  { pose proof (Rle_0_sqr a). pose proof (Rle_0_sqr b). unfold Rsqr in *. lra. }
  assert (H2 : 0 <= c * c + d * d).
  { pose proof (Rle_0_sqr c). pose proof (Rle_0_sqr d). unfold Rsqr in *. lra. }
  pose proof (sqrt_pos (a * a + b * b)) as HA.
  pose proof (sqrt_pos (c * c + d * d)) as HC.
  pose proof (sqrt_sqrt _ H1) as HAA. pose proof (sqrt_sqrt _ H2) as HCC.
  set (A := sqrt (a * a + b * b)) in *. set (C := sqrt (c * c + d * d)) in *.
  assert (Hcs : a * c + b * d <= A * C).
  { destruct (Rle_dec (a * c + b * d) 0) as [Hneg|Hpos]; [nra|].
    assert (Hsq : (a * c + b * d) * (a * c + b * d) <= (A * C) * (A * C)).
    { replace ((A * C) * (A * C)) with ((A * A) * (C * C)) by ring.
      rewrite HAA, HCC.
      pose proof (Rle_0_sqr (a * d - b * c)) as Hd. unfold Rsqr in Hd. nra. }
    assert (0 <= A * C) by (apply Rmult_le_pos; assumption).
    nra. }
  apply Rsqr_incr_0_var; [|lra].
  unfold Rsqr. rewrite sqrt_sqrt.
  - nra.
  - pose proof (Rle_0_sqr (a + c)). pose proof (Rle_0_sqr (b + d)).
    unfold Rsqr in *. lra.
Qed.

Section Motion.
Context {RS : RandomSource}.

Lemma steps_snoc : forall n dt l b,
  steps (S n) dt l b = snd (step dt l (steps n dt l b)).
Proof.
  induction n as [|n IH]; intros dt l b; [reflexivity|].
  change (steps (S (S n)) dt l b) with (steps (S n) dt l (snd (step dt l b))).
  rewrite IH. reflexivity.
Qed.

Lemma do_calls_of_steps : forall n dt l b,
  do_calls (repeat (Step dt l) n) b = steps n dt l b.
Proof.
  induction n as [|n IH]; intros dt l b; [reflexivity|].
  cbn [repeat do_calls do_call steps]. apply IH.
Qed.

Lemma steps_keep_motion_parameters : forall n dt l b,
  speed_ (steps n dt l b) = speed_ b
  /\ sigma_xy_ (steps n dt l b) = sigma_xy_ b.
Proof.
  induction n as [|n IH]; intros dt l b; [split; reflexivity|].
  rewrite steps_snoc.
  destruct (AgentFacts.step_keeps_motion_parameters dt l (steps n dt l b))
    as (H1 & H2 & _).
  cbv zeta in H1, H2. rewrite H1, H2. apply IH.
Qed.

Lemma quiet_step_displacement : forall dt l b,
  sigma_xy_ b = 0 ->
  let b' := snd (step dt l b) in
  x_ b' = x_ b + speed_ b * dt * cos (heading_ b')
  /\ y_ b' = y_ b + speed_ b * dt * sin (heading_ b').
Proof.
  intros dt l b Hs b'.
  destruct (AgentFacts.step_position dt l b) as [Hx Hy].
  cbv zeta in Hx, Hy. fold b' in Hx, Hy.
  rewrite Hx, Hy, Hs. split; ring.
Qed.

(** X24: without position noise the agent cannot outrun its speed: every
    step (of a time step [dt >= 0]) moves it by exactly [|speed * dt|],
    along its new heading, and after [n] steps of an agent constructed
    with [sigma_xy = 0] the distance from the start is at most
    [n * |speed * dt|]. *)
Theorem quiet_agent_cannot_outrun_its_speed :
  forall (p : BugParams) (entropy : N) (l : Landscape.t) (dt : R) (n : nat),
    sigma_xy p = 0 -> 0 <= dt ->
    let b := steps n dt l (make p entropy) in
    let b' := snd (step dt l b) in
    (x_ b' - x_ b) * (x_ b' - x_ b) + (y_ b' - y_ b) * (y_ b' - y_ b)
    = (speed p * dt) * (speed p * dt)
    /\ distance_from_start b <= INR n * Rabs (speed p * dt).
Proof.
  intros p entropy l dt n Hsig _.
  destruct (AgentFacts.bug_make_fields p entropy)
    as (Hx0 & Hy0 & Hsp & Hsx & _ & _).
  cbv zeta in Hx0, Hy0, Hsp, Hsx.
  assert (Hpar : forall k,
            speed_ (steps k dt l (make p entropy)) = speed p
            /\ sigma_xy_ (steps k dt l (make p entropy)) = 0).
  { intro k. destruct (steps_keep_motion_parameters k dt l (make p entropy))
      as [H1 H2].
    rewrite H1, H2, Hsp, Hsx. split; [reflexivity|assumption]. }
  assert (Hmove : forall k,
            let bk := steps k dt l (make p entropy) in
            exists th,
              x_ (steps (S k) dt l (make p entropy))
              = x_ bk + speed p * dt * cos th
              /\ y_ (steps (S k) dt l (make p entropy))
                 = y_ bk + speed p * dt * sin th).
  { intros k bk. rewrite steps_snoc. fold bk.
    destruct (Hpar k) as [H1 H2]. fold bk in H1, H2.
    destruct (quiet_step_displacement dt l bk H2) as [Hx Hy].
    cbv zeta in Hx, Hy. rewrite H1 in Hx, Hy.
    eexists. split; [exact Hx|exact Hy]. }
  cbv zeta. split.
  - destruct (Hmove n) as (th & Hx & Hy). cbv zeta in Hx, Hy.
    rewrite <- steps_snoc, Hx, Hy.
    pose proof (sin2_cos2 th) as Hsc. unfold Rsqr in Hsc.
    transitivity ((speed p * dt) * (speed p * dt)
                  * (sin th * sin th + cos th * cos th)); [ring|].
    rewrite Hsc. ring.
  - rewrite <- do_calls_of_steps.
    destruct (history_starts_at_x0_y0 p entropy (repeat (Step dt l) n))
      as (h0 & rest & Hh & Hhx & Hhy).
    unfold distance_from_start. rewrite Hh. cbn [hd]. rewrite Hhx, Hhy.
    rewrite do_calls_of_steps. clear Hh Hhx Hhy h0 rest.
    induction n as [|n IH].
    + cbn [steps]. rewrite Hx0, Hy0.
      replace ((x0 p - x0 p) * (x0 p - x0 p) + (y0 p - y0 p) * (y0 p - y0 p))
        with 0 by ring.
      rewrite sqrt_0. simpl. lra.
    + destruct (Hmove n) as (th & Hx & Hy). cbv zeta in Hx, Hy.
      rewrite Hx, Hy, S_INR.
      set (bn := steps n dt l (make p entropy)) in *.
      replace (x_ bn + speed p * dt * cos th - x0 p)
        with ((x_ bn - x0 p) + speed p * dt * cos th) by ring.
      replace (y_ bn + speed p * dt * sin th - y0 p)
        with ((y_ bn - y0 p) + speed p * dt * sin th) by ring.
      eapply Rle_trans; [apply triangle_inequality|].
      assert (Hlen : sqrt (speed p * dt * cos th * (speed p * dt * cos th)
                           + speed p * dt * sin th * (speed p * dt * sin th))
                     = Rabs (speed p * dt)).
      { pose proof (sin2_cos2 th) as Hsc. unfold Rsqr in Hsc.
        replace (speed p * dt * cos th * (speed p * dt * cos th)
                 + speed p * dt * sin th * (speed p * dt * sin th))
          with (Rsqr (speed p * dt) * (sin th * sin th + cos th * cos th))
          by (unfold Rsqr; ring).
        rewrite Hsc, Rmult_1_r. apply sqrt_Rsqr_abs. }
      rewrite Hlen. lra.
Qed.

(** X29: the constructor seeds the estimator from the heading alone. The
    attractor's own constructor draws a unit index for a random bump, but
    [reset (heading_)] overwrites that bump at once: for a heading that is
    not negative, the rates of the attractor of a new agent are the cosine
    bump of its heading, whatever index was drawn; the draw only moves the
    generator on, which is left one [uniform_int] draw after the optional
    draw of the heading. *)
Theorem constructor_seeds_estimator_from_heading :
  forall (p : BugParams) (entropy : N),
    let b := make p entropy in
    let g0 := if (seed p =? 0)%N then mt19937 entropy else mt19937 (seed p) in
    let g1 := if Rle_dec 0 (heading0 p) then g0
              else snd (uniform_real 0 (2 * PI) g0) in
    0 <= heading_ b ->
    Ring.r_ (attractor_ b) = Ring.cosine_bump 8 (attractor_ b) (heading_ b)
    /\ rng_ b = snd (uniform_int 0 (Z.of_nat 8 - 1) g1)
    /\ heading_ b = (if Rle_dec 0 (heading0 p) then heading0 p
                     else fst (uniform_real 0 (2 * PI) g0)).
Proof.
  intros p entropy. cbv zeta. unfold make.
  set (g0 := if (seed p =? 0)%N then mt19937 entropy else mt19937 (seed p)).
  destruct (Rle_dec 0 (heading0 p)) as [Hh0|Hh0].
  - unfold Ring.make, Ring.init_bump.
    destruct (uniform_int 0 (Z.of_nat 8 - 1) g0) as [idx g2].
    unfold Ring.reset. cbv zeta.
    destruct (Rle_dec 0 (heading0 p)) as [_|Hn]; [|contradiction].
    cbn. intros _. repeat split.
  - destruct (uniform_real 0 (2 * PI) g0) as [h g1]. cbn [fst snd].
    unfold Ring.make, Ring.init_bump.
    destruct (uniform_int 0 (Z.of_nat 8 - 1) g1) as [idx g2].
    unfold Ring.reset. cbv zeta.
    destruct (Rle_dec 0 h) as [Hh|Hh].
    + cbn. intros _. repeat split.
    + unfold Ring.init_bump.
      destruct (uniform_int 0 (Z.of_nat 8 - 1) g2) as [idx' g3].
      cbn [heading_]. intro Hc. contradiction.
Qed.

End Motion.

Lemma constructor_seeds_witness :
  Ring.r_ (attractor_ (@make counting quiet_params 0%N))
  = Ring.cosine_bump 8 (attractor_ (@make counting quiet_params 0%N))
                     (heading_ (@make counting quiet_params 0%N)).
Proof.
  assert (Hh : 0 <= heading_ (@make counting quiet_params 0%N)).
  { unfold make.
    destruct (Rle_dec 0 (heading0 quiet_params)) as [Hge|_].
    - cbn [heading0 quiet_params] in Hge. lra.
    - cbn [uniform_real counting].
      destruct (Ring.make 8 _ _ _ _ _ _ _ _ _) as [a0 g2].
      destruct (Ring.reset 8 a0 _ g2) as [a g3].
      cbn [heading_]. lra. }
  exact (proj1 (@constructor_seeds_estimator_from_heading
                  counting quiet_params 0%N Hh)).
Defined.

Lemma quiet_agent_witness :
  @distance_from_start counting
    (@steps counting 3 0.01 Landscape.default (@make counting quiet_params 0%N))
  <= INR 3 * Rabs (speed quiet_params * 0.01).
Proof.
  assert (Hsig : sigma_xy quiet_params = 0) by reflexivity.
  assert (Hdt : 0 <= 0.01) by lra.
  exact (proj2 (@quiet_agent_cannot_outrun_its_speed
                  counting quiet_params 0%N Landscape.default 0.01 3
                  Hsig Hdt)).
Defined.

Lemma step_wraps_heading_witness :
  0 <= heading_ (snd (@step counting 0.01 Landscape.default
                        (@make counting quiet_params 0%N)))
    < 2 * PI.
Proof.
  assert (Hdt : 0 <= 0.01) by lra.
  exact (proj1 (@step_wraps_heading_into_first_turn
                  counting 0.01 Landscape.default
                  (@make counting quiet_params 0%N) Hdt)).
Defined.

Lemma mean_heading_error_witness :
  0 <= @mean_heading_error counting
         (@do_calls counting
            [Step 0.01 Landscape.default; Run Landscape.default 0.05 0.01]
            (@make counting quiet_params 0%N))
    <= PI.
Proof.
  assert (Hcs : Forall (fun c => match c with
                                 | Step dt _ => 0 <= dt
                                 | Run _ _ dt => 0 < dt
                                 end)
                       [Step 0.01 Landscape.default;
                        Run Landscape.default 0.05 0.01]).
  { repeat constructor; lra. }
  exact (@mean_heading_error_is_between_0_and_pi
           counting quiet_params 0%N _ Hcs).
Defined.

End BugFacts.

(** ** gdext: what the bindings do to the landscape and to the bug *)

Module GodotFacts.
Import Godot.

(** X25: every write of a property of the landscape resource (and
    [rebuild] itself) replaces the landscape by a new one built from the
    five properties, so anomalies added through [get_landscape ()] before
    the write are gone: afterwards the landscape has no anomaly, and for a
    positive [B0], an inclination strictly between -90 and 90 degrees and a
    declination in [(-pi, pi]] every query returns the uniform background
    field. *)
Theorem property_writes_discard_anomalies :
  forall (w : property_write) (f : Landscape.t -> Landscape.t)
         (r : LandscapeResource),
    let r' := write w (through_get_landscape f r) in
    landscape_ r'
    = Landscape.make (sim_width_ r') (sim_height_ r') (B0_ r')
                     (declination_ r') (inclination_deg_ r' * PI / 180)
    /\ Landscape.anomalies_ (landscape_ r') = []
    /\ (0 < B0_ r' -> -90 < inclination_deg_ r' < 90 ->
        - PI < declination_ r' <= PI ->
        forall x y : R,
          Landscape.magnetic_direction (landscape_ r') x y
          = Landscape.mkField (declination_ r')
              (B0_ r' * cos (inclination_deg_ r' * PI / 180))
              (inclination_deg_ r' * PI / 180)).
Proof.
  intros w f r r'.
  assert (Hl : landscape_ r'
               = Landscape.make (sim_width_ r') (sim_height_ r') (B0_ r')
                   (declination_ r') (inclination_deg_ r' * PI / 180)).
  { unfold r'. destruct w; reflexivity. }
  split; [exact Hl|]. split; [rewrite Hl; reflexivity|].
  intros HB0 Hincl Hdecl x y. rewrite Hl.
  apply FieldFacts.uniform_field; try assumption.
  pose proof PI_RGT_0 as Hpi. split; nra.
Qed.

Section Node.
Context {RS : RandomSource}.
Variable terrain : R -> R -> R.

Lemma physics_loop_is_run_loop : forall k dt l bug,
  physics_loop k dt l bug = Agent.run_loop k dt l bug.
Proof.
  induction k as [|k IH]; intros dt l bug; [reflexivity|].
  cbn [physics_loop Agent.run_loop].
  destruct (Agent.step dt l bug) as [ok bug'].
  destruct ok; cbn [negb]; [apply IH|reflexivity].
Qed.

(** After at least one step, the flag the loop leaves tells whether the
    bug is inside the landscape, and the heading has been wrapped. *)
Lemma physics_loop_flag : forall k dt l bug,
  (0 < k)%nat ->
  let r := physics_loop k dt l bug in
  fst r = Landscape.in_bounds l (Agent.x_ (snd r)) (Agent.y_ (snd r))
  /\ 0 <= Agent.heading_ (snd r) < 2 * PI.
Proof.
  induction k as [|k IH]; intros dt l bug Hk; [lia|].
  cbn [physics_loop].
  pose proof (AgentFacts.step_result dt l bug) as Hres.
  pose proof (AgentFacts.step_as_given dt l bug) as Hgiven.
  assert (Hh : 0 <= Agent.heading_ (snd (Agent.step dt l bug)) < 2 * PI).
  { rewrite Hgiven. unfold Agent.step_given. cbn [snd Agent.heading_].
    apply wrap_heading_range. }
  destruct (Agent.step dt l bug) as [ok bug']. cbn [fst snd] in Hres, Hh.
  destruct ok; cbn [negb].
  - destruct k as [|k].
    + cbn [physics_loop fst snd]. split; assumption.
    + apply IH. lia.
  - cbn [fst snd]. split; assumption.
Qed.

(** X26: a frame (of a length [delta >= 0]) of a running node whose bug
    and landscape are set and whose [steps_per_frame] is positive
    advances the bug exactly as the
    loop of [Bug::run] does with that many steps of [delta /
    steps_per_frame]; afterwards [running_] is true if and only if the bug
    is inside the landscape, the node sits at the image of the bug's
    position ([(x - 500) * 18.87] east, [-(y - 500) * 22.26] south) and
    its yaw is [pi/2 - heading], a value in [(-3 pi/2, pi/2]]. *)
Theorem frame_advances_bug_and_follows_it :
  forall (delta : R) (n : BugNode) (bug : Agent.t) (res : LandscapeResource),
    running_ n = true -> bug_ n = Some bug -> landscape_res_ n = Some res ->
    (0 < steps_per_frame_ n)%Z -> 0 <= delta ->
    let n' := _physics_process terrain delta n in
    exists bug' : Agent.t,
      bug_ n' = Some bug'
      /\ Agent.run_loop (Z.to_nat (steps_per_frame_ n))
                        (delta / IZR (steps_per_frame_ n))
                        (landscape_ res) bug
         = (running_ n', bug')
      /\ running_ n'
         = Landscape.in_bounds (landscape_ res) (Agent.x_ bug') (Agent.y_ bug')
      /\ vec_x (position n') = (Agent.x_ bug' - 500) * 18.87
      /\ vec_z (position n') = - (Agent.y_ bug' - 500) * 22.26
      /\ rotation n' = mkVector3 0 (PI / 2 - Agent.heading_ bug') 0
      /\ - (3 * (PI / 2)) < vec_y (rotation n') <= PI / 2.
Proof.
  intros delta n bug res Hrun Hbug Hres Hspf _ n'.
  unfold n', _physics_process. rewrite Hrun, Hbug, Hres. cbn [negb].
  cbv zeta.
  assert (Hk : (0 < Z.to_nat (steps_per_frame_ n))%nat) by lia.
  pose proof (physics_loop_flag (Z.to_nat (steps_per_frame_ n))
                (delta / IZR (steps_per_frame_ n)) (landscape_ res) bug Hk)
    as [Hflag Hhead].
  pose proof (physics_loop_is_run_loop (Z.to_nat (steps_per_frame_ n))
                (delta / IZR (steps_per_frame_ n)) (landscape_ res) bug)
    as Hloop.
  destruct (physics_loop _ _ _ bug) as [running bug'].
  cbn [fst snd] in Hflag, Hhead.
  exists bug'. cbn [bug_ running_ position rotation set_bug_state
                    sim_to_godot vec_x vec_y vec_z].
  split; [reflexivity|]. split; [symmetry; exact Hloop|].
  split; [exact Hflag|].
  split; [reflexivity|]. split; [reflexivity|].
  split; [f_equal; ring|]. lra.
Qed.

(** X27: a node that is not running is frozen: frames leave it exactly as
    it is, however many and whatever their lengths; in particular, once a
    step has reported the bug out of bounds the bug is not stepped again
    until [start] is called. *)
Theorem stopped_node_is_frozen :
  forall (deltas : list R) (n : BugNode),
    frames terrain deltas (stop n) = stop n
    /\ (running_ n = false -> frames terrain deltas n = n).
Proof.
  intros deltas n.
  assert (Hfrozen : forall m, running_ m = false -> frames terrain deltas m = m).
  { induction deltas as [|delta deltas IH]; intros m Hm; [reflexivity|].
    cbn [frames]. unfold _physics_process. rewrite Hm. cbn [negb].
    apply IH. assumption. }
  split; [apply Hfrozen; reflexivity|apply Hfrozen].
Qed.

(** What a frame reads of the node. *)
Lemma frame_reads : forall delta n1 n2,
  steps_per_frame_ n1 = steps_per_frame_ n2 ->
  landscape_res_ n1 = landscape_res_ n2 ->
  bug_ n1 = bug_ n2 -> running_ n1 = running_ n2 ->
  position n1 = position n2 -> rotation n1 = rotation n2 ->
  let m1 := _physics_process terrain delta n1 in
  let m2 := _physics_process terrain delta n2 in
  steps_per_frame_ m1 = steps_per_frame_ m2
  /\ landscape_res_ m1 = landscape_res_ m2
  /\ bug_ m1 = bug_ m2 /\ running_ m1 = running_ m2
  /\ position m1 = position m2 /\ rotation m1 = rotation m2.
Proof.
  intros delta n1 n2 Hs Hl Hb Hr Hp Ho. cbv zeta.
  unfold _physics_process. rewrite Hr, Hb, Hl, Hs.
  destruct (negb (running_ n2)); [repeat split; congruence|].
  destruct (bug_ n2) as [bug|] eqn:Eb; [|repeat split; congruence].
  destruct (landscape_res_ n2) as [res|] eqn:El; [|repeat split; congruence].
  destruct (physics_loop _ _ _ bug) as [running bug'].
  cbn [steps_per_frame_ landscape_res_ bug_ running_ position rotation
       set_bug_state].
  repeat split; congruence.
Qed.

(** X28: once the bug of a node is built, the exported parameters no
    longer reach it: writing the seed, the goal heading, the speed, kappa,
    the contrast or a noise level, then calling [start] and running any
    frames, leaves the same bug, running flag, position and rotation as
    the same calls without the write ([rebuild_bug], the only reader of
    these properties, runs only while the node has no bug). *)
Theorem parameters_written_after_build_are_ignored :
  forall (w : node_write) (entropy : N) (deltas : list R) (n : BugNode)
         (bug : Agent.t),
    bug_ n = Some bug ->
    let with_write := frames terrain deltas
                             (start terrain entropy (set_property w n)) in
    let without := frames terrain deltas (start terrain entropy n) in
    bug_ with_write = bug_ without
    /\ running_ with_write = running_ without
    /\ position with_write = position without
    /\ rotation with_write = rotation without.
Proof.
  intros w entropy deltas n bug Hbug. cbv zeta.
  assert (Hframes : forall n1 n2,
            steps_per_frame_ n1 = steps_per_frame_ n2 ->
            landscape_res_ n1 = landscape_res_ n2 ->
            bug_ n1 = bug_ n2 -> running_ n1 = running_ n2 ->
            position n1 = position n2 -> rotation n1 = rotation n2 ->
            bug_ (frames terrain deltas n1) = bug_ (frames terrain deltas n2)
            /\ running_ (frames terrain deltas n1)
               = running_ (frames terrain deltas n2)
            /\ position (frames terrain deltas n1)
               = position (frames terrain deltas n2)
            /\ rotation (frames terrain deltas n1)
               = rotation (frames terrain deltas n2)).
  { induction deltas as [|delta deltas IH]; intros n1 n2 Hs Hl Hb Hr Hp Ho.
    - cbn [frames]. repeat split; assumption.
    - cbn [frames].
      destruct (frame_reads delta n1 n2 Hs Hl Hb Hr Hp Ho)
        as (H1 & H2 & H3 & H4 & H5 & H6).
      apply IH; assumption. }
  apply Hframes; unfold start; cbv zeta;
    destruct w; cbn [set_property bug_]; rewrite Hbug;
    cbn [set_bug_state steps_per_frame_ landscape_res_ bug_ running_
         position rotation].
  all: first [reflexivity|symmetry; exact Hbug].
Qed.

End Node.

Lemma frame_witness :
  exists bug' : @Agent.t counting,
    bug_ (_physics_process (fun _ _ => 5250) 0.1
            (set_landscape_resource (Some new_resource)
               (start (fun _ _ => 5250) 0%N
                      (_ready (fun _ _ => 5250) 0%N new_node))))
    = Some bug'.
Proof.
  set (n := set_landscape_resource (Some new_resource)
              (start (fun _ _ => 5250) 0%N
                     (_ready (fun _ _ => 5250) 0%N (@new_node counting)))).
  assert (Hrun : running_ n = true) by reflexivity.
  assert (Hbug : bug_ n
                 = Some (Agent.make
                           (Agent.mkParams 500 100 (-1)
                              (3 * 3.14159265358979323846 / 4) 1 2 0.1 0.05
                              1000 0.15 0.5 0.02 0.05 1.5 4.5 2 0.5 0.01 0 1
                              42%N)
                           0%N)) by reflexivity.
  assert (Hres : landscape_res_ n = Some new_resource) by reflexivity.
  assert (Hspf : (0 < steps_per_frame_ n)%Z) by (cbn; lia).
  assert (Hdelta : 0 <= 0.1) by lra.
  destruct (frame_advances_bug_and_follows_it
              (fun _ _ => 5250) 0.1 n _ _ Hrun Hbug Hres Hspf Hdelta)
    as (bug' & Hb & _).
  exists bug'. exact Hb.
Defined.

Lemma parameters_ignored_witness :
  bug_ (frames (fun _ _ => 5250) [0.1]
          (start (fun _ _ => 5250) 0%N
             (set_property (SetSpeed 3)
                (_ready (fun _ _ => 5250) 0%N (@new_node counting)))))
  = bug_ (frames (fun _ _ => 5250) [0.1]
            (start (fun _ _ => 5250) 0%N
               (_ready (fun _ _ => 5250) 0%N (@new_node counting)))).
Proof.
  exact (proj1 (parameters_written_after_build_are_ignored
                  (fun _ _ => 5250) (SetSpeed 3) 0%N [0.1]
                  (_ready (fun _ _ => 5250) 0%N (@new_node counting))
                  _ eq_refl)).
Defined.

End GodotFacts.
